(** * mcp-calc-tools: the discretized integral engine

    A shallow embedding of the numerical integration handlers of
    [src/server.py] (class [CalcToolsServer]), of the sympy based functions
    of [src/mcp_calc_tools/core/calculus.py], of [linear_regression] in
    [src/mcp_calc_tools/server/server.py] and of
    [numerical_integration_methods] in
    [src/mcp_calc_tools/server/advanced_calculus.py]; and, further on, of
    [lebesgue_integral] and [ito_integral] of the core module, of
    [compound_interest], [present_value], [definite_integral],
    [numeric_derivative], [black_scholes] and [greeks] of
    [server/server.py], of [src/mcp_calc_tools/core/financial.py] with its
    routes, and of [symbolic_derivative] of [advanced_calculus.py].

    Number model.  Python floats and numpy [float64] values are embedded as
    exact canonical rationals [Qc]: sums, products, comparisons and
    divisions are those of the rational field, without rounding, [nan] or
    [inf].  Python's scalar division raises [ZeroDivisionError] on a zero
    divisor and is modelled as such ([py_truediv]); numpy's array division
    never raises (it yields a non finite value on a zero divisor, which the
    rationals do not have) and is modelled by the total division of [Qc].

    Control model.  A Python computation either returns a value or raises an
    exception: [outcome].  [try: ... except Exception as e: ...] is
    [try_except].  Every exception of the model is an instance of
    [Exception]. *)

From Stdlib Require Import ZArith QArith Qcanon String List Lia Lqa.
From stdpp Require Import base option list strings gmap numbers pretty.

Local Open Scope Z_scope.
Local Open Scope Qc_scope.

(** ** Exceptions and outcomes *)

Inductive exn_class :=
  | ValueError
  | ZeroDivisionError
  | TypeError
  | IndexError
  | NameError
  | SympifyError
  | RecursionError
  | OtherException (name : string).

Record exn := Exn { exn_cls : exn_class; exn_msg : string }.

(** [str(e)] of an exception: its message. *)
Definition str_exn (e : exn) : string := exn_msg e.

Inductive outcome (A : Type) :=
  | Return (a : A)
  | Raise (e : exn).
Arguments Return {A} a.
Arguments Raise {A} e.

#[export] Instance outcome_ret : MRet outcome := λ A a, Return a.
#[export] Instance outcome_bind : MBind outcome := λ A B k c,
  match c with
  | Return a => k a
  | Raise e => Raise e
  end.

#[export] Instance outcome_fmap : FMap outcome := λ A B f c,
  match c with
  | Return a => Return (f a)
  | Raise e => Raise e
  end.

(** [try: body except Exception as e: handler e] *)
Definition try_except {A} (body : outcome A) (handler : exn → outcome A)
  : outcome A :=
  match body with
  | Return a => Return a
  | Raise e => handler e
  end.

(** [for x in l: s = body x s], stopping at the first exception. *)
Fixpoint for_each {A S} (l : list A) (s : S) (body : A → S → outcome S)
  : outcome S :=
  match l with
  | [] => Return s
  | x :: l' => s' ← body x s; for_each l' s' body
  end.

(** [range(n)] and [range(a, b)] for Python ints. *)
Definition range (n : Z) : list Z := Z.of_nat <$> seq 0 (Z.to_nat n).
Definition range2 (a b : Z) : list Z := (λ i, a + Z.of_nat i)%Z <$> seq 0 (Z.to_nat (b - a)).

(** ** Values of a response dictionary *)

Inductive pyval :=
  | VFloat (q : Qc)
  | VInt (z : Z)
  | VStr (s : string)
  | VList (l : list Qc).

Abbreviation response := (gmap string pyval).

(** The error result of the operations that answer with a dictionary. *)
Definition error_response (msg : string) : response := {[ "error" := VStr msg ]}.

(** ** Python scalar arithmetic *)

(** [x / y] on Python floats (or a float and an int). *)
Definition py_truediv (x y : Qc) : outcome Qc :=
  if decide (y = 0) then Raise (Exn ZeroDivisionError "float division by zero")
  else Return (x / y).

Definition Qc_max (x y : Qc) : Qc := if decide (x ≤ y) then y else x.
Definition Qc_min (x y : Qc) : Qc := if decide (x ≤ y) then x else y.
Definition Qc_abs (x : Qc) : Qc := if decide (0 ≤ x) then x else - x.

(** ** numpy on one-dimensional arrays

    What a lambdified expression returns on an array argument: an array, or
    a scalar when the expression is free of its variable. *)

Inductive ndarray :=
  | Scalar (c : Qc)
  | Arr (l : list Qc).

(** [np.sum] *)
Definition np_sum (l : list Qc) : Qc := foldr Qcplus 0 l.

Definition nd_sum (y : ndarray) : Qc :=
  match y with
  | Scalar c => c
  | Arr l => np_sum l
  end.

(** [y * c] for a scalar [c] *)
Definition nd_scale (y : ndarray) (c : Qc) : ndarray :=
  match y with
  | Scalar v => Scalar (v * c)
  | Arr l => Arr ((λ v, v * c) <$> l)
  end.

(** [np.linspace(start, stop, num)]: [num] evenly spaced samples over
    [start, stop], [arange(num) * step + start] with the last one set to
    [stop]; a negative [num] raises. *)
Definition np_linspace (start stop : Qc) (num : Z) : outcome (list Qc) :=
  if decide (num < 0)%Z then
    Raise (Exn ValueError
             ("Number of samples, " +:+ pretty num +:+ ", must be non-negative."))
  else
    let div := (num - 1)%Z in
    let delta := stop - start in
    let y := Qc_of_Z <$> range num in
    let y :=
      if decide (0 < div)%Z then
        let step := delta / Qc_of_Z div in
        if decide (step = 0) then (λ i, i / Qc_of_Z div * delta) <$> y
        else (λ i, i * step) <$> y
      else (λ i, i * delta) <$> y in
    let y := (λ v, v + start) <$> y in
    Return (if decide (1 < num)%Z then removelast y ++ [stop] else y).

(** [a[:-1]], [a[1:]] and [a[::2]] on an array *)
Definition slice_init (l : list Qc) : list Qc := removelast l.
Definition slice_tail (l : list Qc) : list Qc := tail l.
Fixpoint slice_even (l : list Qc) : list Qc :=
  match l with
  | x :: _ :: l' => x :: slice_even l'
  | _ => l
  end.

Definition not_subscriptable {A} : outcome A :=
  Raise (Exn TypeError "object is not subscriptable").

(** [y[:-1]] and [y[1:]] on what a lambdified expression returned *)
Definition nd_init (y : ndarray) : outcome (list Qc) :=
  match y with
  | Scalar _ => not_subscriptable
  | Arr l => Return (slice_init l)
  end.
Definition nd_tail (y : ndarray) : outcome (list Qc) :=
  match y with
  | Scalar _ => not_subscriptable
  | Arr l => Return (slice_tail l)
  end.

(** Element-wise binary operation with numpy's broadcasting rule for
    one-dimensional operands: equal lengths, or one operand of length 1. *)
Definition np_broadcast (op : Qc → Qc → Qc) (a b : list Qc) : outcome (list Qc) :=
  if decide (length a = length b) then Return (zip_with op a b)
  else match a, b with
       | [x], _ => Return (op x <$> b)
       | _, [y] => Return ((λ x, op x y) <$> a)
       | _, _ =>
         Raise (Exn ValueError "operands could not be broadcast together")
       end.

Definition nd_broadcast (op : Qc → Qc → Qc) (y : ndarray) (b : list Qc)
  : outcome (list Qc) :=
  match y with
  | Scalar c => Return (op c <$> b)
  | Arr a => np_broadcast op a b
  end.

(** [np.diff] *)
Definition np_diff (l : list Qc) : list Qc :=
  zip_with Qcminus (slice_tail l) (slice_init l).

Definition nd_diff (y : ndarray) : outcome (list Qc) :=
  match y with
  | Scalar _ =>
    Raise (Exn ValueError "diff requires input that is at least one dimensional")
  | Arr l => Return (np_diff l)
  end.

(** [np.min] and [np.max]: an empty array has no minimum. *)
Definition np_reduce (op : Qc → Qc → Qc) (l : list Qc) : outcome Qc :=
  match l with
  | [] =>
    Raise (Exn ValueError
             "zero-size array to reduction operation which has no identity")
  | x :: l' => Return (foldl op x l')
  end.

Definition nd_min (y : ndarray) : outcome Qc :=
  match y with
  | Scalar c => Return c
  | Arr l => np_reduce Qc_min l
  end.
Definition nd_max (y : ndarray) : outcome Qc :=
  match y with
  | Scalar c => Return c
  | Arr l => np_reduce Qc_max l
  end.

(** [np.cumsum] along a row *)
Fixpoint cumsum_from (acc : Qc) (l : list Qc) : list Qc :=
  match l with
  | [] => []
  | x :: l' => (acc + x) :: cumsum_from (acc + x) l'
  end.
Definition np_cumsum (l : list Qc) : list Qc := cumsum_from 0 l.

(** [np.mean] and [np.std] (the default [ddof = 0]: the root of the mean
    squared deviation), the square root being numpy's. *)
Definition np_mean (l : list Qc) : Qc := np_sum l / Qc_of_Z (Z.of_nat (length l)).

Definition np_std (np_sqrt : Qc → Qc) (l : list Qc) : Qc :=
  let m := np_mean l in
  np_sqrt (np_mean ((λ v, (v - m) * (v - m)) <$> l)).

(** [scipy.integrate.trapezoid(y, x)] and [np.trapz(y, x)]:
    [sum(diff(x) * (y[1:] + y[:-1]) / 2)]. *)
Definition trapezoid (y : ndarray) (x : list Qc) : outcome Qc :=
  let d := np_diff x in
  match y with
  | Scalar _ =>
    Raise (Exn IndexError "too many indices for array: array is 0-dimensional")
  | Arr l =>
    let s := zip_with Qcplus (slice_tail l) (slice_init l) in
    p ← np_broadcast Qcmult d s;
    Return (np_sum ((λ v, v / 2) <$> p))
  end.

(** [a[i]] for an index [0 <= i] *)
Definition getitem (l : list Qc) (i : Z) : outcome Qc :=
  match l !! Z.to_nat i with
  | Some v => Return v
  | None => Raise (Exn IndexError "index out of bounds")
  end.

(** ** The external collaborators

    The computer algebra system (sympy): [sympify] parses a string (or
    passes a sympy object through), [symbols] builds the symbol of a name,
    [subs] evaluates an expression at a number, [lambdify1] is
    [lambdify(Symbol('x'), expr, 'numpy')], [lambdify2] is
    [lambdify([t, w], expr, 'numpy')] and [str_float] prints a number.
    Each of them may raise. *)

Inductive pyobj (expr symbol : Type) :=
  | PyStr (s : string)
  | PyExpr (e : expr)
  | PySym (v : symbol).
Arguments PyStr {expr symbol} s.
Arguments PyExpr {expr symbol} e.
Arguments PySym {expr symbol} v.

Class CAS := {
  expr : Type;
  symbol : Type;
  sympify : pyobj expr symbol → outcome expr;
  symbols : pyobj expr symbol → outcome symbol;
  subs : expr → symbol → Qc → outcome Qc;
  lambdify1 : expr → outcome (list Qc → outcome ndarray);
  lambdify2 : expr → outcome (list Qc → list Qc → outcome ndarray);
  str_float : Qc → string;
}.

(** numpy's square root and its random source: [random_normal loc scale
    paths steps] is [np.random.normal(loc, scale, (paths, steps))], one
    realization of the increments. *)
Class NumpyRandom := {
  np_sqrt : Qc → Qc;
  random_normal : Qc → Qc → Z → Z → outcome (list (list Qc));
}.

(** Python's [eval] of a function string at [x], and scipy's adaptive
    quadrature and Simpson rule. *)
Class Scipy := {
  py_eval : string → Qc → outcome Qc;
  quad : (Qc → outcome Qc) → Qc → Qc → outcome (Qc * Qc);
  simpson : list Qc → list Qc → outcome Qc;
}.

(** * [src/server.py]: the handlers of [CalcToolsServer] *)

Section Handlers.
Context `{CAS} `{NumpyRandom}.

(** The body of [_handle_riemann]; its local [n = 1000], the number of
    sample points, is a parameter here, so that the rule can also be read
    on other partitions. *)
Definition riemann_with_points (n : Z) (function : string) (start end_ : Qc)
    (method : string) : outcome response :=
  try_except
    (expr ← sympify (PyStr function);
     f ← lambdify1 expr;
     x ← np_linspace start end_ n;
     dx ← py_truediv (end_ - start) (Qc_of_Z (n - 1));
     result ←
       (if decide (method = "left") then
          y ← f (slice_init x); Return (nd_sum (nd_scale y dx))
        else if decide (method = "right") then
          y ← f (slice_tail x); Return (nd_sum (nd_scale y dx))
        else if decide (method = "midpoint") then
          let x_mid := (λ v, v / 2) <$> zip_with Qcplus (slice_init x) (slice_tail x) in
          y ← f x_mid; Return (nd_sum (nd_scale y dx))
        else
          y ← f x; trapezoid y x);
     Return ({[ "result" := VFloat result;
                "method" := VStr method;
                "interval" := VList [start; end_] ]} : response))
    (λ e, Return (error_response (str_exn e))).

Definition _handle_riemann (function : string) (start end_ : Qc)
    (method : string) : outcome response :=
  let n := 1000%Z in
  riemann_with_points n function start end_ method.

Definition _handle_darboux (function : string) (start end_ : Qc)
    (partitions : Z) : outcome response :=
  try_except
    (expr ← sympify (PyStr function);
     f ← lambdify1 expr;
     x ← np_linspace start end_ (partitions + 1);
     dx ← py_truediv (end_ - start) (Qc_of_Z partitions);
     y ← f x;
     y0 ← nd_init y;
     y1 ← nd_tail y;
     let upper_sum := np_sum ((λ v, v * dx) <$> zip_with Qc_max y0 y1) in
     y0 ← nd_init y;
     y1 ← nd_tail y;
     let lower_sum := np_sum ((λ v, v * dx) <$> zip_with Qc_min y0 y1) in
     Return ({[ "upper_sum" := VFloat upper_sum;
                "lower_sum" := VFloat lower_sum;
                "integral_value" := VFloat ((upper_sum + lower_sum) / 2);
                "error_bound" := VFloat ((upper_sum - lower_sum) / 2) ]} : response))
    (λ e, Return (error_response (str_exn e))).

Definition _handle_riemann_stieltjes (function integrator : string)
    (start end_ : Qc) (partitions : Z) : outcome response :=
  try_except
    (f_expr ← sympify (PyStr function);
     g_expr ← sympify (PyStr integrator);
     f ← lambdify1 f_expr;
     g ← lambdify1 g_expr;
     x ← np_linspace start end_ (partitions + 1);
     f_vals ← f x;
     g_vals ← g x;
     dg ← nd_diff g_vals;
     f1 ← nd_tail f_vals;
     f0 ← nd_init f_vals;
     let f_midpoints := (λ v, v / 2) <$> zip_with Qcplus f1 f0 in
     p ← np_broadcast Qcmult f_midpoints dg;
     let result := np_sum p in
     Return ({[ "result" := VFloat result;
                "partitions" := VInt partitions ]} : response))
    (λ e, Return (error_response (str_exn e))).

(** [np.sum((y_values >= level) & (y_values < next_level))] *)
Definition in_band (level next_level y : Qc) : bool :=
  bool_decide (level ≤ y) && bool_decide (y < next_level).

Definition band_count (y_values : ndarray) (level next_level : Qc) : Z :=
  match y_values with
  | Scalar c => if in_band level next_level c then 1 else 0
  | Arr l => Z.of_nat (length (filter (λ y, in_band level next_level y = true) l))
  end.

Definition _handle_lebesgue (function : string) (start end_ : Qc)
    (levels : Z) : outcome response :=
  try_except
    (expr ← sympify (PyStr function);
     f ← lambdify1 expr;
     x_points ← np_linspace start end_ 1000;
     y_values ← f x_points;
     y_min ← nd_min y_values;
     y_max ← nd_max y_values;
     level_values ← np_linspace y_min y_max levels;
     dx ← py_truediv (end_ - start) (Qc_of_Z 999);
     result ← for_each (range (levels - 1)) 0 (λ i result,
       level ← getitem level_values i;
       next_level ← getitem level_values (i + 1);
       let measure := Qc_of_Z (band_count y_values level next_level) * dx in
       Return (result + level * measure));
     Return ({[ "result" := VFloat result;
                "levels_used" := VInt levels;
                "domain" := VList [start; end_] ]} : response))
    (λ e, Return (error_response (str_exn e))).

(** [np.zeros(n)] *)
Definition np_zeros (n : Z) : outcome (list Qc) :=
  if decide (n < 0)%Z then Raise (Exn ValueError "negative dimensions are not allowed")
  else Return (replicate (Z.to_nat n) 0).

(** [m[i, :]] *)
Definition getrow (m : list (list Qc)) (i : Z) : outcome (list Qc) :=
  match m !! Z.to_nat i with
  | Some r => Return r
  | None => Raise (Exn IndexError "index out of bounds")
  end.

Definition _handle_ito (function : string) (start_time end_time : Qc)
    (paths steps : Z) : outcome response :=
  try_except
    (dt ← py_truediv (end_time - start_time) (Qc_of_Z steps);
     times ← np_linspace start_time end_time (steps + 1);
     dW ← random_normal 0 (np_sqrt dt) paths steps;
     let W := np_cumsum <$> dW in
     let W := (λ row, 0 :: row) <$> W in
     expr ← sympify (PyStr function);
     f ← lambdify2 expr;
     integral_values ← np_zeros paths;
     integral_values ← for_each (range paths) integral_values (λ i integral_values,
       W_i ← getrow W i;
       integrand ← f (slice_init times) (slice_init W_i);
       dW_i ← getrow dW i;
       p ← nd_broadcast Qcmult integrand dW_i;
       Return (<[Z.to_nat i := np_sum p]> integral_values));
     let mean_value := np_mean integral_values in
     let std_value := np_std np_sqrt integral_values in
     let z := Q2Qc (196 # 100) in
     Return ({[ "mean" := VFloat mean_value;
                "std_dev" := VFloat std_value;
                "confidence_interval" :=
                  VList [mean_value - z * std_value / np_sqrt (Qc_of_Z paths);
                         mean_value + z * std_value / np_sqrt (Qc_of_Z paths)];
                "paths" := VInt paths;
                "steps" := VInt steps ]} : response))
    (λ e, Return (error_response (str_exn e))).

End Handlers.

(** * [src/mcp_calc_tools/core/calculus.py] *)

(** What Python's [sum] returns: the int [0] on an empty iterable, a sympy
    number otherwise. *)
Inductive pynum :=
  | PInt (z : Z)
  | PFloat (q : Qc).

Definition py_sum (l : list Qc) : pynum :=
  match l with
  | [] => PInt 0
  | _ => PFloat (foldl Qcplus 0 l)
  end.

Definition pynum_value (v : pynum) : Qc :=
  match v with
  | PInt z => Qc_of_Z z
  | PFloat q => q
  end.

Section Calculus.
Context `{CAS}.

Definition str_pynum (v : pynum) : string :=
  match v with
  | PInt z => pretty z
  | PFloat q => str_float q
  end.

Definition recursion_error : exn :=
  Exn RecursionError "maximum recursion depth exceeded".

(** [integrate] and [limit] call the name they define.  [depth] is the
    number of nested calls the interpreter still allows: the call that
    exceeds it raises [RecursionError] where it is made.  Both functions
    return a [str] on every path, so [str(integral)] is [integral]. *)
Fixpoint integrate (depth : nat) (expression variable : pyobj expr symbol)
  : outcome string :=
  try_except
    (expression ← sympify expression;
     variable ← symbols variable;
     integral ←
       match depth with
       | O => Raise recursion_error
       | S d => integrate d (PyExpr expression) (PySym variable)
       end;
     Return integral)
    (λ e, Return ("Error: " +:+ str_exn e)).

Fixpoint limit (depth : nat) (expression variable approach : pyobj expr symbol)
  : outcome string :=
  try_except
    (expression ← sympify expression;
     variable ← symbols variable;
     limit_value ←
       match depth with
       | O => Raise recursion_error
       | S d => limit d (PyExpr expression) (PySym variable) approach
       end;
     Return limit_value)
    (λ e, Return ("Error: " +:+ str_exn e)).

Definition invalid_method : string :=
  "Error: Invalid method. Choose 'left', 'right', 'midpoint', or 'trapezoid'.".

Definition riemann_sum (expression variable : string) (a b : Qc) (n : Z)
    (method : string) : outcome string :=
  try_except
    (expression ← sympify (PyStr expression);
     variable ← symbols (PyStr variable);
     delta_x ← py_truediv (b - a) (Qc_of_Z n);
     if decide (method = "left") then
       let x_values := (λ i, a + Qc_of_Z i * delta_x) <$> range n in
       terms ← mapM (λ x, v ← subs expression variable x; Return (v * delta_x)) x_values;
       Return (str_pynum (py_sum terms))
     else if decide (method = "right") then
       let x_values := (λ i, a + Qc_of_Z i * delta_x) <$> range2 1 (n + 1) in
       terms ← mapM (λ x, v ← subs expression variable x; Return (v * delta_x)) x_values;
       Return (str_pynum (py_sum terms))
     else if decide (method = "midpoint") then
       let x_values := (λ i, a + (Qc_of_Z i + Q2Qc (1 # 2)) * delta_x) <$> range n in
       terms ← mapM (λ x, v ← subs expression variable x; Return (v * delta_x)) x_values;
       Return (str_pynum (py_sum terms))
     else if decide (method = "trapezoid") then
       let x_values := (λ i, a + Qc_of_Z i * delta_x) <$> range (n + 1) in
       x0 ← getitem x_values 0;
       y0 ← subs expression variable x0;
       inner ← mapM (subs expression variable)
                 (take (Z.to_nat (n - 1)) (drop 1 x_values));
       xn ← getitem x_values n;
       yn ← subs expression variable xn;
       Return (str_pynum
                 (PFloat (delta_x / 2 * (y0 + 2 * pynum_value (py_sum inner) + yn))))
     else Return invalid_method)
    (λ e, Return ("Error: " +:+ str_exn e)).

(** The sum [darboux_sum] prints, for [pick] one of [max] and [min]. *)
Definition darboux_terms (pick : Qc → Qc → Qc) (expression : expr)
    (variable : symbol) (a delta_x : Qc) (n : Z) : outcome (list Qc) :=
  let subintervals :=
    (λ i, (a + Qc_of_Z i * delta_x, a + (Qc_of_Z i + 1) * delta_x)) <$> range n in
  mapM (λ iv : Qc * Qc,
          lo ← subs expression variable iv.1;
          hi ← subs expression variable iv.2;
          Return (pick lo hi * delta_x)) subintervals.

Definition darboux_sum (expression variable : string) (a b : Qc) (n : Z)
    (type : string) : outcome string :=
  try_except
    (expression ← sympify (PyStr expression);
     variable ← symbols (PyStr variable);
     delta_x ← py_truediv (b - a) (Qc_of_Z n);
     if decide (type = "upper") then
       terms ← darboux_terms Qc_max expression variable a delta_x n;
       Return (str_pynum (py_sum terms))
     else if decide (type = "lower") then
       terms ← darboux_terms Qc_min expression variable a delta_x n;
       Return (str_pynum (py_sum terms))
     else Return "Error: Invalid type. Choose 'upper' or 'lower'.")
    (λ e, Return ("Error: " +:+ str_exn e)).

Definition stieltjes_terms (expression integrator : expr) (variable : symbol)
    (delta_x : Qc) (x_values : list Qc) : outcome (list Qc) :=
  mapM (λ x, v ← subs expression variable x;
             g ← subs integrator variable x;
             Return (v * g * delta_x)) x_values.

Definition riemann_stieltjes_sum (expression variable integrator : string)
    (a b : Qc) (n : Z) (method : string) : outcome string :=
  try_except
    (expression ← sympify (PyStr expression);
     variable ← symbols (PyStr variable);
     integrator ← sympify (PyStr integrator);
     delta_x ← py_truediv (b - a) (Qc_of_Z n);
     if decide (method = "left") then
       let x_values := (λ i, a + Qc_of_Z i * delta_x) <$> range n in
       terms ← stieltjes_terms expression integrator variable delta_x x_values;
       Return (str_pynum (py_sum terms))
     else if decide (method = "right") then
       let x_values := (λ i, a + Qc_of_Z i * delta_x) <$> range2 1 (n + 1) in
       terms ← stieltjes_terms expression integrator variable delta_x x_values;
       Return (str_pynum (py_sum terms))
     else if decide (method = "midpoint") then
       let x_values := (λ i, a + (Qc_of_Z i + Q2Qc (1 # 2)) * delta_x) <$> range n in
       terms ← stieltjes_terms expression integrator variable delta_x x_values;
       Return (str_pynum (py_sum terms))
     else Return "Error: Invalid method. Choose 'left', 'right', or 'midpoint'.")
    (λ e, Return ("Error: " +:+ str_exn e)).

End Calculus.

(** * [src/mcp_calc_tools/server/routes/calculus_routes.py]

    The route puts what the core function returned, result or error
    string, under the key [result]. *)

Module calculus_routes.
Section Routes.
Context `{CAS}.

Definition symbolic_integral (depth : nat) (expression variable : string)
  : outcome response :=
  result ← integrate depth (PyStr expression) (PyStr variable);
  Return ({[ "result" := VStr result ]} : response).

End Routes.
End calculus_routes.

(** * [src/mcp_calc_tools/server/server.py]: [linear_regression]

    The tool has no [try]: its [raise] leaves the function. *)

Definition linear_regression (x_values y_values : list Qc) : outcome response :=
  if decide (length x_values ≠ length y_values) then
    Raise (Exn ValueError "Input arrays must be the same length")
  else
    let x := x_values in
    let y := y_values in
    let n := Qc_of_Z (Z.of_nat (length x)) in
    let slope :=
      (n * np_sum (zip_with Qcmult x y) - np_sum x * np_sum y)
      / (n * np_sum ((λ v, v * v) <$> x) - np_sum x * np_sum x) in
    let intercept := (np_sum y - slope * np_sum x) / n in
    let y_pred := (λ v, slope * v + intercept) <$> x in
    let r_squared :=
      1 - np_sum ((λ v, v * v) <$> zip_with Qcminus y y_pred)
          / np_sum ((λ v, (v - np_mean y) * (v - np_mean y)) <$> y) in
    Return ({[ "slope" := VFloat slope;
               "intercept" := VFloat intercept;
               "r_squared" := VFloat r_squared ]} : response).

(** * [src/mcp_calc_tools/server/advanced_calculus.py] *)

Section Advanced.
Context `{Scipy}.

Definition numerical_integration_methods (function : string)
    (lower_bound upper_bound : Qc) (method : string) (points : Z)
  : outcome response :=
  try_except
    (let eval_func := py_eval function in
     if decide (method = "quad") then
       '(result, error) ← quad eval_func lower_bound upper_bound;
       Return ({[ "result" := VFloat result;
                  "error" := VFloat error;
                  "method" := VStr "scipy.quad" ]} : response)
     else if decide (method = "trapezoid") then
       x ← np_linspace lower_bound upper_bound points;
       y ← mapM eval_func x;
       result ← trapezoid (Arr y) x;
       coarse ← trapezoid (Arr (slice_even y)) (slice_even x);
       let error := Qc_abs (result - coarse) in
       Return ({[ "result" := VFloat result;
                  "error" := VFloat error;
                  "method" := VStr "trapezoid" ]} : response)
     else if decide (method = "simpson") then
       x ← np_linspace lower_bound upper_bound points;
       y ← mapM eval_func x;
       result ← simpson y x;
       coarse ← simpson (slice_even y) (slice_even x);
       let error := Qc_abs (result - coarse) in
       Return ({[ "result" := VFloat result;
                  "error" := VFloat error;
                  "method" := VStr "simpson" ]} : response)
     else if decide (method = "midpoint") then
       dx ← py_truediv (upper_bound - lower_bound) (Qc_of_Z points);
       x ← np_linspace (lower_bound + dx / 2) (upper_bound - dx / 2) points;
       y ← mapM eval_func x;
       let result := np_sum y * dx in
       let error := Qc_abs (result - np_sum (slice_even y) * dx * 2) in
       Return ({[ "result" := VFloat result;
                  "error" := VFloat error;
                  "method" := VStr "midpoint" ]} : response)
     else Return (error_response ("Unknown method: " +:+ method)))
    (λ e, Return (error_response ("Error during integration: " +:+ str_exn e))).

End Advanced.

(** * A small computer algebra system

    An executable instance of the collaborators, for running the
    operations on concrete inputs.  Expressions are polynomial terms; the
    parser is a table of the strings used below, and everything else is
    rejected the way sympy rejects a malformed string.  [symbols] takes a
    name and rejects an object that is not a string, which it would
    iterate over.  An expression without variable lambdifies to a function
    that returns a scalar, as with sympy.  Numbers are printed as
    fractions. *)

Module MiniCAS.

Inductive term :=
  | Var (name : string)
  | Num (q : Qc)
  | Add (a b : term)
  | Mul (a b : term)
  | Pow (a : term) (n : nat).

Fixpoint eval (env : string → option Qc) (e : term) : outcome Qc :=
  match e with
  | Var name =>
    match env name with
    | Some v => Return v
    | None => Raise (Exn NameError ("name '" +:+ name +:+ "' is not defined"))
    end
  | Num q => Return q
  | Add a b => x ← eval env a; y ← eval env b; Return (x + y)
  | Mul a b => x ← eval env a; y ← eval env b; Return (x * y)
  | Pow a n => x ← eval env a; Return (Qcpower x n)
  end.

Fixpoint is_number (e : term) : bool :=
  match e with
  | Var _ => false
  | Num _ => true
  | Add a b | Mul a b => is_number a && is_number b
  | Pow a _ => is_number a
  end.

Definition parse (s : string) : outcome term :=
  if decide (s = "x") then Return (Var "x")
  else if decide (s = "x**2") then Return (Pow (Var "x") 2)
  else if decide (s = "x**3") then Return (Pow (Var "x") 3)
  else if decide (s = "1") then Return (Num 1)
  else if decide (s = "5") then Return (Num (Qc_of_Z 5))
  else if decide (s = "w") then Return (Var "w")
  else if decide (s = "t*w") then Return (Mul (Var "t") (Var "w"))
  else Raise (Exn SympifyError ("could not parse '" +:+ s +:+ "'")).

Definition bind1 (name : string) (v : Qc) : string → option Qc :=
  λ n, if decide (n = name) then Some v else None.
Definition bind2 (n1 : string) (v1 : Qc) (n2 : string) (v2 : Qc)
  : string → option Qc :=
  λ n, if decide (n = n1) then Some v1 else if decide (n = n2) then Some v2 else None.

#[export] Instance cas : CAS := {|
  expr := term;
  symbol := string;
  sympify o :=
    match o with
    | PyStr s => parse s
    | PyExpr e => Return e
    | PySym v => Return (Var v)
    end;
  symbols o :=
    match o with
    | PyStr s =>
      if decide (s = EmptyString) then Raise (Exn ValueError "no symbols given")
      else Return s
    | _ => Raise (Exn TypeError "object is not iterable")
    end;
  subs e v q := eval (bind1 v q) e;
  lambdify1 e := Return (λ xs,
    if is_number e then Scalar <$> eval (λ _, None) e
    else Arr <$> mapM (λ x, eval (bind1 "x" x) e) xs);
  lambdify2 e := Return (λ ts ws,
    if is_number e then Scalar <$> eval (λ _, None) e
    else Arr <$> mapM (λ p, eval (bind2 "t" p.1 "w" p.2) e) (zip ts ws));
  str_float q := pretty (Qnum q) +:+ "/" +:+ pretty (Z.pos (Qden q));
|}.

(** A fixed realization of the increments: [+scale, -scale, +scale, ...]
    along every path; the square root is exact on squares of rationals
    and rounds the numerator and the denominator down otherwise. *)
Definition sqrt_floor (q : Qc) : Qc :=
  Q2Qc (Z.sqrt (Qnum q) # Pos.sqrt (Qden q)).

Definition alternating (scale : Qc) (n : nat) : list Qc :=
  (λ i, if Nat.even i then scale else - scale) <$> seq 0 n.

#[export] Instance rng : NumpyRandom := {|
  np_sqrt := sqrt_floor;
  random_normal loc scale paths steps :=
    if decide (paths < 0 ∨ steps < 0)%Z
    then Raise (Exn ValueError "negative dimensions are not allowed")
    else Return (replicate (Z.to_nat paths)
                   ((λ v, loc + v) <$> alternating scale (Z.to_nat steps)));
|}.

(** [eval] of the function strings of the table, the trapezoid rule for
    [quad] (with error estimate 0) and for [simpson]. *)
#[export] Instance scipy : Scipy := {|
  py_eval function x := e ← parse function; eval (bind1 "x" x) e;
  quad f a b :=
    ya ← f a; yb ← f b; Return ((b - a) * (ya + yb) / 2, 0);
  simpson y x := trapezoid (Arr y) x;
|}.

End MiniCAS.

(** * Reading an answer *)

(** The entry of the returned dictionary under a key, if the operation
    returned one. *)
Definition result_of (r : outcome response) (key : string) : option pyval :=
  match r with
  | Return d => d !! key
  | Raise _ => None
  end.

(** The number under a key, as a plain fraction. *)
Definition result_float (r : outcome response) (key : string) : option Q :=
  match result_of r key with
  | Some (VFloat q) => Some (this q)
  | _ => None
  end.

(** * The sums, written over the subinterval index

    The uniform partition of [start, end] into [n] subintervals has the
    points [x_i = start + i (end - start) / n]; the sums below are finite
    sums over [i = 0 .. n-1]. *)

Definition partition_point (start end_ : Qc) (n : Z) (i : Z) : Qc :=
  start + Qc_of_Z i * ((end_ - start) / Qc_of_Z n).

Definition sum_upto (n : Z) (term : Z → Qc) : Qc := np_sum (term <$> range n).

(** The Riemann-Stieltjes sum in the words of the specification:
    [f] at the midpoint of each subinterval times the increment of [g]. *)
Definition stieltjes_midpoint_sum (f g : Qc → Qc) (start end_ : Qc) (n : Z) : Qc :=
  let x := partition_point start end_ n in
  sum_upto n (λ i, f ((x i + x (i + 1)%Z) / 2) * (g (x (i + 1)%Z) - g (x i))).

(** The same with the mean of [f] at the two ends of each subinterval in
    place of [f] at its midpoint. *)
Definition stieltjes_endpoint_mean_sum (f g : Qc → Qc) (start end_ : Qc) (n : Z) : Qc :=
  let x := partition_point start end_ n in
  sum_upto n (λ i, (f (x (i + 1)%Z) + f (x i)) / 2 * (g (x (i + 1)%Z) - g (x i))).

(** The midpoint Riemann sum of the product [f g]. *)
Definition product_midpoint_sum (f g : Qc → Qc) (a b : Qc) (n : Z) : Qc :=
  let delta_x := (b - a) / Qc_of_Z n in
  sum_upto n (λ i,
    let m := a + (Qc_of_Z i + Q2Qc (1 # 2)) * delta_x in
    f m * g m * delta_x).

(** One path of the discretized Wiener process: [wiener row i] is
    [W_i], the sum of the increments before step [i], and
    [increment row i] is [dW_i]. *)
Definition wiener (row : list Qc) (i : Z) : Qc := np_sum (take (Z.to_nat i) row).
Definition increment (row : list Qc) (i : Z) : Qc := nth (Z.to_nat i) row 0.

(** The Ito sum of one path: [f] at the left end [(t_i, W_i)] of each
    step times the increment [dW_i] over that step. *)
Definition ito_path_sum (f : Qc → Qc → Qc) (start_time end_time : Qc)
    (steps : Z) (row : list Qc) : Qc :=
  sum_upto steps (λ i,
    f (partition_point start_time end_time steps i) (wiener row i)
    * increment row i).

(** The values of what a lambdified expression returned, a scalar being
    broadcast to the length of the argument. *)
Definition nd_values (y : ndarray) (n : nat) : list Qc :=
  match y with
  | Scalar c => replicate n c
  | Arr l => l
  end.

(** The samples of a constant integrand [c]: the scalar [c] when the
    expression has no variable, or a non empty array of [c]s. *)
Definition constant_samples (c : Qc) (y : ndarray) : Prop :=
  match y with
  | Scalar v => v = c
  | Arr l => l ≠ [] ∧ Forall (λ v, v = c) l
  end.

(** * The Riemann rules, written over the subinterval index

    The rules over the uniform partition of [start, end] into [n]
    subintervals of width [(end - start) / n]: the integrand at the left
    end, at the right end and at the midpoint of each subinterval, and the
    mean of its values at the two ends. *)

Definition left_riemann_sum (f : Qc → Qc) (start end_ : Qc) (n : Z) : Qc :=
  let x := partition_point start end_ n in
  sum_upto n (λ i, f (x i) * ((end_ - start) / Qc_of_Z n)).

Definition right_riemann_sum (f : Qc → Qc) (start end_ : Qc) (n : Z) : Qc :=
  let x := partition_point start end_ n in
  sum_upto n (λ i, f (x (i + 1)%Z) * ((end_ - start) / Qc_of_Z n)).

Definition midpoint_riemann_sum (f : Qc → Qc) (start end_ : Qc) (n : Z) : Qc :=
  let delta_x := (end_ - start) / Qc_of_Z n in
  sum_upto n (λ i, f (start + (Qc_of_Z i + Q2Qc (1 # 2)) * delta_x) * delta_x).

Definition trapezoid_riemann_sum (f : Qc → Qc) (start end_ : Qc) (n : Z) : Qc :=
  let x := partition_point start end_ n in
  sum_upto n (λ i, (f (x i) + f (x (i + 1)%Z)) / 2 * ((end_ - start) / Qc_of_Z n)).

(** * [src/mcp_calc_tools/core/calculus.py]: [lebesgue_integral] and
      [ito_integral]

    [ito_integral] takes [sqrt(delta_t)], sympy's square root of a number,
    as the increment of every step. *)

Class SympySqrt := {
  sym_sqrt : Qc → Qc;
}.

Section CalculusIntegrals.
Context `{CAS} `{SympySqrt}.

Definition lebesgue_integral (expression variable : string) (a b : Qc) (n : Z)
  : outcome string :=
  try_except
    (expression ← sympify (PyStr expression);
     variable ← symbols (PyStr variable);
     delta_x ← py_truediv (b - a) (Qc_of_Z n);
     let x_values := (λ i, a + Qc_of_Z i * delta_x) <$> range n in
     terms ← mapM (λ x, v ← subs expression variable x; Return (v * delta_x)) x_values;
     Return (str_pynum (py_sum terms)))
    (λ e, Return ("Error: " +:+ str_exn e)).

Definition ito_integral (expression variable : string) (a b : Qc) (n : Z)
  : outcome string :=
  try_except
    (expression ← sympify (PyStr expression);
     variable ← symbols (PyStr variable);
     delta_t ← py_truediv (b - a) (Qc_of_Z n);
     ito_sum ← for_each (range n) (PInt 0) (λ i ito_sum,
       let t := a + Qc_of_Z i * delta_t in
       let dW := sym_sqrt delta_t in
       v ← subs expression variable t;
       Return (PFloat (pynum_value ito_sum + v * dW)));
     Return (str_pynum ito_sum))
    (λ e, Return ("Error: " +:+ str_exn e)).

End CalculusIntegrals.

(** An executable square root for [ito_integral]: exact on squares of
    rationals. *)
Definition exact_sqrt : SympySqrt := {| sym_sqrt := MiniCAS.sqrt_floor |}.

(** * [src/mcp_calc_tools/server/server.py]: [numeric_derivative]

    The central difference quotient.  The tool has no [try].  The
    quotient is Python's division of floats, which is what the tool
    executes when the function string is arithmetic in [x]. *)

Definition numeric_derivative `{Scipy} (function : string) (x h : Qc)
  : outcome Qc :=
  let eval_func := py_eval function in
  forward ← eval_func (x + h);
  backward ← eval_func (x - h);
  py_truediv (forward - backward) (2 * h).

(** * Option pricing: [black_scholes] and [greeks]

    The Black-Scholes formulas are written twice: in the tools of
    [src/mcp_calc_tools/server/server.py] and in
    [src/mcp_calc_tools/core/financial.py], which the routes of
    [src/mcp_calc_tools/server/routes/financial_routes.py] call.

    The collaborators: numpy's logarithm and exponential (its square root
    is [np_sqrt]) and the distribution function and the density of
    scipy's [norm]. *)

Class ScipyStats := {
  np_log : Qc → Qc;
  np_exp : Qc → Qc;
  norm_cdf : Qc → Qc;
  norm_pdf : Qc → Qc;
}.

(** [str.lower], on ASCII letters. *)
Definition lower_ascii (c : Ascii.ascii) : Ascii.ascii :=
  let n := Ascii.nat_of_ascii c in
  if (65 <=? n)%nat && (n <=? 90)%nat then Ascii.ascii_of_nat (n + 32) else c.

Fixpoint lower (s : string) : string :=
  match s with
  | EmptyString => EmptyString
  | String c s' => String (lower_ascii c) (lower s')
  end.

(** [del d[key]] *)
Definition py_del (key : string) (d : response) : outcome response :=
  match d !! key with
  | Some _ => Return (delete key d)
  | None => Raise (Exn (OtherException "KeyError") ("'" +:+ key +:+ "'"))
  end.

Section Finance.
Context `{NumpyRandom} `{ScipyStats}.

(** The tools of [server/server.py].  [S / K] divides Python floats; the
    other quotients have a numpy operand.  [greeks] calls the tool
    [black_scholes] by its name: the registering decorator is taken to
    hand back the function it decorates. *)
Definition black_scholes (S K T r sigma : Qc) (option_type : string)
  : outcome response :=
  q ← py_truediv S K;
  let d1 := (np_log q + (r + Q2Qc (1 # 2) * sigma ^ 2) * T) / (sigma * np_sqrt T) in
  let d2 := d1 - sigma * np_sqrt T in
  '(price, delta, gamma, theta, vega, rho) ←
    (if decide (lower option_type = "call") then
       Return (S * norm_cdf d1 - K * np_exp (- r * T) * norm_cdf d2,
               norm_cdf d1,
               norm_pdf d1 / (S * sigma * np_sqrt T),
               - (S * sigma * norm_pdf d1) / (2 * np_sqrt T)
               - r * K * np_exp (- r * T) * norm_cdf d2,
               S * np_sqrt T * norm_pdf d1,
               K * T * np_exp (- r * T) * norm_cdf d2)
     else if decide (lower option_type = "put") then
       Return (K * np_exp (- r * T) * norm_cdf (- d2) - S * norm_cdf (- d1),
               norm_cdf d1 - 1,
               norm_pdf d1 / (S * sigma * np_sqrt T),
               - (S * sigma * norm_pdf d1) / (2 * np_sqrt T)
               + r * K * np_exp (- r * T) * norm_cdf (- d2),
               S * np_sqrt T * norm_pdf d1,
               - K * T * np_exp (- r * T) * norm_cdf (- d2))
     else Raise (Exn ValueError "Option type must be 'call' or 'put'"));
  Return ({[ "price" := VFloat price;
             "delta" := VFloat delta;
             "gamma" := VFloat gamma;
             "theta" := VFloat theta;
             "vega" := VFloat vega;
             "rho" := VFloat rho ]} : response).

Definition greeks (S K T r sigma : Qc) (option_type : string)
  : outcome response :=
  result ← black_scholes S K T r sigma option_type;
  result ← py_del "price" result;
  Return result.

End Finance.

(** [core/financial.py].  [black_scholes] returns the price alone and
    compares the option type as it is given.  [greeks] computes its five
    numbers into local variables and ends without a [return]: the call
    evaluates to [None]. *)
Module financial.
Section Financial.
Context `{NumpyRandom} `{ScipyStats}.

Definition black_scholes (S K T r sigma : Qc) (option_type : string)
  : outcome Qc :=
  q ← py_truediv S K;
  let d1 := (np_log q + (r + Q2Qc (1 # 2) * sigma ^ 2) * T) / (sigma * np_sqrt T) in
  let d2 := d1 - sigma * np_sqrt T in
  price ←
    (if decide (option_type = "call") then
       Return (S * norm_cdf d1 - K * np_exp (- r * T) * norm_cdf d2)
     else if decide (option_type = "put") then
       Return (K * np_exp (- r * T) * norm_cdf (- d2) - S * norm_cdf (- d1))
     else Raise (Exn ValueError "Invalid option type. Must be 'call' or 'put'."));
  Return price.

Definition greeks (S K T r sigma : Qc) (option_type : string)
  : outcome (option response) :=
  q ← py_truediv S K;
  let d1 := (np_log q + (r + Q2Qc (1 # 2) * sigma ^ 2) * T) / (sigma * np_sqrt T) in
  let d2 := d1 - sigma * np_sqrt T in
  let locals :=
    if decide (option_type = "call") then
      Some (norm_cdf d1,
            norm_pdf d1 / (S * sigma * np_sqrt T),
            S * norm_pdf d1 * np_sqrt T,
            - S * norm_pdf d1 * sigma / (2 * np_sqrt T)
            - r * K * np_exp (- r * T) * norm_cdf d2,
            K * T * np_exp (- r * T) * norm_cdf d2)
    else if decide (option_type = "put") then
      Some (norm_cdf d1 - 1,
            norm_pdf d1 / (S * sigma * np_sqrt T),
            S * norm_pdf d1 * np_sqrt T,
            - S * norm_pdf d1 * sigma / (2 * np_sqrt T)
            + r * K * np_exp (- r * T) * norm_cdf (- d2),
            - K * T * np_exp (- r * T) * norm_cdf (- d2))
    else None in
  Return None.

End Financial.
End financial.

(** [routes/financial_routes.py] *)
Module financial_routes.
Section Routes.
Context `{NumpyRandom} `{ScipyStats}.

(** [result[key]] on what [financial.greeks] returned, and [float(v)]. *)
Definition subscript (result : option response) (key : string) : outcome pyval :=
  match result with
  | None => Raise (Exn TypeError "'NoneType' object is not subscriptable")
  | Some d =>
    match d !! key with
    | Some v => Return v
    | None => Raise (Exn (OtherException "KeyError") ("'" +:+ key +:+ "'"))
    end
  end.

Definition py_float (v : pyval) : outcome Qc :=
  match v with
  | VFloat q => Return q
  | VInt z => Return (Qc_of_Z z)
  | VStr _ => Raise (Exn ValueError "could not convert string to float")
  | VList _ =>
    Raise (Exn TypeError "float() argument must be a string or a real number")
  end.

Definition black_scholes (S K T r sigma : Qc) (option_type : string)
  : outcome response :=
  result ← financial.black_scholes S K T r sigma option_type;
  Return ({[ "result" := VFloat result ]} : response).

Definition greeks (S K T r sigma : Qc) (option_type : string)
  : outcome response :=
  result ← financial.greeks S K T r sigma option_type;
  delta ← subscript result "delta" ≫= py_float;
  gamma ← subscript result "gamma" ≫= py_float;
  theta ← subscript result "theta" ≫= py_float;
  vega ← subscript result "vega" ≫= py_float;
  rho ← subscript result "rho" ≫= py_float;
  Return ({[ "delta" := VFloat delta;
             "gamma" := VFloat gamma;
             "theta" := VFloat theta;
             "vega" := VFloat vega;
             "rho" := VFloat rho ]} : response).

End Routes.
End financial_routes.

(** First-order stand-ins for the collaborators of the pricing formulas,
    for running them on concrete inputs: the logarithm around 1, the
    exponential and the normal distribution function around 0. *)
Module MiniStats.

#[export] Instance stats : ScipyStats := {|
  np_log q := q - 1;
  np_exp q := 1 + q;
  norm_cdf z := (1 + Q2Qc (4 # 5) * z) / 2;
  norm_pdf z := Q2Qc (2 # 5);
|}.

End MiniStats.

(** * [src/mcp_calc_tools/server/advanced_calculus.py]:
      [symbolic_derivative]

    The collaborators: [sp.Symbol], [sp.diff] and [str] of an
    expression. *)

Class SympyDiff `{CAS} := {
  Symbol : string → outcome symbol;
  diff : expr → symbol → outcome expr;
  str_expr : expr → string;
}.

Section AdvancedSymbolic.
Context `{SympyDiff}.

Definition symbolic_derivative (expression variable : string) (order : Z)
  : outcome string :=
  try_except
    (x ← Symbol variable;
     expr ← sympify (PyStr expression);
     let result := expr in
     result ← for_each (range order) result (λ _ result, diff result x);
     Return (str_expr result))
    (λ e, Return ("Error computing symbolic derivative: " +:+ str_exn e)).

End AdvancedSymbolic.

(** The derivative of order [k], by repeated differentiation. *)
Fixpoint derivative_of_order `{SympyDiff} (x : symbol) (k : nat) (e : expr)
  : outcome expr :=
  match k with
  | O => Return e
  | S k' => d ← diff e x; derivative_of_order x k' d
  end.

(** Differentiation and printing of the polynomial terms of [MiniCAS].
    Products with 0 and 1 and sums with 0 are simplified. *)
Module MiniDiff.
Import MiniCAS.

Definition add (a b : term) : term :=
  match a, b with
  | Num p, Num q => Num (p + q)
  | Num p, _ => if decide (p = 0) then b else Add a b
  | _, Num q => if decide (q = 0) then a else Add a b
  | _, _ => Add a b
  end.

Definition mul (a b : term) : term :=
  match a, b with
  | Num p, Num q => Num (p * q)
  | Num p, _ => if decide (p = 0) then Num 0 else if decide (p = 1) then b else Mul a b
  | _, Num q => if decide (q = 0) then Num 0 else if decide (q = 1) then a else Mul a b
  | _, _ => Mul a b
  end.

Fixpoint derivative (x : string) (e : term) : term :=
  match e with
  | Var name => if decide (name = x) then Num 1 else Num 0
  | Num _ => Num 0
  | Add a b => add (derivative x a) (derivative x b)
  | Mul a b => add (mul (derivative x a) b) (mul a (derivative x b))
  | Pow a n =>
    match n with
    | O => Num 0
    | S k => mul (mul (Num (Qc_of_Z (Z.of_nat n))) (Pow a k)) (derivative x a)
    end
  end.

Fixpoint print (e : term) : string :=
  match e with
  | Var name => name
  | Num q => str_float (CAS := cas) q
  | Add a b => print a +:+ " + " +:+ print b
  | Mul a b => print a +:+ "*" +:+ print b
  | Pow a n => print a +:+ "**" +:+ pretty n
  end.

#[export] Instance sympy_diff : SympyDiff (H := cas) := {|
  Symbol name := Return name;
  diff e x := Return (derivative x e);
  str_expr := print;
|}.

End MiniDiff.

(** * [src/mcp_calc_tools/server/server.py]: interest and
      [definite_integral]

    [py_pow] is Python's [x ** y] on floats, which may raise. *)

Class PyPow := {
  py_pow : Qc → Qc → outcome Qc;
}.

Section Interest.
Context `{PyPow}.

Definition compound_interest (principal rate time : Qc) (compounds_per_year : Z)
  : outcome Qc :=
  q ← py_truediv rate (Qc_of_Z compounds_per_year);
  growth ← py_pow (1 + q) (Qc_of_Z compounds_per_year * time);
  Return (principal * growth).

Definition present_value (future_value rate time : Qc) : outcome Qc :=
  growth ← py_pow (1 + rate) time;
  py_truediv future_value growth.

End Interest.

Definition definite_integral `{Scipy} (function : string)
    (lower_bound upper_bound : Qc) : outcome Qc :=
  let eval_func := py_eval function in
  '(result, error) ← quad eval_func lower_bound upper_bound;
  Return result.

(** Powers with an exponent that is a natural number, for running the
    interest formulas on concrete inputs. *)
Definition natural_pow : PyPow := {|
  py_pow x y :=
    if decide (Qden y = 1%positive ∧ (0 ≤ Qnum y)%Z)
    then Return (x ^ Z.to_nat (Qnum y))
    else Raise (Exn (OtherException "NotImplementedError") "exponent is not a natural number");
|}.

(** * Properties *)

(** ** The outcome monad *)

Lemma bind_Return {A B} (a : A) (k : A → outcome B) : (Return a ≫= k) = k a.
Proof. reflexivity. Qed.

Lemma bind_Raise {A B} (e : exn) (k : A → outcome B) : (Raise e ≫= k) = Raise e.
Proof. reflexivity. Qed.

Lemma bind_Return_inv {A B} (c : outcome A) (k : A → outcome B) (b : B) :
  (c ≫= k) = Return b → ∃ a, c = Return a ∧ k a = Return b.
Proof. destruct c; simpl; [eauto | discriminate]. Qed.


Lemma try_except_cases {A} (body : outcome A) (h : exn → A) :
  (∃ a, body = Return a ∧ try_except body (λ e, Return (h e)) = Return a)
  ∨ (∃ e, body = Raise e ∧ try_except body (λ e, Return (h e)) = Return (h e)).
Proof. destruct body; simpl; eauto. Qed.

Lemma try_except_Return {A} (a : A) (h : exn → outcome A) :
  try_except (Return a) h = Return a.
Proof. reflexivity. Qed.

Lemma try_except_Raise {A} (e : exn) (h : exn → outcome A) :
  try_except (Raise e) h = h e.
Proof. reflexivity. Qed.

(** Case analysis on the first computation of a sequence, without
    unfolding the numerical operations. *)
Ltac step :=
  match goal with
  | |- context [mbind _ (Return _)] => rewrite bind_Return; cbv beta
  | |- context [mbind _ (Raise _)] => rewrite bind_Raise
  | |- context [try_except (Return _) _] => rewrite try_except_Return
  | |- context [try_except (Raise _) _] => rewrite try_except_Raise; cbv beta
  | |- context [if decide ?P then _ else _] => destruct (decide P)
  | |- context [mbind _ ?c] => let E := fresh "E" in destruct c eqn:E
  end.

Lemma mapM_Return {A B} (f : A → B) (l : list A) :
  mapM (λ x, Return (f x)) l = Return (f <$> l).
Proof. induction l as [|x l IH]; simpl; [done|]. by rewrite IH. Qed.

Lemma mapM_ext_outcome {A B} (f g : A → outcome B) (l : list A) :
  (∀ x, f x = g x) → mapM f l = mapM g l.
Proof. intros E. induction l as [|x l IH]; simpl; [done|]. by rewrite E, IH. Qed.

(** ** Which operations answer on every input (C1) *)




(** ** Scheme names outside the enumerated set (C2) *)

(** The core function rejects an unknown method by name, whatever the
    other arguments: when nothing raises before the dispatch the answer is
    the "Invalid method" string, and an earlier exception is reported
    with the same prefix. *)
Lemma riemann_sum_unknown_method `{CAS} expression variable a b n method :
  method ≠ "left" → method ≠ "right" → method ≠ "midpoint" →
  method ≠ "trapezoid" →
  ∃ msg, riemann_sum expression variable a b n method = Return ("Error: " +:+ msg).
Proof.
  intros. unfold riemann_sum.
  repeat step; try contradiction; unfold invalid_method; eauto.
Qed.

Lemma numerical_integration_methods_unknown_method `{Scipy}
    function lower_bound upper_bound method points :
  method ≠ "quad" → method ≠ "trapezoid" → method ≠ "simpson" →
  method ≠ "midpoint" →
  numerical_integration_methods function lower_bound upper_bound method points
  = Return (error_response ("Unknown method: " +:+ method)).
Proof.
  intros. unfold numerical_integration_methods.
  repeat step; try contradiction; done.
Qed.

(** The handler has no such branch: a name that is none of [left],
    [right] and [midpoint] runs the trapezoid rule, and only the echoed
    name tells the two answers apart. *)
Lemma _handle_riemann_fallback `{CAS} function start end_ method key :
  method ≠ "left" → method ≠ "right" → method ≠ "midpoint" →
  key ≠ "method" →
  result_of (_handle_riemann function start end_ method) key
  = result_of (_handle_riemann function start end_ "trapezoid") key.
Proof.
  intros ? ? ? Hkey. unfold _handle_riemann, riemann_with_points.
  repeat step; try contradiction; try done. unfold result_of.
  destruct (decide (key = "result")) as [->|]; [done|].
  destruct (decide (key = "interval")) as [->|]; [done|].
  by rewrite !lookup_insert_ne by done.
Qed.

(** C2 on the handler, at the input [_handle_riemann("x**2", 0, 1,
    method="simpson")]: the answer is a success, its value is the
    trapezoid value 1996003/5988006 (about 0.3333335), it has no [error]
    key and it echoes the unknown name. *)
Theorem _handle_riemann_unknown_method_runs_trapezoid :
  result_float (_handle_riemann (H := MiniCAS.cas) "x**2" 0 1 "simpson") "result"
  = Some (1996003 # 5988006)
  ∧ result_float (_handle_riemann (H := MiniCAS.cas) "x**2" 0 1 "trapezoid") "result"
    = Some (1996003 # 5988006)
  ∧ result_of (_handle_riemann (H := MiniCAS.cas) "x**2" 0 1 "simpson") "error" = None
  ∧ result_of (_handle_riemann (H := MiniCAS.cas) "x**2" 0 1 "simpson") "method"
    = Some (VStr "simpson").
Proof. vm_compute. by split_and!. Qed.

(** ** Subdivision counts that are zero or negative (C3) *)

Lemma py_truediv_zero (x : Qc) :
  py_truediv x (Qc_of_Z 0)
  = Raise (Exn ZeroDivisionError "float division by zero").
Proof. reflexivity. Qed.

(** C3, as the code has it: no operation validates the count.  With
    [n = 0] the operations that divide by the count do execute the
    division; it raises [ZeroDivisionError], which their [except] clause
    reports as the error result, with the message of the division when
    the parsing before it succeeded. *)
Theorem zero_count_reports_division_fault `{CAS} `{NumpyRandom} `{Scipy} :
  (∀ expression variable a b method,
      riemann_sum expression variable a b 0 method
      = Return ("Error: " +:+
          match sympify (PyStr expression) with
          | Raise e => str_exn e
          | Return _ =>
            match symbols (PyStr variable) with
            | Raise e => str_exn e
            | Return _ => "float division by zero"
            end
          end))
  ∧ (∀ expression variable a b type,
      darboux_sum expression variable a b 0 type
      = Return ("Error: " +:+
          match sympify (PyStr expression) with
          | Raise e => str_exn e
          | Return _ =>
            match symbols (PyStr variable) with
            | Raise e => str_exn e
            | Return _ => "float division by zero"
            end
          end))
  ∧ (∀ expression variable integrator a b method,
      riemann_stieltjes_sum expression variable integrator a b 0 method
      = Return ("Error: " +:+
          match sympify (PyStr expression) with
          | Raise e => str_exn e
          | Return _ =>
            match symbols (PyStr variable) with
            | Raise e => str_exn e
            | Return _ =>
              match sympify (PyStr integrator) with
              | Raise e => str_exn e
              | Return _ => "float division by zero"
              end
            end
          end))
  ∧ (∀ function start end_,
      _handle_darboux function start end_ 0
      = Return (error_response
          match sympify (PyStr function) with
          | Raise e => str_exn e
          | Return expr =>
            match lambdify1 expr with
            | Raise e => str_exn e
            | Return _ => "float division by zero"
            end
          end))
  ∧ (∀ function start_time end_time paths,
      _handle_ito function start_time end_time paths 0
      = Return (error_response "float division by zero"))
  ∧ (∀ function lower_bound upper_bound,
      numerical_integration_methods function lower_bound upper_bound "midpoint" 0
      = Return (error_response "Error during integration: float division by zero")).
Proof.
  split_and!; intros.
  - unfold riemann_sum. rewrite py_truediv_zero.
    destruct (sympify _); [|done]. step.
    destruct (symbols _); [|done]. by repeat step.
  - unfold darboux_sum. rewrite py_truediv_zero.
    destruct (sympify _); [|done]. step.
    destruct (symbols _); [|done]. by repeat step.
  - unfold riemann_stieltjes_sum. rewrite py_truediv_zero.
    destruct (sympify (PyStr expression)); [|done]. step.
    destruct (symbols _); [|done]. step.
    destruct (sympify _); [|done]. by repeat step.
  - unfold _handle_darboux.
    destruct (sympify _); [|done]. step.
    destruct (lambdify1 _); [|done]. step.
    rewrite py_truediv_zero. by repeat step.
  - unfold _handle_ito. rewrite py_truediv_zero. by repeat step.
  - unfold numerical_integration_methods. rewrite py_truediv_zero.
    by repeat step.
Qed.

(** C3 as stated fails.  A zero count runs into the division fault (the
    reported message is the division's); a negative count is accepted:
    the left Riemann sum over [-1] subintervals is the empty sum ["0"],
    the Darboux handler answers with zero sums, and the Riemann-Stieltjes
    handler, which never divides by the count, answers [0] for a zero
    count. *)
Lemma nonpositive_counts_not_rejected :
  riemann_sum (H := MiniCAS.cas) "x**2" "x" 0 1 0 "left"
  = Return "Error: float division by zero"
  ∧ riemann_sum (H := MiniCAS.cas) "x**2" "x" 0 1 (-1) "left" = Return "0"
  ∧ result_float (_handle_darboux (H := MiniCAS.cas) "x" 0 1 (-1)) "upper_sum"
    = Some (0 # 1)
  ∧ result_of (_handle_darboux (H := MiniCAS.cas) "x" 0 1 (-1)) "error" = None
  ∧ result_float (_handle_riemann_stieltjes (H := MiniCAS.cas) "x**2" "x" 0 1 0) "result"
    = Some (0 # 1)
  ∧ result_of (_handle_riemann_stieltjes (H := MiniCAS.cas) "x**2" "x" 0 1 0) "error"
    = None.
Proof. vm_compute. by split_and!. Qed.

(** ** The nested calls of [integrate] and [limit] *)

Lemma integrate_reports `{CAS} depth expression variable :
  ∃ e, integrate depth expression variable = Return ("Error: " +:+ str_exn e)
       ∧ (e = recursion_error
          ∨ (∃ o, sympify o = Raise e) ∨ (∃ o, symbols o = Raise e)).
Proof.
  revert expression variable.
  induction depth as [|d IH]; intros expression variable; cbn [integrate].
  - destruct (sympify expression) as [e'|x] eqn:Es; [|eauto 6].
    destruct (symbols variable) as [v'|x] eqn:Ev; eauto 6.
  - destruct (sympify expression) as [e'|x] eqn:Es; [|eauto 6].
    destruct (symbols variable) as [v'|x] eqn:Ev; [|eauto 6].
    rewrite !bind_Return.
    destruct (IH (PyExpr e') (PySym v')) as (e & -> & He). eauto.
Qed.

Lemma limit_reports `{CAS} depth expression variable approach :
  ∃ e, limit depth expression variable approach
       = Return ("Error: " +:+ str_exn e)
       ∧ (e = recursion_error
          ∨ (∃ o, sympify o = Raise e) ∨ (∃ o, symbols o = Raise e)).
Proof.
  revert expression variable.
  induction depth as [|d IH]; intros expression variable; cbn [limit].
  - destruct (sympify expression) as [e'|x] eqn:Es; [|eauto 6].
    destruct (symbols variable) as [v'|x] eqn:Ev; eauto 6.
  - destruct (sympify expression) as [e'|x] eqn:Es; [|eauto 6].
    destruct (symbols variable) as [v'|x] eqn:Ev; [|eauto 6].
    rewrite !bind_Return.
    destruct (IH (PyExpr e') (PySym v')) as (e & -> & He). eauto.
Qed.

(** ** The shape of the answers (C6) *)

Lemma error_response_single_key (msg : string) :
  dom (error_response msg) = {["error"]}
  ∧ error_response msg !! "error" = Some (VStr msg).
Proof.
  unfold error_response. split; [apply dom_singleton_L | apply lookup_singleton_eq].
Qed.

(** From [body = Return a] to the values bound along the way. *)
Ltac invert_body Hb :=
  repeat (apply bind_Return_inv in Hb as (? & ? & Hb); cbv beta in Hb);
  injection Hb as <-.

(** C6, as the code has it.  An error answer of the five handlers of
    [CalcToolsServer] and of [numerical_integration_methods] is the
    dictionary with the single key [error] and a string; a success answer
    of the five handlers has no [error] key, while a success answer of
    [numerical_integration_methods] carries its error estimate, a number,
    under that same key.  The route [symbolic_integral] answers under
    the key [result] only, and what it holds there is an error string. *)
Theorem answers_are_tagged `{CAS} `{NumpyRandom} `{Scipy} :
  (∀ msg, dom (error_response msg) = {["error"]}
          ∧ error_response msg !! "error" = Some (VStr msg))
  ∧ (∀ function start end_ method,
      ∃ r, _handle_riemann function start end_ method = Return r
           ∧ ((∃ msg, r = error_response msg)
              ∨ (r !! "error" = None ∧ is_Some (r !! "result"))))
  ∧ (∀ function start end_ partitions,
      ∃ r, _handle_darboux function start end_ partitions = Return r
           ∧ ((∃ msg, r = error_response msg)
              ∨ (r !! "error" = None ∧ is_Some (r !! "upper_sum"))))
  ∧ (∀ function integrator start end_ partitions,
      ∃ r, _handle_riemann_stieltjes function integrator start end_ partitions
           = Return r
           ∧ ((∃ msg, r = error_response msg)
              ∨ (r !! "error" = None ∧ is_Some (r !! "result"))))
  ∧ (∀ function start end_ levels,
      ∃ r, _handle_lebesgue function start end_ levels = Return r
           ∧ ((∃ msg, r = error_response msg)
              ∨ (r !! "error" = None ∧ is_Some (r !! "result"))))
  ∧ (∀ function start_time end_time paths steps,
      ∃ r, _handle_ito function start_time end_time paths steps = Return r
           ∧ ((∃ msg, r = error_response msg)
              ∨ (r !! "error" = None ∧ is_Some (r !! "mean"))))
  ∧ (∀ function lower_bound upper_bound method points,
      ∃ r, numerical_integration_methods function lower_bound upper_bound method points
           = Return r
           ∧ ((∃ msg, r = error_response msg)
              ∨ (∃ estimate, r !! "error" = Some (VFloat estimate)
                             ∧ is_Some (r !! "result"))))
  ∧ (∀ depth expression variable,
      ∃ msg, calculus_routes.symbolic_integral depth expression variable
             = Return {[ "result" := VStr ("Error: " +:+ msg) ]}).
Proof.
  split_and!; intros.
  - apply error_response_single_key.
  - unfold _handle_riemann, riemann_with_points.
    match goal with |- context [try_except ?b (λ e, Return (@?h e))] =>
      destruct (try_except_cases b h) as [(a & Hb & ->)|(e & Hb & ->)] end;
      (eexists; split; [done|]); [right|left; eauto].
    invert_body Hb. done.
  - unfold _handle_darboux.
    match goal with |- context [try_except ?b (λ e, Return (@?h e))] =>
      destruct (try_except_cases b h) as [(a & Hb & ->)|(e & Hb & ->)] end;
      (eexists; split; [done|]); [right|left; eauto].
    invert_body Hb. done.
  - unfold _handle_riemann_stieltjes.
    match goal with |- context [try_except ?b (λ e, Return (@?h e))] =>
      destruct (try_except_cases b h) as [(a & Hb & ->)|(e & Hb & ->)] end;
      (eexists; split; [done|]); [right|left; eauto].
    invert_body Hb. done.
  - unfold _handle_lebesgue.
    match goal with |- context [try_except ?b (λ e, Return (@?h e))] =>
      destruct (try_except_cases b h) as [(a & Hb & ->)|(e & Hb & ->)] end;
      (eexists; split; [done|]); [right|left; eauto].
    invert_body Hb. done.
  - unfold _handle_ito.
    match goal with |- context [try_except ?b (λ e, Return (@?h e))] =>
      destruct (try_except_cases b h) as [(a & Hb & ->)|(e & Hb & ->)] end;
      (eexists; split; [done|]); [right|left; eauto].
    invert_body Hb. done.
  - unfold numerical_integration_methods.
    match goal with |- context [try_except ?b (λ e, Return (@?h e))] =>
      destruct (try_except_cases b h) as [(a & Hb & ->)|(e & Hb & ->)] end;
      (eexists; split; [done|]); [|left; eauto].
    repeat case_decide.
    + apply bind_Return_inv in Hb as ([result error] & ? & Hb).
      injection Hb as <-. right. eexists. by split; [|eexists].
    + invert_body Hb. right. eexists. by split; [|eexists].
    + invert_body Hb. right. eexists. by split; [|eexists].
    + invert_body Hb. right. eexists. by split; [|eexists].
    + injection Hb as <-. left. eauto.
  - unfold calculus_routes.symbolic_integral.
    destruct (integrate_reports depth (PyStr expression) (PyStr variable))
      as (e & -> & _).
    rewrite bind_Return. eauto.
Qed.

(** C6 as stated fails on [numerical_integration_methods("x**2", 0, 1,
    method="midpoint", points=10)]: the answer is a success (its [result]
    is 133/400) and it has the key [error], holding the estimate 1/20.
    And the route [symbolic_integral] reports an error under the key
    [result], with no key [error]. *)
Lemma success_answer_with_error_key :
  result_float
    (numerical_integration_methods (H := MiniCAS.scipy) "x**2" 0 1 "midpoint" 10)
    "result" = Some (133 # 400)
  ∧ result_float
      (numerical_integration_methods (H := MiniCAS.scipy) "x**2" 0 1 "midpoint" 10)
      "error" = Some (1 # 20)
  ∧ calculus_routes.symbolic_integral (H := MiniCAS.cas) 1000 "x +" "x"
    = Return {[ "result" := VStr "Error: could not parse 'x +'" ]}.
Proof. vm_compute. by split_and!. Qed.

(** ** The shadowed symbolic operations (C9) *)

(** C9, as the code has it.  [integrate] and [limit] answer with an
    ["Error: "] string on every input, never with a symbolic result: the
    nested call is the function itself.  The message is that of the
    first exception met: one raised by [sympify] or [symbols] in some
    invocation, or else the recursion limit's. *)
Theorem integrate_and_limit_report_an_error `{CAS} :
  (∀ depth expression variable,
      ∃ e, integrate depth expression variable = Return ("Error: " +:+ str_exn e)
           ∧ (e = recursion_error
              ∨ (∃ o, sympify o = Raise e) ∨ (∃ o, symbols o = Raise e)))
  ∧ (∀ depth expression variable approach,
      ∃ e, limit depth expression variable approach
           = Return ("Error: " +:+ str_exn e)
           ∧ (e = recursion_error
              ∨ (∃ o, sympify o = Raise e) ∨ (∃ o, symbols o = Raise e))).
Proof.
  split; [apply integrate_reports | apply limit_reports].
Qed.

(** C9 as stated fails on a malformed expression: [sympify] raises in
    the outermost invocation, nothing recurses, and the message reported
    is the parser's and not the recursion limit's, whatever the limit. *)
Lemma integrate_malformed_does_not_recurse :
  integrate (H := MiniCAS.cas) 1000 (PyStr "x +") (PyStr "x")
  = Return "Error: could not parse 'x +'"
  ∧ integrate (H := MiniCAS.cas) 0 (PyStr "x +") (PyStr "x")
    = Return "Error: could not parse 'x +'"
  ∧ limit (H := MiniCAS.cas) 1000 (PyStr "x +") (PyStr "x") (PyStr "0")
    = Return "Error: could not parse 'x +'"
  ∧ "Error: could not parse 'x +'" ≠ "Error: " +:+ str_exn recursion_error.
Proof. vm_compute. by split_and!. Qed.

(** ** Order facts on the rationals *)

Lemma Qc_min_le_max (x y : Qc) : Qc_min x y ≤ Qc_max x y.
Proof.
  unfold Qc_min, Qc_max. destruct (decide (x ≤ y)) as [Hxy|Hxy]; [done|].
  apply Qclt_le_weak. by apply Qclt_nge.
Qed.

Lemma Qcdiv_nonneg (x y : Qc) : 0 ≤ x → 0 < y → 0 ≤ x / y.
Proof.
  intros Hx Hy. unfold Qcdiv.
  replace 0 with (0 * / y) by apply Qcmult_0_l.
  apply Qcmult_le_compat_r; [done|]. apply Qclt_le_weak. by apply Qcinv_pos.
Qed.

Lemma Qc_of_Z_pos (n : Z) : (0 < n)%Z → 0 < Qc_of_Z n.
Proof. intros Hn. apply Z2Qc_inj_lt in Hn. by rewrite Z2Qc_inj_0 in Hn. Qed.

Lemma py_truediv_Return (x y q : Qc) :
  py_truediv x y = Return q → y ≠ 0 ∧ q = x / y.
Proof. unfold py_truediv. destruct (decide (y = 0)); [done|]. by intros [= <-]. Qed.



(** Evaluation of a response entry that holds a number. *)
Ltac compute_float :=
  vm_compute;
  first [ reflexivity | do 2 f_equal; apply Qc_is_canon; reflexivity ].

(** ** Darboux sums (C7) *)



(** The same holds of the two sums the core [darboux_sum] prints for
    [type="lower"] and [type="upper"]. *)
Lemma foldl_Qcplus_le (l k : list Qc) (x y : Qc) :
  x ≤ y → Forall2 Qcle l k → foldl Qcplus x l ≤ foldl Qcplus y k.
Proof.
  intros Hxy Hlk. revert x y Hxy.
  induction Hlk as [|a b l k Hab _ IH]; intros x y Hxy; simpl; [done|].
  apply IH. by apply Qcplus_le_compat.
Qed.

Lemma py_sum_le (l k : list Qc) :
  Forall2 Qcle l k → pynum_value (py_sum l) ≤ pynum_value (py_sum k).
Proof.
  destruct 1 as [|a b l k Hab Hlk]; simpl; [done|].
  apply foldl_Qcplus_le; [|done]. by apply Qcplus_le_compat.
Qed.

Lemma darboux_terms_lower_le_upper `{CAS} (expression : expr)
    (variable : symbol) (a b delta_x : Qc) (n : Z) (lower upper : list Qc) :
  a ≤ b → (0 < n)%Z →
  py_truediv (b - a) (Qc_of_Z n) = Return delta_x →
  darboux_terms Qc_min expression variable a delta_x n = Return lower →
  darboux_terms Qc_max expression variable a delta_x n = Return upper →
  pynum_value (py_sum lower) ≤ pynum_value (py_sum upper).
Proof.
  intros Hab Hn [_ ->]%py_truediv_Return. unfold darboux_terms.
  assert (Hdx : 0 ≤ (b - a) / Qc_of_Z n).
  { apply Qcdiv_nonneg; [by apply Qcle_minus_iff in Hab | by apply Qc_of_Z_pos]. }
  generalize ((λ i : Z, (a + Qc_of_Z i * ((b - a) / Qc_of_Z n),
                         a + (Qc_of_Z i + 1) * ((b - a) / Qc_of_Z n))) <$> range n).
  intros ivs Hl Hu. apply py_sum_le. revert lower upper Hl Hu.
  induction ivs as [|iv ivs IH]; intros lower upper; simpl.
  - intros [= <-] [= <-]. constructor.
  - destruct (subs expression variable iv.1) as [lo|]; [|done].
    destruct (subs expression variable iv.2) as [hi|]; [|done].
    rewrite !bind_Return.
    intros (ls & Hls & [= <-])%bind_Return_inv (us & Hus & [= <-])%bind_Return_inv.
    constructor; [|by apply IH].
    apply Qcmult_le_compat_r; [apply Qc_min_le_max | done].
Qed.


(** ** Ranges, slices and the points of [np.linspace] *)

Lemma range_succ (n : Z) : (0 ≤ n)%Z → range (n + 1) = range n ++ [n].
Proof.
  intros Hn. unfold range.
  replace (Z.to_nat (n + 1)) with (S (Z.to_nat n)) by lia.
  rewrite seq_S, fmap_app. simpl. by rewrite Z2Nat.id.
Qed.

Lemma range_succ_cons (n : Z) :
  (0 ≤ n)%Z → range (n + 1) = 0%Z :: ((λ i, i + 1)%Z <$> range n).
Proof.
  intros Hn. unfold range.
  replace (Z.to_nat (n + 1)) with (S (Z.to_nat n)) by lia.
  simpl. f_equal. rewrite <- fmap_S_seq, <- !list_fmap_compose.
  apply list_fmap_ext. intros _ i _. simpl. lia.
Qed.

Lemma range_nonpos (n : Z) : (n ≤ 0)%Z → range n = [].
Proof. intros Hn. unfold range. by replace (Z.to_nat n) with 0%nat by lia. Qed.

Lemma length_range (n : Z) : length (range n) = Z.to_nat n.
Proof. unfold range. by rewrite length_fmap, length_seq. Qed.

Lemma slice_init_points {A} (h : Z → A) (n : Z) :
  (0 ≤ n)%Z → removelast (h <$> range (n + 1)) = h <$> range n.
Proof.
  intros Hn. rewrite range_succ, fmap_app by done. simpl.
  apply removelast_last.
Qed.

Lemma slice_tail_points {A} (h : Z → A) (n : Z) :
  (0 ≤ n)%Z → tail (h <$> range (n + 1)) = (λ i, h (i + 1)%Z) <$> range n.
Proof.
  intros Hn. rewrite range_succ_cons by done. simpl.
  by rewrite <- list_fmap_compose.
Qed.

Lemma zip_with_fmap_same {A B C D} (op : B → C → D) (f : A → B) (g : A → C)
    (l : list A) :
  zip_with op (f <$> l) (g <$> l) = (λ x, op (f x) (g x)) <$> l.
Proof. induction l as [|x l IH]; csimpl; [done|]. by rewrite IH. Qed.

Lemma Qc_of_Z_nonzero (n : Z) : n ≠ 0%Z → Qc_of_Z n ≠ 0.
Proof. intros Hn E. apply Hn. apply Z2Qc_inj. by rewrite Z2Qc_inj_0. Qed.

(** The samples of [np.linspace] are the points of the uniform
    partition. *)
Lemma np_linspace_points (start stop : Qc) (n : Z) :
  (0 < n)%Z →
  np_linspace start stop (n + 1)
  = Return (partition_point start stop n <$> range (n + 1)).
Proof.
  intros Hn. unfold np_linspace.
  destruct (decide (n + 1 < 0)%Z) as [?|_]; [lia|].
  replace (n + 1 - 1)%Z with n by lia.
  destruct (decide (0 < n)%Z) as [_|?]; [|lia].
  destruct (decide (1 < n + 1)%Z) as [_|?]; [|lia].
  assert (Hnz : Qc_of_Z n ≠ 0) by (apply Qc_of_Z_nonzero; lia).
  f_equal.
  assert (Hpts : ∀ l : list Z,
    (λ v, v + start) <$>
      (if decide ((stop - start) / Qc_of_Z n = 0)
       then (λ i, i / Qc_of_Z n * (stop - start)) <$> (Qc_of_Z <$> l)
       else (λ i, i * ((stop - start) / Qc_of_Z n)) <$> (Qc_of_Z <$> l))
    = partition_point start stop n <$> l).
  { intros l. destruct (decide _) as [Hz|Hz];
      rewrite <- !list_fmap_compose; apply list_fmap_ext; intros _ i _;
      unfold partition_point; simpl.
    - rewrite Hz. unfold Qcdiv in Hz.
      assert (stop - start = 0) as ->.
      { destruct (Qcmult_integral _ _ Hz) as [?|Hi]; [done|].
        pose proof (Qcmult_inv_r _ Hnz) as Hinv.
        rewrite Hi, Qcmult_0_r in Hinv. discriminate. }
      ring.
    - ring. }
  rewrite Hpts.
  rewrite slice_init_points, range_succ, fmap_app by lia. simpl.
  do 2 f_equal. unfold partition_point. field. done.
Qed.

Lemma np_broadcast_same_length (op : Qc → Qc → Qc) (a b : list Qc) :
  length a = length b → np_broadcast op a b = Return (zip_with op a b).
Proof. intros Hl. unfold np_broadcast. by destruct (decide _). Qed.

Lemma foldl_Qcplus_np_sum (l : list Qc) (x : Qc) :
  foldl Qcplus x l = x + np_sum l.
Proof.
  revert x. induction l as [|y l IH]; intros x; simpl; [ring|].
  rewrite IH. ring.
Qed.

Lemma py_sum_nonempty (l : list Qc) : l ≠ [] → py_sum l = PFloat (np_sum l).
Proof.
  destruct l as [|x l]; [done|]. intros _. unfold py_sum.
  f_equal. rewrite foldl_Qcplus_np_sum. ring.
Qed.

(** Use an equation [c = Return a] for the first computation of a
    sequence. *)
Ltac run H := rewrite H, bind_Return; cbv beta.

(** ** The Riemann-Stieltjes sums (C5) *)

(** C5, as the code has it.  For an integrand and an integrator that the
    evaluator computes point by point, and [n > 0]: the handler returns
    the sum over the subintervals of the mean of [f] at the two ends of
    the subinterval times the increment of [g]; the core function with
    [method="midpoint"] prints the midpoint Riemann sum of the product
    [f g]. *)
Theorem riemann_stieltjes_computes `{CAS}
    (function variable integrator : string) (start end_ : Qc) (partitions : Z)
    (f_expr g_expr : expr) (x : symbol) (f g : list Qc → outcome ndarray)
    (fq gq : Qc → Qc) :
  (0 < partitions)%Z →
  sympify (PyStr function) = Return f_expr →
  sympify (PyStr integrator) = Return g_expr →
  symbols (PyStr variable) = Return x →
  lambdify1 f_expr = Return f →
  lambdify1 g_expr = Return g →
  (∀ xs, f xs = Return (Arr (fq <$> xs))) →
  (∀ xs, g xs = Return (Arr (gq <$> xs))) →
  (∀ v, subs f_expr x v = Return (fq v)) →
  (∀ v, subs g_expr x v = Return (gq v)) →
  _handle_riemann_stieltjes function integrator start end_ partitions
  = Return {[ "result" :=
                VFloat (stieltjes_endpoint_mean_sum fq gq start end_ partitions);
              "partitions" := VInt partitions ]}
  ∧ riemann_stieltjes_sum function variable integrator start end_ partitions
      "midpoint"
    = Return (str_float (product_midpoint_sum fq gq start end_ partitions)).
Proof.
  intros Hn Hf Hg Hx Hlf Hlg Hfq Hgq Hsf Hsg. split.
  - unfold _handle_riemann_stieltjes.
    run Hf. run Hg. run Hlf. run Hlg.
    rewrite np_linspace_points, bind_Return by done.
    run Hfq. run Hgq. cbn [nd_diff nd_tail nd_init].
    rewrite !bind_Return. unfold np_diff, slice_tail, slice_init.
    rewrite <- !list_fmap_compose.
    rewrite !slice_tail_points, !slice_init_points by lia.
    rewrite !zip_with_fmap_same, <- list_fmap_compose.
    rewrite np_broadcast_same_length by (by rewrite !length_fmap).
    rewrite bind_Return, zip_with_fmap_same, try_except_Return. done.
  - unfold riemann_stieltjes_sum.
    run Hf. run Hx. run Hg. unfold py_truediv.
    destruct (decide (Qc_of_Z partitions = 0)) as [Hz|_].
    { apply Qc_of_Z_nonzero in Hz; [done|lia]. }
    rewrite bind_Return.
    destruct (decide ("midpoint" = "left")) as [?|_]; [done|].
    destruct (decide ("midpoint" = "right")) as [?|_]; [done|].
    destruct (decide ("midpoint" = "midpoint")) as [_|?]; [|done].
    unfold stieltjes_terms.
    rewrite (mapM_ext_outcome _
      (λ v, Return (fq v * gq v * ((end_ - start) / Qc_of_Z partitions)))).
    2: { intros v. by rewrite Hsf, Hsg. }
    rewrite mapM_Return, bind_Return, try_except_Return.
    rewrite py_sum_nonempty.
    2: { intros E. apply (f_equal length) in E.
         rewrite !length_fmap, length_range in E. simpl in E. lia. }
    rewrite <- list_fmap_compose. done.
Qed.

Lemma MiniCAS_pointwise (e : MiniCAS.term) (fq : Qc → Qc) (xs : list Qc) :
  MiniCAS.is_number e = false →
  (∀ v, MiniCAS.eval (MiniCAS.bind1 "x" v) e = Return (fq v)) →
  (if MiniCAS.is_number e then Scalar <$> MiniCAS.eval (λ _, None) e
   else Arr <$> mapM (λ v, MiniCAS.eval (MiniCAS.bind1 "x" v) e) xs)
  = Return (Arr (fq <$> xs)).
Proof.
  intros -> He. rewrite (mapM_ext_outcome _ (λ v, Return (fq v))) by done.
  by rewrite mapM_Return.
Qed.

(** C5 on [f = x**2], [g = x] over [0, 1] with 4 partitions. *)
Lemma riemann_stieltjes_computes_example :
  _handle_riemann_stieltjes (H := MiniCAS.cas) "x**2" "x" 0 1 4
  = Return {[ "result" :=
                VFloat (stieltjes_endpoint_mean_sum (λ v, v ^ 2) (λ v, v) 0 1 4);
              "partitions" := VInt 4 ]}
  ∧ riemann_stieltjes_sum (H := MiniCAS.cas) "x**2" "x" "x" 0 1 4 "midpoint"
    = Return (str_float (CAS := MiniCAS.cas)
                (product_midpoint_sum (λ v, v ^ 2) (λ v, v) 0 1 4)).
Proof.
  eapply (riemann_stieltjes_computes (H := MiniCAS.cas) "x**2" "x" "x" 0 1 4
            (MiniCAS.Pow (MiniCAS.Var "x") 2) (MiniCAS.Var "x") "x").
  - lia.
  - reflexivity.
  - reflexivity.
  - reflexivity.
  - reflexivity.
  - reflexivity.
  - intros xs. cbv beta. by apply MiniCAS_pointwise.
  - intros xs. cbv beta. by apply MiniCAS_pointwise.
  - reflexivity.
  - reflexivity.
Defined.

(** C5 as stated fails.  For [f(x) = x^2] and [g(x) = x] on [0, 1] with
    one subinterval, [f] at the midpoint times the increment of [g] is
    1/4; the handler answers 1/2, the mean of [f(0)] and [f(1)], and the
    core function prints 1/8, which is [f(1/2) g(1/2)] (numbers are
    printed as fractions by [MiniCAS]). *)
Lemma riemann_stieltjes_not_midpoint_sum :
  this (stieltjes_midpoint_sum (λ v, v ^ 2) (λ v, v) 0 1 1) = 1 # 4
  ∧ result_float (_handle_riemann_stieltjes (H := MiniCAS.cas) "x**2" "x" 0 1 1)
      "result" = Some (1 # 2)
  ∧ riemann_stieltjes_sum (H := MiniCAS.cas) "x**2" "x" "x" 0 1 1 "midpoint"
    = Return "1/8"
  ∧ str_float (CAS := MiniCAS.cas)
      (stieltjes_midpoint_sum (λ v, v ^ 2) (λ v, v) 0 1 1) = "1/4".
Proof. vm_compute. by split_and!. Qed.

(** ** The identity integrator (C4) *)

Lemma zip_with_halves (s d : list Qc) :
  zip_with Qcmult ((λ v, v / 2) <$> s) d = (λ v, v / 2) <$> zip_with Qcmult d s.
Proof.
  revert d. induction s as [|a s IH]; intros [|b d]; csimpl; try done.
  rewrite IH. f_equal. field. done.
Qed.

(** The products of the handler, [(f[1:] + f[:-1]) / 2 * dg], and those of
    [trapezoid], [d * (y[1:] + y[:-1]) / 2], broadcast alike and have the
    same sum. *)
Lemma broadcast_halves (s d : list Qc) :
  np_sum <$> np_broadcast Qcmult ((λ v, v / 2) <$> s) d
  = (λ p, np_sum ((λ v, v / 2) <$> p)) <$> np_broadcast Qcmult d s.
Proof.
  unfold np_broadcast. rewrite length_fmap.
  destruct (decide (length s = length d)) as [E|E];
    destruct (decide (length d = length s)) as [E'|E']; try congruence.
  - csimpl. by rewrite zip_with_halves.
  - destruct s as [|a [|a' s]], d as [|b [|b' d]]; csimpl in *; try done.
    + f_equal. f_equal; [field; done|]. f_equal; [field; done|].
      f_equal. rewrite <- list_fmap_compose.
      apply list_fmap_ext. intros _ v _. simpl. field. done.
    + f_equal. f_equal; [field; done|]. f_equal; [field; done|].
      f_equal. rewrite <- !list_fmap_compose.
      apply list_fmap_ext. intros _ v _. simpl. field. done.
Qed.

Lemma error_response_no_result (msg : string) :
  error_response msg !! "result" = None.
Proof. by apply lookup_singleton_ne. Qed.

(** C4, as the code has it: with the identity as integrator the handler
    returns, on every partition, what the trapezoid rule of
    [_handle_riemann] returns on the same points (both fail together);
    with 999 partitions these are the 1000 points of [_handle_riemann]
    itself. *)
Theorem stieltjes_identity_is_trapezoid `{CAS}
    (function integrator : string) (start end_ : Qc) (partitions : Z)
    (g_expr : expr) (g : list Qc → outcome ndarray) :
  (0 < partitions)%Z →
  sympify (PyStr integrator) = Return g_expr →
  lambdify1 g_expr = Return g →
  (∀ xs, g xs = Return (Arr xs)) →
  result_of (_handle_riemann_stieltjes function integrator start end_ partitions)
    "result"
  = result_of (riemann_with_points (partitions + 1) function start end_ "trapezoid")
      "result"
  ∧ result_of (_handle_riemann_stieltjes function integrator start end_ 999)
      "result"
    = result_of (_handle_riemann function start end_ "trapezoid") "result".
Proof.
  intros Hn Hg Hlg Hid.
  assert (Hall : ∀ n, (0 < n)%Z →
    result_of (_handle_riemann_stieltjes function integrator start end_ n) "result"
    = result_of (riemann_with_points (n + 1) function start end_ "trapezoid")
        "result").
  { clear partitions Hn. intros n Hn.
    unfold _handle_riemann_stieltjes, riemann_with_points.
    destruct (sympify (PyStr function)) as [f_expr|e]; [|done].
    rewrite !bind_Return. run Hg.
    destruct (lambdify1 f_expr) as [f|e]; [|done].
    rewrite !bind_Return. run Hlg.
    rewrite np_linspace_points, !bind_Return by done.
    unfold py_truediv. replace (n + 1 - 1)%Z with n by lia.
    destruct (decide (Qc_of_Z n = 0)) as [Hz|_].
    { apply Qc_of_Z_nonzero in Hz; [done|lia]. }
    rewrite bind_Return.
    destruct (decide ("trapezoid" = "left")) as [?|_]; [done|].
    destruct (decide ("trapezoid" = "right")) as [?|_]; [done|].
    destruct (decide ("trapezoid" = "midpoint")) as [?|_]; [done|].
    destruct (f _) as [[c|ys]|e]; [| |done].
    - rewrite !bind_Return. run Hid. done.
    - rewrite !bind_Return. run Hid. cbn [nd_diff nd_tail nd_init trapezoid].
      rewrite !bind_Return.
      pose proof (broadcast_halves
        (zip_with Qcplus (slice_tail ys) (slice_init ys))
        (np_diff (partition_point start end_ n <$> range (n + 1)))) as Hb.
      destruct (np_broadcast Qcmult (_ <$> _) _) as [p|e];
        destruct (np_broadcast Qcmult (np_diff _) _) as [p'|e'];
        try done.
      injection Hb as Hb. rewrite !bind_Return, !try_except_Return.
      unfold result_of. rewrite !lookup_insert_eq. by rewrite Hb. }
  split; [by apply Hall|]. by apply (Hall 999%Z).
Qed.

Lemma MiniCAS_identity (xs : list Qc) :
  Arr <$> mapM (λ v, MiniCAS.eval (MiniCAS.bind1 "x" v) (MiniCAS.Var "x")) xs
  = Return (Arr xs).
Proof.
  rewrite (mapM_ext_outcome _ (λ v, Return (id v))) by done.
  by rewrite mapM_Return, list_fmap_id.
Qed.

(** C4 on [f = x**2] with the integrator [x] over [0, 1]. *)
Lemma stieltjes_identity_is_trapezoid_example :
  result_of (_handle_riemann_stieltjes (H := MiniCAS.cas) "x**2" "x" 0 1 4)
    "result"
  = result_of (riemann_with_points (H := MiniCAS.cas) (4 + 1) "x**2" 0 1 "trapezoid")
      "result"
  ∧ result_of (_handle_riemann_stieltjes (H := MiniCAS.cas) "x**2" "x" 0 1 999)
      "result"
    = result_of (_handle_riemann (H := MiniCAS.cas) "x**2" 0 1 "trapezoid") "result".
Proof.
  eapply (stieltjes_identity_is_trapezoid (H := MiniCAS.cas) "x**2" "x" 0 1 4
            (MiniCAS.Var "x")).
  - lia.
  - reflexivity.
  - reflexivity.
  - intros xs. cbv beta. apply MiniCAS_identity.
Defined.

(** C4 as stated fails.  On the 1000 points of [0, 999] (999 partitions of
    width 1) with [f(x) = x^2], the handler with [g(x) = x] answers
    664668999/2 and the midpoint rule of [_handle_riemann] 1329336999/4:
    they differ by 999/4.  On [0, 1] with a single partition the handler
    answers 1/2 and the midpoint rule on the same two points 1/4. *)
Lemma stieltjes_identity_is_not_midpoint :
  (∃ s m : Qc,
     result_of
       (_handle_riemann_stieltjes (H := MiniCAS.cas) "x**2" "x" 0 (Qc_of_Z 999) 999)
       "result" = Some (VFloat s)
     ∧ result_of
         (_handle_riemann (H := MiniCAS.cas) "x**2" 0 (Qc_of_Z 999) "midpoint")
         "result" = Some (VFloat m)
     ∧ this s = 664668999 # 2 ∧ this m = 1329336999 # 4
     ∧ s - m = Q2Qc (999 # 4))
  ∧ result_float (_handle_riemann_stieltjes (H := MiniCAS.cas) "x**2" "x" 0 1 1)
      "result" = Some (1 # 2)
  ∧ result_float (riemann_with_points (H := MiniCAS.cas) 2 "x**2" 0 1 "midpoint")
      "result" = Some (1 # 4).
Proof.
  split_and!.
  - exists (Q2Qc (664668999 # 2)), (Q2Qc (1329336999 # 4)).
    split_and!; [compute_float | compute_float | done | done |].
    apply Qc_is_canon. reflexivity.
  - by vm_compute.
  - by vm_compute.
Qed.

(** ** The level sets of [_handle_lebesgue] (C10) *)

Lemma elem_of_range (n i : Z) : i ∈ range n ↔ (0 ≤ i < n)%Z.
Proof.
  unfold range. rewrite list_elem_of_fmap. split.
  - intros (k & -> & Hk%elem_of_seq). lia.
  - intros Hi. exists (Z.to_nat i). split; [lia|]. apply elem_of_seq. lia.
Qed.

Lemma removelast_replicate {A} (n : nat) (x : A) :
  removelast (replicate (S n) x) ++ [x] = replicate (S n) x.
Proof. by rewrite replicate_S_end, removelast_last. Qed.

(** With [y_min = y_max] every level is that value. *)
Lemma np_linspace_constant (c : Qc) (num : Z) :
  (0 ≤ num)%Z → np_linspace c c num = Return (replicate (Z.to_nat num) c).
Proof.
  intros Hn. unfold np_linspace.
  destruct (decide (num < 0)%Z) as [?|_]; [lia|]. f_equal.
  assert (Hy : ∀ g : Qc → Qc, (∀ i, g i + c = c) →
    (λ v, v + c) <$> (g <$> (Qc_of_Z <$> range num))
    = replicate (Z.to_nat num) c).
  { intros g Hg. rewrite <- !list_fmap_compose.
    rewrite (const_fmap _ _ c) by (intros; apply Hg).
    by rewrite length_range. }
  assert (Hcc : c - c = 0) by ring.
  assert (Hlast : ∀ l : list Qc, l = replicate (Z.to_nat num) c →
    (if decide (1 < num)%Z then removelast l ++ [c] else l)
    = replicate (Z.to_nat num) c).
  { intros l ->. destruct (decide (1 < num)%Z) as [H1|_]; [|done].
    destruct (Z.to_nat num) as [|k] eqn:Ek; [lia|]. apply removelast_replicate. }
  apply Hlast.
  destruct (decide (0 < num - 1)%Z) as [Hd|_].
  - destruct (decide ((c - c) / _ = 0)) as [_|_]; apply Hy; intros i;
      rewrite Hcc.
    + ring.
    + unfold Qcdiv. ring.
  - apply Hy. intros i. rewrite Hcc. ring.
Qed.

Lemma in_band_empty (level y : Qc) : in_band level level y = false.
Proof.
  unfold in_band. destruct (bool_decide (level ≤ y)) eqn:E1; [|done].
  apply bool_decide_eq_true in E1. simpl.
  apply bool_decide_eq_false. by apply Qcle_not_lt.
Qed.

Lemma band_count_empty (y_values : ndarray) (level : Qc) :
  band_count y_values level level = 0%Z.
Proof.
  destruct y_values as [c|l]; simpl.
  - by rewrite in_band_empty.
  - induction l as [|y l IH]; [done|].
    rewrite filter_cons. destruct (decide _) as [E|_]; [|done].
    by rewrite in_band_empty in E.
Qed.

Lemma foldl_const (op : Qc → Qc → Qc) (c : Qc) (l : list Qc) :
  op c c = c → Forall (λ v, v = c) l → foldl op c l = c.
Proof.
  intros Hop. induction 1 as [|x l -> _ IH]; simpl; [done|]. by rewrite Hop.
Qed.

Lemma nd_reduce_constant (c : Qc) (y : ndarray) :
  constant_samples c y → nd_min y = Return c ∧ nd_max y = Return c.
Proof.
  destruct y as [v|l]; simpl.
  - by intros ->.
  - intros [Hne Hall]. destruct Hall as [|x l -> Hall]; [done|]. simpl.
    rewrite !foldl_const; try done.
    + unfold Qc_max. by destruct (decide _).
    + unfold Qc_min. by destruct (decide _).
Qed.

(** A loop whose body keeps the state unchanged returns it. *)
Lemma for_each_unchanged {A S} (l : list A) (s : S) (body : A → S → outcome S) :
  (∀ x, x ∈ l → body x s = Return s) → for_each l s body = Return s.
Proof.
  induction l as [|x l IH]; intros Hb; simpl; [done|].
  rewrite Hb by apply list_elem_of_here. rewrite bind_Return.
  apply IH. intros y Hy. apply Hb. by apply list_elem_of_further.
Qed.

Lemma getitem_replicate (n : nat) (c : Qc) (i : Z) :
  (0 ≤ i < Z.of_nat n)%Z → getitem (replicate n c) i = Return c.
Proof.
  intros Hi. unfold getitem. rewrite lookup_replicate_2; [done|lia].
Qed.

Lemma foldl_min_le (l : list Qc) (x : Qc) : foldl Qc_min x l ≤ x.
Proof.
  revert x. induction l as [|a l IH]; intros x; simpl; [done|].
  trans (Qc_min x a); [apply IH|].
  unfold Qc_min. destruct (decide (x ≤ a)) as [?|Hn]; [done|].
  apply Qclt_le_weak. by apply Qclt_nge.
Qed.

Lemma foldl_max_ge (l : list Qc) (x : Qc) : x ≤ foldl Qc_max x l.
Proof.
  revert x. induction l as [|a l IH]; intros x; simpl; [done|].
  trans (Qc_max x a); [|apply IH].
  unfold Qc_max. by destruct (decide (x ≤ a)).
Qed.

Lemma nd_min_le_max (y : ndarray) (y_min y_max : Qc) :
  nd_min y = Return y_min → nd_max y = Return y_max → y_min ≤ y_max.
Proof.
  destruct y as [c|[|x l]]; simpl; try done.
  - by intros [= <-] [= <-].
  - intros [= <-] [= <-]. trans x; [apply foldl_min_le | apply foldl_max_ge].
Qed.

Lemma Qc_fraction_le (i d delta : Qc) :
  0 ≤ i → i ≤ d → 0 < d → 0 ≤ delta → i * (delta / d) ≤ delta.
Proof.
  intros Hi Hid Hd Hdelta.
  assert (Hinv : 0 ≤ / d) by (apply Qclt_le_weak; by apply Qcinv_pos).
  assert (Hfrac : i * / d ≤ 1).
  { rewrite <- (Qcmult_inv_r d) by (intros ->; by apply (Qclt_not_eq 0 0)).
    by apply Qcmult_le_compat_r. }
  replace (i * (delta / d)) with (delta * (i * / d)) by (unfold Qcdiv; ring).
  rewrite <- (Qcmult_1_r delta) at 2.
  by apply Qcmult_le_mono_nonneg_l.
Qed.

(** No sample of [np.linspace] exceeds [stop] when [start ≤ stop]. *)
Lemma np_linspace_le_stop (start stop : Qc) (num : Z) (l : list Qc) :
  start ≤ stop → np_linspace start stop num = Return l →
  Forall (λ v, v ≤ stop) l.
Proof.
  intros Hle. unfold np_linspace.
  destruct (decide (num < 0)%Z) as [?|Hnum]; [done|]. intros [= <-].
  assert (Hdelta : 0 ≤ stop - start) by (by apply Qcle_minus_iff in Hle).
  assert (Hbound : ∀ g : Qc → Qc,
    (∀ i, (0 ≤ i < num)%Z → g (Qc_of_Z i) ≤ stop - start) →
    Forall (λ v, v ≤ stop) ((λ v, v + start) <$> (g <$> (Qc_of_Z <$> range num)))).
  { intros g Hg. rewrite <- !list_fmap_compose. apply Forall_fmap, Forall_forall.
    intros i Hi%elem_of_range. simpl.
    replace stop with (stop - start + start) at 1 by ring.
    apply Qcplus_le_mono_r. by apply Hg. }
  assert (Hy : Forall (λ v, v ≤ stop)
    ((λ v, v + start) <$>
       (if decide (0 < num - 1)%Z
        then if decide ((stop - start) / Qc_of_Z (num - 1) = 0)
             then (λ i, i / Qc_of_Z (num - 1) * (stop - start)) <$> (Qc_of_Z <$> range num)
             else (λ i, i * ((stop - start) / Qc_of_Z (num - 1))) <$> (Qc_of_Z <$> range num)
        else (λ i, i * (stop - start)) <$> (Qc_of_Z <$> range num)))).
  { destruct (decide (0 < num - 1)%Z) as [Hd|Hd].
    - assert (Hdiv : 0 < Qc_of_Z (num - 1)) by (by apply Qc_of_Z_pos).
      assert (Hi : ∀ i, (0 ≤ i < num)%Z →
                0 ≤ Qc_of_Z i ∧ Qc_of_Z i ≤ Qc_of_Z (num - 1)).
      { intros i Hi. split.
        - rewrite <- Z2Qc_inj_0. apply (proj1 (Z2Qc_inj_le _ _)). lia.
        - apply (proj1 (Z2Qc_inj_le _ _)). lia. }
      destruct (decide ((stop - start) / _ = 0)) as [_|_]; apply Hbound;
        intros i [Hi0 Hi1]%Hi.
      + replace (Qc_of_Z i / Qc_of_Z (num - 1) * (stop - start))
          with (Qc_of_Z i * ((stop - start) / Qc_of_Z (num - 1)))
          by (unfold Qcdiv; ring).
        by apply Qc_fraction_le.
      + by apply Qc_fraction_le.
    - apply Hbound. intros i Hi. assert (i = 0%Z) as -> by lia.
      rewrite Z2Qc_inj_0, Qcmult_0_l. done. }
  destruct (decide (1 < num)%Z) as [_|_]; [|done].
  apply Forall_app. split; [|by repeat constructor].
  rewrite Forall_forall in Hy. apply Forall_forall. intros v Hv. apply Hy.
  rewrite removelast_firstn_len in Hv. by eapply subseteq_take.
Qed.

Lemma getitem_elem_of (l : list Qc) (i : Z) (v : Qc) :
  getitem l i = Return v → v ∈ l.
Proof.
  unfold getitem. destruct (l !! Z.to_nat i) as [w|] eqn:E; [|done].
  intros [= <-]. by eapply list_elem_of_lookup_2.
Qed.

(** A sample equal to the sampled maximum lies in no band: every upper
    end of a band is a level, and no level exceeds the maximum. *)
Lemma maximum_in_no_band (y_values : ndarray) (y_min y_max : Qc) (levels : Z)
    (level_values : list Qc) (i : Z) (level next_level : Qc) :
  nd_min y_values = Return y_min → nd_max y_values = Return y_max →
  np_linspace y_min y_max levels = Return level_values →
  getitem level_values (i + 1) = Return next_level →
  in_band level next_level y_max = false.
Proof.
  intros Hmin Hmax Hlv Hnext%getitem_elem_of.
  pose proof (nd_min_le_max _ _ _ Hmin Hmax) as Hle.
  pose proof (np_linspace_le_stop _ _ _ _ Hle Hlv) as Hall.
  rewrite Forall_forall in Hall. apply Hall in Hnext.
  unfold in_band. apply andb_false_intro2, bool_decide_eq_false.
  by apply Qcle_not_lt.
Qed.

(** C10.  For a constant integrand [c] (the evaluator returns the scalar
    [c], or an array of [c]s), an interval with [start < end] and any
    non negative number of levels, the handler answers with result 0, which
    is not [c (end - start)] unless [c = 0]: [y_min = y_max = c], every
    level is [c] and every band [level ≤ y < next_level] is empty.  More
    generally, whatever the samples, a sample equal to the sampled maximum
    passes the test of no band. *)
Theorem _handle_lebesgue_constant_integrand `{CAS}
    (function : string) (start end_ : Qc) (levels : Z) (e : expr)
    (f : list Qc → outcome ndarray) (c : Qc) :
  start < end_ → (0 ≤ levels)%Z →
  sympify (PyStr function) = Return e →
  lambdify1 e = Return f →
  (∀ xs, xs ≠ [] → ∃ y, f xs = Return y ∧ constant_samples c y) →
  _handle_lebesgue function start end_ levels
  = Return {[ "result" := VFloat 0;
              "levels_used" := VInt levels;
              "domain" := VList [start; end_] ]}
  ∧ (c ≠ 0 → c * (end_ - start) ≠ 0)
  ∧ (∀ y_values y_min y_max n level_values i level next_level,
       nd_min y_values = Return y_min → nd_max y_values = Return y_max →
       np_linspace y_min y_max n = Return level_values →
       getitem level_values (i + 1) = Return next_level →
       in_band level next_level y_max = false).
Proof.
  intros Hse Hlevels Hs Hl Hconst. split_and!.
  - unfold _handle_lebesgue. run Hs. run Hl.
    change 1000%Z with (999 + 1)%Z.
    rewrite (np_linspace_points start end_ 999), bind_Return by done.
    destruct (Hconst (partition_point start end_ 999 <$> range (999 + 1)))
      as (y & Hy & Hc); [done|].
    run Hy. destruct (nd_reduce_constant _ _ Hc) as [Hmin Hmax].
    run Hmin. run Hmax.
    rewrite np_linspace_constant, bind_Return by done.
    unfold py_truediv.
    destruct (decide (Qc_of_Z 999 = 0)) as [Hz|_].
    { by apply Qc_of_Z_nonzero in Hz. }
    rewrite bind_Return, for_each_unchanged; [done|].
    intros i [Hi0 Hi1]%elem_of_range.
    rewrite !getitem_replicate, !bind_Return by lia.
    rewrite band_count_empty, Z2Qc_inj_0. f_equal. ring.
  - intros Hc Hprod. apply Qcmult_integral in Hprod as [?|Hd]; [done|].
    apply (Qclt_not_eq start end_ Hse). symmetry.
    rewrite <- (Qcplus_0_l start), <- Hd. ring.
  - intros. by eapply maximum_in_no_band.
Qed.

(** C10 on the constant integrand [5] over [0, 1] with 100 levels, and
    on the samples [0, 1] with the levels [0, 1/2, 1]: the sample 1, the
    maximum, is not in the first band. *)
Lemma _handle_lebesgue_constant_integrand_example :
  (_handle_lebesgue (H := MiniCAS.cas) "5" 0 1 100
   = Return {[ "result" := VFloat 0;
               "levels_used" := VInt 100;
               "domain" := VList [0; 1] ]}
   ∧ (Qc_of_Z 5 ≠ 0 → Qc_of_Z 5 * (1 - 0) ≠ 0))
  ∧ in_band 0 (Q2Qc (1 # 2)) 1 = false.
Proof.
  destruct (_handle_lebesgue_constant_integrand (H := MiniCAS.cas)
              "5" 0 1 100 (MiniCAS.Num (Qc_of_Z 5))
              (λ _, Return (Scalar (Qc_of_Z 5))) (Qc_of_Z 5))
    as (Hresult & Hvalue & Hband).
  - reflexivity.
  - lia.
  - reflexivity.
  - reflexivity.
  - intros xs _. by eexists.
  - split; [by split|].
    apply (Hband (Arr [0; 1]) 0 1 3%Z [0; Q2Qc (1 # 2); 1] 0%Z); reflexivity.
Defined.

(** ** The Ito sums (C8) *)

(** The path [W] of the handler, [0] followed by the cumulative sums of
    the increments, without its last point: [W_k] is the sum of the
    first [k] increments. *)
Lemma slice_init_cumsum (w : Qc) (row : list Qc) :
  slice_init (w :: cumsum_from w row)
  = (λ k, w + np_sum (take k row)) <$> seq 0 (length row).
Proof.
  unfold slice_init. revert w.
  induction row as [|d row IH]; intros w; [done|].
  change (cumsum_from w (d :: row)) with ((w + d) :: cumsum_from (w + d) row).
  change (removelast (w :: (w + d) :: cumsum_from (w + d) row))
    with (w :: removelast ((w + d) :: cumsum_from (w + d) row)).
  rewrite IH. simpl length. rewrite <- cons_seq, <- fmap_S_seq. csimpl.
  f_equal; [ring|]. rewrite <- list_fmap_compose.
  apply list_fmap_ext. intros _ k _. simpl. ring.
Qed.

Lemma zip_with_indexed (g : nat → Qc) (row : list Qc) :
  zip_with Qcmult (g <$> seq 0 (length row)) row
  = (λ k, g k * nth k row 0) <$> seq 0 (length row).
Proof.
  revert g. induction row as [|x row IH]; intros g; [done|].
  simpl length. rewrite <- cons_seq, <- fmap_S_seq. csimpl.
  f_equal. rewrite <- !list_fmap_compose. apply (IH (g ∘ S)).
Qed.

Lemma fmap_range {A} (h : Z → A) (n : Z) :
  h <$> range n = (λ k, h (Z.of_nat k)) <$> seq 0 (Z.to_nat n).
Proof. unfold range. by rewrite <- list_fmap_compose. Qed.

(** What one turn of the loop adds up is the Ito sum of the path. *)
Lemma path_products_sum (fq : Qc → Qc → Qc) (start_time end_time : Qc)
    (steps : Z) (row : list Qc) :
  (0 ≤ steps)%Z → length row = Z.to_nat steps →
  np_sum
    (zip_with Qcmult
       (zip_with fq
          (slice_init (partition_point start_time end_time steps <$> range (steps + 1)))
          (slice_init (0 :: np_cumsum row)))
       row)
  = ito_path_sum fq start_time end_time steps row.
Proof.
  intros Hsteps Hlen. unfold ito_path_sum, sum_upto, np_cumsum.
  unfold slice_init at 1. rewrite slice_init_points by done.
  rewrite slice_init_cumsum, !fmap_range, <- Hlen.
  rewrite zip_with_fmap_same, zip_with_indexed. f_equal.
  apply list_fmap_ext. intros _ k _. simpl.
  unfold wiener, increment. rewrite Nat2Z.id. f_equal. f_equal. ring.
Qed.

Lemma nd_broadcast_values (y : ndarray) (values row : list Qc) :
  nd_values y (length row) = values → length values = length row →
  nd_broadcast Qcmult y row = Return (zip_with Qcmult values row).
Proof.
  destruct y as [c|l]; simpl; intros <- Hlen.
  - f_equal. clear Hlen. induction row as [|x row IH]; csimpl; [done|].
    by rewrite IH.
  - by apply np_broadcast_same_length.
Qed.

(** A loop over [range(n)] that stores a value at each index fills the
    array. *)
Lemma for_each_fill (val : nat → Qc) (body : Z → list Qc → outcome (list Qc))
    (done_ todo : nat) (filled rest : list Qc) :
  (∀ k acc, (done_ ≤ k < done_ + todo)%nat →
     body (Z.of_nat k) acc = Return (<[k := val k]> acc)) →
  filled = val <$> seq 0 done_ → length rest = todo →
  for_each (Z.of_nat <$> seq done_ todo) (filled ++ rest) body
  = Return (val <$> seq 0 (done_ + todo)).
Proof.
  revert done_ filled rest.
  induction todo as [|todo IH]; intros done_ filled rest Hbody -> Hrest.
  - destruct rest; [|done]. simpl. by rewrite Nat.add_0_r, app_nil_r.
  - destruct rest as [|r rest]; [done|]. csimpl.
    rewrite Hbody, bind_Return by lia.
    replace (<[done_:=val done_]> ((val <$> seq 0 done_) ++ r :: rest))
      with ((val <$> seq 0 (S done_)) ++ rest).
    + rewrite (IH (S done_) _ rest); [f_equal; f_equal; f_equal; lia| |done|].
      * intros k acc Hk. apply Hbody. lia.
      * simpl in Hrest. lia.
    + rewrite seq_S, fmap_app, <- app_assoc. simpl.
      rewrite (insert_app_r_alt _ _ done_) by (by rewrite length_fmap, length_seq).
      by rewrite length_fmap, length_seq, Nat.sub_diag.
Qed.

Lemma fmap_seq_lookup {A} (val : nat → Qc) (g : A → Qc) (l : list A) :
  (∀ k r, l !! k = Some r → val k = g r) →
  val <$> seq 0 (length l) = g <$> l.
Proof.
  intros Hval. apply list_eq. intros k. rewrite !list_lookup_fmap.
  destruct (l !! k) as [r|] eqn:E; simpl.
  - rewrite lookup_seq_lt by (by eapply lookup_lt_Some). simpl.
    f_equal. by apply Hval.
  - rewrite lookup_seq_ge; [done|]. by apply lookup_ge_None.
Qed.


Lemma MiniCAS_pointwise2 (ts ws : list Qc) :
  Arr <$> mapM (λ p : Qc * Qc,
                  MiniCAS.eval (MiniCAS.bind2 "t" p.1 "w" p.2) (MiniCAS.Var "w"))
            (zip ts ws)
  = Return (Arr (zip_with (λ _ w, w) ts ws)).
Proof.
  rewrite (mapM_ext_outcome _ (λ p : Qc * Qc, Return p.2)) by (by intros []).
  rewrite mapM_Return. csimpl. do 2 f_equal.
  revert ws. induction ts as [|t ts IH]; intros [|w ws]; csimpl; try done.
  by rewrite IH.
Qed.


(** * Further properties

    What the code shows beyond the claims above: the rules the operations
    compute, how the duplicated implementations agree, edge inputs, and
    identities of the returned numbers. *)

(** ** The rules of [_handle_riemann] *)

Lemma py_truediv_nonzero (x : Qc) (n : Z) :
  n ≠ 0%Z → py_truediv x (Qc_of_Z n) = Return (x / Qc_of_Z n).
Proof.
  intros Hn. unfold py_truediv.
  destruct (decide (Qc_of_Z n = 0)) as [Hz|_]; [|done].
  by apply Qc_of_Z_nonzero in Hz.
Qed.

Lemma partition_point_step (start end_ : Qc) (n i : Z) :
  n ≠ 0%Z →
  partition_point start end_ n (i + 1) - partition_point start end_ n i
  = (end_ - start) / Qc_of_Z n.
Proof.
  intros Hn. unfold partition_point. rewrite Z2Qc_inj_add.
  rewrite Z2Qc_inj_1. field. by apply Qc_of_Z_nonzero.
Qed.

Lemma partition_point_midpoint (start end_ : Qc) (n i : Z) :
  (partition_point start end_ n i + partition_point start end_ n (i + 1)) / 2
  = start + (Qc_of_Z i + Q2Qc (1 # 2)) * ((end_ - start) / Qc_of_Z n).
Proof.
  unfold partition_point. rewrite Z2Qc_inj_add.
  replace (Q2Qc (1 # 2)) with (1 / 2) by (by apply Qc_is_canon).
  rewrite Z2Qc_inj_1. destruct (decide (Qc_of_Z n = 0)) as [->|Hn].
  - unfold Qcdiv. change (/ 0) with 0. rewrite !Qcmult_0_r. field. done.
  - field. done.
Qed.

(** The points of the partition, their left ends, right ends, midpoints
    and differences, as the handlers slice them out of [np.linspace]. *)
Lemma np_diff_points (start end_ : Qc) (n : Z) :
  (0 < n)%Z →
  np_diff (partition_point start end_ n <$> range (n + 1))
  = (λ _, (end_ - start) / Qc_of_Z n) <$> range n.
Proof.
  intros Hn. unfold np_diff, slice_tail, slice_init.
  rewrite slice_tail_points, slice_init_points, zip_with_fmap_same by lia.
  apply list_fmap_ext. intros _ i _. apply partition_point_step. lia.
Qed.

Lemma riemann_with_points_rules `{CAS} (function : string) (start end_ : Qc)
    (n : Z) (e : expr) (f : list Qc → outcome ndarray) (fq : Qc → Qc) :
  (0 < n)%Z →
  sympify (PyStr function) = Return e →
  lambdify1 e = Return f →
  (∀ xs, f xs = Return (Arr (fq <$> xs))) →
  riemann_with_points (n + 1) function start end_ "left"
  = Return {[ "result" := VFloat (left_riemann_sum fq start end_ n);
              "method" := VStr "left";
              "interval" := VList [start; end_] ]}
  ∧ riemann_with_points (n + 1) function start end_ "right"
    = Return {[ "result" := VFloat (right_riemann_sum fq start end_ n);
                "method" := VStr "right";
                "interval" := VList [start; end_] ]}
  ∧ riemann_with_points (n + 1) function start end_ "midpoint"
    = Return {[ "result" := VFloat (midpoint_riemann_sum fq start end_ n);
                "method" := VStr "midpoint";
                "interval" := VList [start; end_] ]}
  ∧ riemann_with_points (n + 1) function start end_ "trapezoid"
    = Return {[ "result" := VFloat (trapezoid_riemann_sum fq start end_ n);
                "method" := VStr "trapezoid";
                "interval" := VList [start; end_] ]}.
Proof.
  intros Hn Hs Hl Hf.
  split_and!; unfold riemann_with_points; run Hs; run Hl;
    rewrite np_linspace_points, bind_Return by done;
    replace (n + 1 - 1)%Z with n by lia;
    rewrite py_truediv_nonzero, bind_Return by lia.
  - destruct (decide ("left" = "left")) as [_|?]; [|done].
    run Hf. rewrite bind_Return, try_except_Return. cbn [nd_scale nd_sum].
    unfold slice_init. rewrite slice_init_points by lia.
    by rewrite <- !list_fmap_compose.
  - destruct (decide ("right" = "left")) as [?|_]; [done|].
    destruct (decide ("right" = "right")) as [_|?]; [|done].
    run Hf. rewrite bind_Return, try_except_Return. cbn [nd_scale nd_sum].
    unfold slice_tail. rewrite slice_tail_points by lia.
    by rewrite <- !list_fmap_compose.
  - destruct (decide ("midpoint" = "left")) as [?|_]; [done|].
    destruct (decide ("midpoint" = "right")) as [?|_]; [done|].
    destruct (decide ("midpoint" = "midpoint")) as [_|?]; [|done].
    run Hf. rewrite bind_Return, try_except_Return. cbn [nd_scale nd_sum].
    unfold slice_tail, slice_init.
    rewrite slice_tail_points, slice_init_points, zip_with_fmap_same by lia.
    rewrite <- !list_fmap_compose. do 3 f_equal.
    unfold midpoint_riemann_sum, sum_upto. f_equal.
    apply list_fmap_ext. intros _ i _. simpl.
    by rewrite partition_point_midpoint.
  - destruct (decide ("trapezoid" = "left")) as [?|_]; [done|].
    destruct (decide ("trapezoid" = "right")) as [?|_]; [done|].
    destruct (decide ("trapezoid" = "midpoint")) as [?|_]; [done|].
    run Hf. cbn [trapezoid]. rewrite np_diff_points by done.
    unfold slice_tail, slice_init.
    rewrite <- list_fmap_compose.
    rewrite slice_tail_points, slice_init_points, !zip_with_fmap_same by lia.
    rewrite np_broadcast_same_length by (by rewrite !length_fmap).
    rewrite !bind_Return, try_except_Return, zip_with_fmap_same.
    rewrite <- list_fmap_compose. do 3 f_equal.
    unfold trapezoid_riemann_sum, sum_upto. f_equal.
    apply list_fmap_ext. intros _ i _. simpl. field.
    split; [apply Qc_of_Z_nonzero; lia | done].
Qed.

(** X1.
    The four rules of [_handle_riemann].  For an integrand that the
    evaluator computes point by point, the handler returns, on the 999
    subintervals of its 1000 sample points: for [left] the sum of the
    integrand at the left ends times the width, for [right] the same at the
    right ends, for [midpoint] at the midpoints, and for [trapezoid] the
    sum of the means of the two end values times the width. *)
Theorem _handle_riemann_rules `{CAS} (function : string) (start end_ : Qc)
    (e : expr) (f : list Qc → outcome ndarray) (fq : Qc → Qc) :
  sympify (PyStr function) = Return e →
  lambdify1 e = Return f →
  (∀ xs, f xs = Return (Arr (fq <$> xs))) →
  _handle_riemann function start end_ "left"
  = Return {[ "result" := VFloat (left_riemann_sum fq start end_ 999);
              "method" := VStr "left";
              "interval" := VList [start; end_] ]}
  ∧ _handle_riemann function start end_ "right"
    = Return {[ "result" := VFloat (right_riemann_sum fq start end_ 999);
                "method" := VStr "right";
                "interval" := VList [start; end_] ]}
  ∧ _handle_riemann function start end_ "midpoint"
    = Return {[ "result" := VFloat (midpoint_riemann_sum fq start end_ 999);
                "method" := VStr "midpoint";
                "interval" := VList [start; end_] ]}
  ∧ _handle_riemann function start end_ "trapezoid"
    = Return {[ "result" := VFloat (trapezoid_riemann_sum fq start end_ 999);
                "method" := VStr "trapezoid";
                "interval" := VList [start; end_] ]}.
Proof.
  intros Hs Hl Hf.
  by apply (riemann_with_points_rules function start end_ 999 e f fq).
Qed.

(** X1 at a concrete input.
    The rules on [x**2] over [0, 1]. *)
Lemma _handle_riemann_rules_example :
  _handle_riemann (H := MiniCAS.cas) "x**2" 0 1 "left"
  = Return {[ "result" := VFloat (left_riemann_sum (λ v, v ^ 2) 0 1 999);
              "method" := VStr "left";
              "interval" := VList [0; 1] ]}
  ∧ _handle_riemann (H := MiniCAS.cas) "x**2" 0 1 "right"
    = Return {[ "result" := VFloat (right_riemann_sum (λ v, v ^ 2) 0 1 999);
                "method" := VStr "right";
                "interval" := VList [0; 1] ]}
  ∧ _handle_riemann (H := MiniCAS.cas) "x**2" 0 1 "midpoint"
    = Return {[ "result" := VFloat (midpoint_riemann_sum (λ v, v ^ 2) 0 1 999);
                "method" := VStr "midpoint";
                "interval" := VList [0; 1] ]}
  ∧ _handle_riemann (H := MiniCAS.cas) "x**2" 0 1 "trapezoid"
    = Return {[ "result" := VFloat (trapezoid_riemann_sum (λ v, v ^ 2) 0 1 999);
                "method" := VStr "trapezoid";
                "interval" := VList [0; 1] ]}.
Proof.
  eapply (_handle_riemann_rules (H := MiniCAS.cas) "x**2" 0 1
            (MiniCAS.Pow (MiniCAS.Var "x") 2)).
  - reflexivity.
  - reflexivity.
  - intros xs. cbv beta. by apply MiniCAS_pointwise.
Defined.

(** ** Constant integrands *)

Lemma Qc_scaled_fraction_ne (c d : Qc) (n : Z) :
  (1 < n)%Z → c ≠ 0 → d ≠ 0 → c * (d / Qc_of_Z n) ≠ c * d.
Proof.
  intros Hn Hc Hd E.
  assert (Hnz : Qc_of_Z n ≠ 0) by (apply Qc_of_Z_nonzero; lia).
  assert (Hprod : c * d * (1 - Qc_of_Z n) = 0).
  { replace (c * d * (1 - Qc_of_Z n))
      with (Qc_of_Z n * (c * (d / Qc_of_Z n)) - Qc_of_Z n * (c * d))
      by (field; done).
    rewrite E. ring. }
  apply Qcmult_integral in Hprod as [Hcd|Hn1].
  - by apply Qcmult_integral in Hcd as [?|?].
  - assert (Qc_of_Z n = Qc_of_Z 1) as Hn1'.
    { rewrite Z2Qc_inj_1. rewrite <- (Qcplus_0_l (Qc_of_Z n)), <- Hn1. ring. }
    apply Z2Qc_inj in Hn1'. lia.
Qed.

(** X2.
    A constant integrand under [_handle_riemann].  The lambdified
    expression returns the scalar [c] instead of an array, the product
    with the width is a single number and its [np.sum] is that number: the
    rules [left], [right] and [midpoint] answer [c (end - start) / 999],
    one term of the sum, which is not the integral [c (end - start)] unless
    that is 0; the trapezoid rule answers with an error. *)
Theorem _handle_riemann_constant_integrand `{CAS} (function : string)
    (start end_ : Qc) (e : expr) (f : list Qc → outcome ndarray) (c : Qc) :
  sympify (PyStr function) = Return e →
  lambdify1 e = Return f →
  (∀ xs, f xs = Return (Scalar c)) →
  (∀ method, method = "left" ∨ method = "right" ∨ method = "midpoint" →
     _handle_riemann function start end_ method
     = Return {[ "result" := VFloat (c * ((end_ - start) / Qc_of_Z 999));
                 "method" := VStr method;
                 "interval" := VList [start; end_] ]})
  ∧ (∃ msg, _handle_riemann function start end_ "trapezoid"
            = Return (error_response msg))
  ∧ (c ≠ 0 → start ≠ end_ →
     c * ((end_ - start) / Qc_of_Z 999) ≠ c * (end_ - start)).
Proof.
  intros Hs Hl Hf. split_and!.
  - intros method Hm. unfold _handle_riemann, riemann_with_points.
    run Hs. run Hl. change 1000%Z with (999 + 1)%Z.
    rewrite np_linspace_points, bind_Return by done.
    change (999 + 1 - 1)%Z with 999%Z.
    rewrite py_truediv_nonzero, bind_Return by done.
    destruct Hm as [->| [->| ->]].
    + destruct (decide ("left" = "left")) as [_|?]; [|done].
      run Hf. by rewrite bind_Return.
    + destruct (decide ("right" = "left")) as [?|_]; [done|].
      destruct (decide ("right" = "right")) as [_|?]; [|done].
      run Hf. by rewrite bind_Return.
    + destruct (decide ("midpoint" = "left")) as [?|_]; [done|].
      destruct (decide ("midpoint" = "right")) as [?|_]; [done|].
      destruct (decide ("midpoint" = "midpoint")) as [_|?]; [|done].
      run Hf. by rewrite bind_Return.
  - unfold _handle_riemann, riemann_with_points.
    run Hs. run Hl. change 1000%Z with (999 + 1)%Z.
    rewrite np_linspace_points, bind_Return by done.
    change (999 + 1 - 1)%Z with 999%Z.
    rewrite py_truediv_nonzero, bind_Return by done.
    destruct (decide ("trapezoid" = "left")) as [?|_]; [done|].
    destruct (decide ("trapezoid" = "right")) as [?|_]; [done|].
    destruct (decide ("trapezoid" = "midpoint")) as [?|_]; [done|].
    run Hf. cbn [trapezoid]. rewrite bind_Raise, try_except_Raise. eauto.
  - intros Hc Hse. apply Qc_scaled_fraction_ne; [lia|done|].
    intros Hd. apply Hse. rewrite <- (Qcplus_0_l start), <- Hd. ring.
Qed.

(** X2 at a concrete input.
    The constant integrand [5] over [0, 1]: 5/999 instead of 5. *)
Lemma _handle_riemann_constant_integrand_example :
  ((∀ method, method = "left" ∨ method = "right" ∨ method = "midpoint" →
      _handle_riemann (H := MiniCAS.cas) "5" 0 1 method
      = Return {[ "result" := VFloat (Qc_of_Z 5 * ((1 - 0) / Qc_of_Z 999));
                  "method" := VStr method;
                  "interval" := VList [0; 1] ]})
   ∧ (∃ msg, _handle_riemann (H := MiniCAS.cas) "5" 0 1 "trapezoid"
             = Return (error_response msg))
   ∧ (Qc_of_Z 5 ≠ 0 → 0 ≠ 1 →
      Qc_of_Z 5 * ((1 - 0) / Qc_of_Z 999) ≠ Qc_of_Z 5 * (1 - 0)))
  ∧ this (Qc_of_Z 5 * ((1 - 0) / Qc_of_Z 999)) = 5 # 999.
Proof.
  split; [|reflexivity].
  eapply (_handle_riemann_constant_integrand (H := MiniCAS.cas) "5" 0 1
            (MiniCAS.Num (Qc_of_Z 5))).
  - reflexivity.
  - reflexivity.
  - intros xs. reflexivity.
Defined.

(** X3.
    A constant expression under [_handle_darboux] and
    [_handle_riemann_stieltjes].  Both slice what the lambdified
    expression returned ([y[:-1]], [np.diff]); on the scalar a constant
    expression yields this raises, whatever the interval and the count:
    the Darboux handler answers with an error for every constant
    integrand, the Riemann-Stieltjes handler for every constant integrand
    and for every constant integrator. *)
Theorem constant_expression_is_an_error `{CAS} (constant : string)
    (e : expr) (f : list Qc → outcome ndarray) :
  sympify (PyStr constant) = Return e →
  lambdify1 e = Return f →
  (∀ xs, ∃ c, f xs = Return (Scalar c)) →
  (∀ start end_ partitions,
     ∃ msg, _handle_darboux constant start end_ partitions
            = Return (error_response msg))
  ∧ (∀ integrator start end_ partitions,
       ∃ msg, _handle_riemann_stieltjes constant integrator start end_ partitions
              = Return (error_response msg))
  ∧ (∀ function start end_ partitions,
       ∃ msg, _handle_riemann_stieltjes function constant start end_ partitions
              = Return (error_response msg)).
Proof.
  intros Hs Hl Hf. split_and!; intros.
  - unfold _handle_darboux. run Hs. run Hl.
    destruct (np_linspace _ _ _) as [x|?]; [|by eauto].
    rewrite bind_Return.
    destruct (py_truediv _ _) as [dx|?]; [|by eauto].
    rewrite bind_Return. destruct (Hf x) as [c Hc]. run Hc. by eauto.
  - unfold _handle_riemann_stieltjes. run Hs.
    destruct (sympify (PyStr integrator)) as [g_expr|?]; [|by eauto].
    rewrite bind_Return. run Hl.
    destruct (lambdify1 g_expr) as [g|?]; [|by eauto].
    rewrite bind_Return.
    destruct (np_linspace _ _ _) as [x|?]; [|by eauto].
    rewrite bind_Return. destruct (Hf x) as [c Hc]. run Hc.
    destruct (g x) as [g_vals|?]; [|by eauto].
    rewrite bind_Return.
    destruct (nd_diff g_vals) as [dg|?]; [|by eauto].
    by eauto.
  - unfold _handle_riemann_stieltjes.
    destruct (sympify (PyStr function)) as [f_expr|?]; [|by eauto].
    rewrite bind_Return. run Hs.
    destruct (lambdify1 f_expr) as [f'|?]; [|by eauto].
    rewrite bind_Return. run Hl.
    destruct (np_linspace _ _ _) as [x|?]; [|by eauto].
    rewrite bind_Return.
    destruct (f' x) as [f_vals|?]; [|by eauto].
    rewrite bind_Return. destruct (Hf x) as [c Hc]. run Hc. by eauto.
Qed.

(** X3 at a concrete input.
    The constant [5] as integrand and as integrator. *)
Lemma constant_expression_is_an_error_example :
  (∀ start end_ partitions,
     ∃ msg, _handle_darboux (H := MiniCAS.cas) "5" start end_ partitions
            = Return (error_response msg))
  ∧ (∀ integrator start end_ partitions,
       ∃ msg, _handle_riemann_stieltjes (H := MiniCAS.cas) "5" integrator
                start end_ partitions
              = Return (error_response msg))
  ∧ (∀ function start end_ partitions,
       ∃ msg, _handle_riemann_stieltjes (H := MiniCAS.cas) function "5"
                start end_ partitions
              = Return (error_response msg)).
Proof.
  eapply (constant_expression_is_an_error (H := MiniCAS.cas) "5"
            (MiniCAS.Num (Qc_of_Z 5))).
  - reflexivity.
  - reflexivity.
  - intros xs. by eexists.
Defined.

(** ** Finite sums *)

Lemma np_sum_app (l k : list Qc) : np_sum (l ++ k) = np_sum l + np_sum k.
Proof. induction l as [|x l IH]; simpl; [ring|]. rewrite IH. ring. Qed.

Lemma sum_upto_succ (n : Z) (term : Z → Qc) :
  (0 ≤ n)%Z → sum_upto (n + 1) term = sum_upto n term + term n.
Proof.
  intros Hn. unfold sum_upto. rewrite range_succ, fmap_app, np_sum_app by done.
  simpl. ring.
Qed.

Lemma sum_upto_nonpos (n : Z) (term : Z → Qc) : (n ≤ 0)%Z → sum_upto n term = 0.
Proof. intros Hn. unfold sum_upto. by rewrite range_nonpos. Qed.

Lemma sum_upto_ext (n : Z) (g h : Z → Qc) :
  (∀ i, (0 ≤ i < n)%Z → g i = h i) → sum_upto n g = sum_upto n h.
Proof.
  intros Hgh. unfold sum_upto. f_equal. apply list_fmap_ext.
  intros _ i Hi%list_elem_of_lookup_2%elem_of_range. by apply Hgh.
Qed.

Lemma sum_upto_plus (n : Z) (g h : Z → Qc) :
  sum_upto n (λ i, g i + h i) = sum_upto n g + sum_upto n h.
Proof.
  unfold sum_upto. induction (range n) as [|i l IH]; csimpl; [ring|].
  rewrite IH. ring.
Qed.

Lemma sum_upto_scale (n : Z) (g : Z → Qc) (c : Qc) :
  sum_upto n (λ i, g i * c) = sum_upto n g * c.
Proof.
  unfold sum_upto. induction (range n) as [|i l IH]; csimpl; [ring|].
  rewrite IH. ring.
Qed.

(** A sum of successive differences collapses to the difference of the
    two ends. *)
Lemma sum_upto_telescope (n : Z) (h : Z → Qc) :
  (0 ≤ n)%Z → sum_upto n (λ i, h (i + 1)%Z - h i) = h n - h 0%Z.
Proof.
  intros Hn. pattern n. apply natlike_ind; [| |done].
  - rewrite sum_upto_nonpos by done. ring.
  - intros k Hk IH. change (Z.succ k) with (k + 1)%Z.
    rewrite sum_upto_succ, IH by done. ring.
Qed.

Lemma partition_point_first (start end_ : Qc) (n : Z) :
  partition_point start end_ n 0 = start.
Proof. unfold partition_point. rewrite Z2Qc_inj_0. ring. Qed.

Lemma partition_point_last (start end_ : Qc) (n : Z) :
  n ≠ 0%Z → partition_point start end_ n n = end_.
Proof.
  intros Hn. unfold partition_point. field. by apply Qc_of_Z_nonzero.
Qed.

(** ** The sums of [_handle_darboux] *)

Lemma Qc_max_plus_min (x y : Qc) : Qc_max x y + Qc_min x y = x + y.
Proof. unfold Qc_max, Qc_min. destruct (decide (x ≤ y)); ring. Qed.

(** The mean of the two Darboux sums is the trapezoid sum of the same
    samples. *)
Lemma darboux_mean_is_trapezoid (y0 y1 : list Qc) (dx : Qc) :
  length y0 = length y1 →
  (np_sum ((λ v, v * dx) <$> zip_with Qc_max y0 y1)
   + np_sum ((λ v, v * dx) <$> zip_with Qc_min y0 y1)) / 2
  = np_sum ((λ v, v / 2)
              <$> zip_with Qcmult (replicate (length y0) dx) (zip_with Qcplus y1 y0)).
Proof.
  revert y1. induction y0 as [|a y0 IH]; intros [|b y1] Hlen; try done.
  { by apply Qc_is_canon. }
  simpl in Hlen. apply Nat.succ_inj in Hlen. csimpl. rewrite <- (IH y1 Hlen).
  replace (Qc_max a b) with (a + b - Qc_min a b)
    by (rewrite <- Qc_max_plus_min; ring).
  field. done.
Qed.

Lemma length_removelast {A} (l : list A) : length (removelast l) = pred (length l).
Proof.
  induction l as [|x [|y l] IH]; [done|done|].
  change (removelast (x :: y :: l)) with (x :: removelast (y :: l)).
  simpl length in *. by rewrite IH.
Qed.

(** X4.
    The value [_handle_darboux] returns as [integral_value], the mean of
    its upper and lower sums, is the value the trapezoid rule of
    [_handle_riemann] returns on the same points, for every evaluator that
    returns as many values as it gets points (both fail together); with
    999 partitions these are the points of [_handle_riemann] itself. *)
Theorem _handle_darboux_integral_value_is_trapezoid `{CAS}
    (function : string) (start end_ : Qc) (partitions : Z) :
  (0 < partitions)%Z →
  (∀ e f xs ys, sympify (PyStr function) = Return e → lambdify1 e = Return f →
     f xs = Return (Arr ys) → length ys = length xs) →
  result_of (_handle_darboux function start end_ partitions) "integral_value"
  = result_of (riemann_with_points (partitions + 1) function start end_ "trapezoid")
      "result"
  ∧ result_of (_handle_darboux function start end_ 999) "integral_value"
    = result_of (_handle_riemann function start end_ "trapezoid") "result".
Proof.
  intros Hn Hlen.
  assert (Hall : ∀ n, (0 < n)%Z →
    result_of (_handle_darboux function start end_ n) "integral_value"
    = result_of (riemann_with_points (n + 1) function start end_ "trapezoid")
        "result").
  { clear partitions Hn. intros n Hn.
    unfold _handle_darboux, riemann_with_points.
    destruct (sympify (PyStr function)) as [e|?] eqn:Hs; [|done].
    rewrite !bind_Return.
    destruct (lambdify1 e) as [f|?] eqn:Hl; [|done].
    rewrite !bind_Return, np_linspace_points, !bind_Return by done.
    replace (n + 1 - 1)%Z with n by lia.
    rewrite py_truediv_nonzero, !bind_Return by lia.
    destruct (decide ("trapezoid" = "left")) as [?|_]; [done|].
    destruct (decide ("trapezoid" = "right")) as [?|_]; [done|].
    destruct (decide ("trapezoid" = "midpoint")) as [?|_]; [done|].
    destruct (f _) as [[c|ys]|?] eqn:Hf; [done| |done].
    apply (Hlen e f) in Hf; [|done|done].
    rewrite length_fmap, length_range in Hf.
    rewrite !bind_Return. cbn [nd_init nd_tail trapezoid].
    rewrite !bind_Return, try_except_Return.
    rewrite np_diff_points by done.
    rewrite (const_fmap (λ _ : Z, (end_ - start) / Qc_of_Z n) (range n)
               ((end_ - start) / Qc_of_Z n)) by done.
    assert (Hy0 : length (slice_init ys) = Z.to_nat n).
    { unfold slice_init. rewrite length_removelast, Hf. lia. }
    assert (Hy1 : length (slice_tail ys) = Z.to_nat n).
    { unfold slice_tail. destruct ys; simpl in *; lia. }
    rewrite np_broadcast_same_length.
    2: { rewrite length_replicate, length_zip_with, length_range. lia. }
    rewrite !bind_Return, try_except_Return. unfold result_of.
    rewrite !lookup_insert_ne, !lookup_insert_eq by done.
    do 2 f_equal. rewrite darboux_mean_is_trapezoid by congruence.
    by rewrite Hy0, length_range. }
  split; [by apply Hall|]. by apply (Hall 999%Z).
Qed.

Lemma MiniCAS_length_preserving (function : string) (e : MiniCAS.term) :
  MiniCAS.parse function = Return e → MiniCAS.is_number e = false →
  ∀ e' f' xs ys, sympify (CAS := MiniCAS.cas) (PyStr function) = Return e' →
    lambdify1 (CAS := MiniCAS.cas) e' = Return f' →
    f' xs = Return (Arr ys) → length ys = length xs.
Proof.
  intros Hp Hnum e' f' xs ys He' Hf'. simpl in He'. rewrite Hp in He'.
  injection He' as <-. injection Hf' as <-. rewrite Hnum.
  clear. revert ys. induction xs as [|x xs IH]; intros ys.
  - by intros [= <-].
  - csimpl. destruct (MiniCAS.eval _ e) as [v|?]; [|done]. csimpl.
    destruct (mapM _ xs) as [vs|?]; [|done]. csimpl. intros [= <-].
    simpl. f_equal. by apply IH.
Qed.

(** X4 at a concrete input.
    On [x**2] over [0, 1] with 4 partitions. *)
Lemma _handle_darboux_integral_value_is_trapezoid_example :
  result_of (_handle_darboux (H := MiniCAS.cas) "x**2" 0 1 4) "integral_value"
  = result_of (riemann_with_points (H := MiniCAS.cas) (4 + 1) "x**2" 0 1 "trapezoid")
      "result"
  ∧ result_of (_handle_darboux (H := MiniCAS.cas) "x**2" 0 1 999) "integral_value"
    = result_of (_handle_riemann (H := MiniCAS.cas) "x**2" 0 1 "trapezoid") "result".
Proof.
  apply (_handle_darboux_integral_value_is_trapezoid (H := MiniCAS.cas) "x**2" 0 1 4).
  - lia.
  - by apply (MiniCAS_length_preserving "x**2" (MiniCAS.Pow (MiniCAS.Var "x") 2)).
Defined.

Lemma sum_upto_minus (n : Z) (g h : Z → Qc) :
  sum_upto n (λ i, g i - h i) = sum_upto n g - sum_upto n h.
Proof.
  unfold sum_upto. induction (range n) as [|i l IH]; csimpl; [ring|].
  rewrite IH. ring.
Qed.

Lemma Qc_max_r (x y : Qc) : x ≤ y → Qc_max x y = y.
Proof. intros Hxy. unfold Qc_max. by destruct (decide (x ≤ y)). Qed.

Lemma Qc_min_l (x y : Qc) : x ≤ y → Qc_min x y = x.
Proof. intros Hxy. unfold Qc_min. by destruct (decide (x ≤ y)). Qed.

(** On an interval with [start ≤ end] the points of the partition are in
    the interval, in increasing order. *)
Lemma partition_point_bounds (start end_ : Qc) (n i : Z) :
  start ≤ end_ → (0 ≤ i < n)%Z →
  start ≤ partition_point start end_ n i
  ∧ partition_point start end_ n i ≤ partition_point start end_ n (i + 1)
  ∧ partition_point start end_ n (i + 1) ≤ end_.
Proof.
  intros Hse Hi.
  assert (Hd : 0 ≤ end_ - start) by (by apply Qcle_minus_iff in Hse).
  assert (Hn : 0 < Qc_of_Z n) by (apply Qc_of_Z_pos; lia).
  assert (Hdx : 0 ≤ (end_ - start) / Qc_of_Z n) by (by apply Qcdiv_nonneg).
  assert (Hi0 : 0 ≤ Qc_of_Z i).
  { rewrite <- Z2Qc_inj_0. apply (proj1 (Z2Qc_inj_le _ _)). lia. }
  split_and!.
  - unfold partition_point. rewrite <- (Qcplus_0_r start) at 1.
    apply Qcplus_le_compat; [done|]. by apply Qcmult_nonneg_nonneg.
  - apply Qcle_minus_iff. fold (Qcminus (partition_point start end_ n (i + 1)) (partition_point start end_ n i)).
    rewrite partition_point_step by lia. done.
  - unfold partition_point.
    assert (Hfrac : Qc_of_Z (i + 1) * ((end_ - start) / Qc_of_Z n) ≤ end_ - start).
    { apply Qc_fraction_le; [| |done|done].
      + rewrite <- Z2Qc_inj_0. apply (proj1 (Z2Qc_inj_le _ _)). lia.
      + apply (proj1 (Z2Qc_inj_le _ _)). lia. }
    apply (Qcplus_le_mono_l _ _ start) in Hfrac.
    by replace (start + (end_ - start)) with end_ in Hfrac by ring.
Qed.

Lemma trapezoid_riemann_sum_mean (f : Qc → Qc) (start end_ : Qc) (n : Z) :
  trapezoid_riemann_sum f start end_ n
  = (right_riemann_sum f start end_ n + left_riemann_sum f start end_ n) / 2.
Proof.
  unfold trapezoid_riemann_sum, right_riemann_sum, left_riemann_sum.
  cbv zeta. rewrite <- sum_upto_plus.
  match goal with |- _ = ?s / 2 => change (s / 2) with (s * / 2) end.
  rewrite <- sum_upto_scale.
  apply sum_upto_ext. intros i _.
  generalize ((end_ - start) / Qc_of_Z n). intros dx. field. done.
Qed.

(** X5.
    A nondecreasing integrand under [_handle_darboux].  For [start ≤
    end], a positive number of partitions and an integrand that is
    nondecreasing on the interval: the lower sum is the left Riemann sum,
    the upper sum the right Riemann sum, their mean the trapezoid sum, and
    the error bound is [(f(end) - f(start)) (end - start) / (2 n)]. *)
Theorem _handle_darboux_monotone `{CAS} (function : string) (start end_ : Qc)
    (partitions : Z) (e : expr) (f : list Qc → outcome ndarray) (fq : Qc → Qc) :
  start ≤ end_ → (0 < partitions)%Z →
  sympify (PyStr function) = Return e →
  lambdify1 e = Return f →
  (∀ xs, f xs = Return (Arr (fq <$> xs))) →
  (∀ x y, start ≤ x → x ≤ y → y ≤ end_ → fq x ≤ fq y) →
  _handle_darboux function start end_ partitions
  = Return {[ "upper_sum" := VFloat (right_riemann_sum fq start end_ partitions);
              "lower_sum" := VFloat (left_riemann_sum fq start end_ partitions);
              "integral_value" :=
                VFloat (trapezoid_riemann_sum fq start end_ partitions);
              "error_bound" :=
                VFloat ((fq end_ - fq start)
                        * ((end_ - start) / Qc_of_Z partitions) / 2) ]}.
Proof.
  intros Hse Hn Hs Hl Hf Hmono. unfold _handle_darboux.
  run Hs. run Hl. rewrite np_linspace_points, bind_Return by done.
  rewrite py_truediv_nonzero, bind_Return by lia.
  run Hf. cbn [nd_init nd_tail]. rewrite !bind_Return, try_except_Return.
  unfold slice_init, slice_tail. rewrite <- !list_fmap_compose.
  rewrite slice_init_points, slice_tail_points, !zip_with_fmap_same by lia.
  set (dx := (end_ - start) / Qc_of_Z partitions).
  assert (Hup : np_sum ((λ v, v * dx) <$>
      ((λ i, Qc_max ((fq ∘ partition_point start end_ partitions) i)
                    ((fq ∘ partition_point start end_ partitions) (i + 1)%Z))
         <$> range partitions))
    = right_riemann_sum fq start end_ partitions).
  { rewrite <- list_fmap_compose. unfold right_riemann_sum, sum_upto. f_equal.
    apply list_fmap_ext.
    intros _ i Hi%list_elem_of_lookup_2%elem_of_range. simpl.
    destruct (partition_point_bounds start end_ partitions i Hse Hi)
      as (H0 & H1 & H2).
    rewrite Qc_max_r; [done|]. apply Hmono; [done|done|done]. }
  assert (Hlo : np_sum ((λ v, v * dx) <$>
      ((λ i, Qc_min ((fq ∘ partition_point start end_ partitions) i)
                    ((fq ∘ partition_point start end_ partitions) (i + 1)%Z))
         <$> range partitions))
    = left_riemann_sum fq start end_ partitions).
  { rewrite <- list_fmap_compose. unfold left_riemann_sum, sum_upto. f_equal.
    apply list_fmap_ext.
    intros _ i Hi%list_elem_of_lookup_2%elem_of_range. simpl.
    destruct (partition_point_bounds start end_ partitions i Hse Hi)
      as (H0 & H1 & H2).
    rewrite Qc_min_l; [done|]. apply Hmono; [done|done|done]. }
  rewrite Hup, Hlo, <- trapezoid_riemann_sum_mean.
  do 6 f_equal.
  unfold right_riemann_sum, left_riemann_sum. cbv zeta. fold dx.
  rewrite <- sum_upto_minus.
  rewrite (sum_upto_telescope partitions
             (λ i, fq (partition_point start end_ partitions i) * dx)) by lia.
  rewrite partition_point_first, partition_point_last by lia.
  unfold Qcdiv. ring.
Qed.

Lemma Qc_square_le (x y : Qc) : 0 ≤ x → x ≤ y → x ^ 2 ≤ y ^ 2.
Proof.
  intros Hx Hxy. simpl. rewrite !Qcmult_1_r.
  trans (x * y).
  - by apply Qcmult_le_mono_nonneg_l.
  - apply Qcmult_le_compat_r; [done|]. by trans x.
Qed.

(** X5 at a concrete input.
    [x**2] on [0, 1] with 4 partitions: the error bound is 1/8. *)
Lemma _handle_darboux_monotone_example :
  _handle_darboux (H := MiniCAS.cas) "x**2" 0 1 4
  = Return {[ "upper_sum" := VFloat (right_riemann_sum (λ v, v ^ 2) 0 1 4);
              "lower_sum" := VFloat (left_riemann_sum (λ v, v ^ 2) 0 1 4);
              "integral_value" := VFloat (trapezoid_riemann_sum (λ v, v ^ 2) 0 1 4);
              "error_bound" :=
                VFloat ((1 ^ 2 - 0 ^ 2) * ((1 - 0) / Qc_of_Z 4) / 2) ]}.
Proof.
  eapply (_handle_darboux_monotone (H := MiniCAS.cas) "x**2" 0 1 4
            (MiniCAS.Pow (MiniCAS.Var "x") 2) _ (λ v, v ^ 2)).
  - done.
  - lia.
  - reflexivity.
  - reflexivity.
  - intros xs. cbv beta. by apply MiniCAS_pointwise.
  - intros x y Hx Hxy _. by apply Qc_square_le.
Defined.




(** ** Affine integrands *)

Lemma affine_trapezoid_sum (m c start end_ : Qc) (n : Z) :
  (0 < n)%Z →
  trapezoid_riemann_sum (λ v, m * v + c) start end_ n
  = m * (end_ * end_ - start * start) / 2 + c * (end_ - start).
Proof.
  intros Hn. unfold trapezoid_riemann_sum. cbv zeta.
  pose (F := λ v : Qc, m * (v * v) / 2 + c * v).
  rewrite (sum_upto_ext _ _
    (λ i, F (partition_point start end_ n (i + 1))
          - F (partition_point start end_ n i))).
  - rewrite (sum_upto_telescope n (λ i, F (partition_point start end_ n i))) by lia.
    rewrite partition_point_first, partition_point_last by lia.
    unfold F. field. done.
  - intros i _. rewrite <- (partition_point_step start end_ n i) by lia.
    unfold F. field. done.
Qed.

Lemma affine_midpoint_sum (m c start end_ : Qc) (n : Z) :
  (0 < n)%Z →
  midpoint_riemann_sum (λ v, m * v + c) start end_ n
  = m * (end_ * end_ - start * start) / 2 + c * (end_ - start).
Proof.
  intros Hn. unfold midpoint_riemann_sum. cbv zeta.
  pose (F := λ v : Qc, m * (v * v) / 2 + c * v).
  rewrite (sum_upto_ext _ _
    (λ i, F (partition_point start end_ n (i + 1))
          - F (partition_point start end_ n i))).
  - rewrite (sum_upto_telescope n (λ i, F (partition_point start end_ n i))) by lia.
    rewrite partition_point_first, partition_point_last by lia.
    unfold F. field. done.
  - intros i _. rewrite <- partition_point_midpoint.
    rewrite <- (partition_point_step start end_ n i) by lia.
    unfold F. field. done.
Qed.

(** X7.
    The trapezoid and the midpoint rule of [_handle_riemann] are exact on
    affine integrands: for [f(x) = m x + c] both return the integral
    [m (end^2 - start^2) / 2 + c (end - start)], on every interval. *)
Theorem _handle_riemann_exact_on_affine `{CAS} (function : string)
    (start end_ : Qc) (e : expr) (f : list Qc → outcome ndarray) (m c : Qc)
    (method : string) :
  sympify (PyStr function) = Return e →
  lambdify1 e = Return f →
  (∀ xs, f xs = Return (Arr ((λ v, m * v + c) <$> xs))) →
  method = "trapezoid" ∨ method = "midpoint" →
  _handle_riemann function start end_ method
  = Return {[ "result" :=
                VFloat (m * (end_ * end_ - start * start) / 2 + c * (end_ - start));
              "method" := VStr method;
              "interval" := VList [start; end_] ]}.
Proof.
  intros Hs Hl Hf Hm.
  destruct (riemann_with_points_rules function start end_ 999 e f
              (λ v, m * v + c)) as (_ & _ & Hmid & Htrap); try done.
  unfold _handle_riemann. change 1000%Z with (999 + 1)%Z.
  destruct Hm as [->| ->].
  - by rewrite Htrap, affine_trapezoid_sum.
  - by rewrite Hmid, affine_midpoint_sum.
Qed.

Lemma MiniCAS_affine_identity (xs : list Qc) :
  Arr <$> mapM (λ v, MiniCAS.eval (MiniCAS.bind1 "x" v) (MiniCAS.Var "x")) xs
  = Return (Arr ((λ v, 1 * v + 0) <$> xs)).
Proof.
  rewrite (mapM_ext_outcome _ (λ v, Return (1 * v + 0))).
  - by rewrite mapM_Return.
  - intros v. simpl. f_equal. ring.
Qed.

(** X7 at a concrete input.
    The integrand [x] over [0, 1]: the midpoint rule returns 1/2. *)
Lemma _handle_riemann_exact_on_affine_example :
  _handle_riemann (H := MiniCAS.cas) "x" 0 1 "midpoint"
  = Return {[ "result" := VFloat (1 * (1 * 1 - 0 * 0) / 2 + 0 * (1 - 0));
              "method" := VStr "midpoint";
              "interval" := VList [0; 1] ]}.
Proof.
  eapply (_handle_riemann_exact_on_affine (H := MiniCAS.cas) "x" 0 1
            (MiniCAS.Var "x") _ 1 0 "midpoint").
  - reflexivity.
  - reflexivity.
  - intros xs. cbv beta. apply MiniCAS_affine_identity.
  - by right.
Defined.

(** ** The sums of the core functions *)

(** X8.
    [lebesgue_integral] is the left Riemann sum under another name: on
    every input, and for every behaviour of the evaluator, it returns what
    [riemann_sum] returns for [method="left"]. *)
Theorem lebesgue_integral_is_left_riemann_sum `{CAS}
    (expression variable : string) (a b : Qc) (n : Z) :
  lebesgue_integral expression variable a b n
  = riemann_sum expression variable a b n "left".
Proof.
  unfold lebesgue_integral, riemann_sum.
  destruct (sympify (PyStr expression)) as [e|?]; [|done].
  rewrite !bind_Return.
  destruct (symbols (PyStr variable)) as [x|?]; [|done].
  rewrite !bind_Return.
  destruct (py_truediv (b - a) (Qc_of_Z n)) as [delta_x|?]; [|done].
  rewrite !bind_Return.
  by destruct (decide ("left" = "left")).
Qed.

Lemma range2_shift (n : Z) : range2 1 (n + 1) = (λ i, i + 1)%Z <$> range n.
Proof.
  unfold range2, range. replace (n + 1 - 1)%Z with n by lia.
  rewrite <- list_fmap_compose. apply list_fmap_ext. intros _ i _. simpl. lia.
Qed.

Lemma range_nonempty (n : Z) : (0 < n)%Z → range n ≠ [].
Proof.
  intros Hn E. apply (f_equal length) in E. rewrite length_range in E.
  simpl in E. lia.
Qed.

Lemma fmap_nonempty {A B} (g : A → B) (l : list A) : l ≠ [] → g <$> l ≠ [].
Proof. by destruct l. Qed.

(** The terms of a core sum, for an expression evaluated point by
    point. *)
Lemma riemann_terms_pointwise `{CAS} (e : expr) (x : symbol) (fq : Qc → Qc)
    (delta_x : Qc) (point : Z → Qc) (l : list Z) :
  (∀ v, subs e x v = Return (fq v)) →
  mapM (λ p, v ← subs e x p; Return (v * delta_x)) (point <$> l)
  = Return ((λ i, fq (point i) * delta_x) <$> l).
Proof.
  intros Hsubs.
  rewrite (mapM_ext_outcome _ (λ p, Return (fq p * delta_x))).
  - by rewrite mapM_Return, <- list_fmap_compose.
  - intros p. by rewrite Hsubs.
Qed.

Lemma take_range (k n : Z) : (k ≤ n)%Z → take (Z.to_nat k) (range n) = range k.
Proof.
  intros Hk. unfold range. rewrite <- fmap_take, take_seq. do 2 f_equal. lia.
Qed.

Lemma sum_upto_split_first (n : Z) (g : Z → Qc) :
  (0 < n)%Z → sum_upto n g = g 0%Z + sum_upto (n - 1) (λ i, g (i + 1)%Z).
Proof.
  intros Hn. unfold sum_upto. replace n with (n - 1 + 1)%Z at 1 by lia.
  rewrite range_succ_cons by lia. csimpl. by rewrite <- list_fmap_compose.
Qed.

Lemma sum_upto_split_last (n : Z) (g : Z → Qc) :
  (0 < n)%Z → sum_upto n g = sum_upto (n - 1) g + g (n - 1)%Z.
Proof.
  intros Hn. replace n with (n - 1 + 1)%Z at 1 by lia.
  apply sum_upto_succ. lia.
Qed.

(** What the core [riemann_sum] prints, for an expression evaluated
    point by point and [n > 0]. *)
Lemma riemann_sum_values `{CAS} (expression variable : string) (a b : Qc)
    (n : Z) (e : expr) (x : symbol) (fq : Qc → Qc) :
  (0 < n)%Z →
  sympify (PyStr expression) = Return e →
  symbols (PyStr variable) = Return x →
  (∀ v, subs e x v = Return (fq v)) →
  riemann_sum expression variable a b n "left"
  = Return (str_float (left_riemann_sum fq a b n))
  ∧ riemann_sum expression variable a b n "right"
    = Return (str_float (right_riemann_sum fq a b n))
  ∧ riemann_sum expression variable a b n "midpoint"
    = Return (str_float (midpoint_riemann_sum fq a b n))
  ∧ riemann_sum expression variable a b n "trapezoid"
    = Return (str_float (trapezoid_riemann_sum fq a b n)).
Proof.
  intros Hn Hs Hx Hsubs.
  assert (Hne : ∀ g : Z → Qc, g <$> range n ≠ []).
  { intros g. by apply fmap_nonempty, range_nonempty. }
  split_and!.
  - unfold riemann_sum. run Hs. run Hx.
    rewrite py_truediv_nonzero, bind_Return by lia.
    destruct (decide ("left" = "left")) as [_|?]; [|done].
    rewrite (riemann_terms_pointwise e x fq), bind_Return, try_except_Return by done.
    by rewrite py_sum_nonempty by apply Hne.
  - unfold riemann_sum. run Hs. run Hx.
    rewrite py_truediv_nonzero, bind_Return by lia.
    destruct (decide ("right" = "left")) as [?|_]; [done|].
    destruct (decide ("right" = "right")) as [_|?]; [|done].
    rewrite (riemann_terms_pointwise e x fq), bind_Return, try_except_Return by done.
    rewrite py_sum_nonempty.
    2: { rewrite range2_shift. apply fmap_nonempty, fmap_nonempty.
         by apply range_nonempty. }
    by rewrite range2_shift, <- list_fmap_compose.
  - unfold riemann_sum. run Hs. run Hx.
    rewrite py_truediv_nonzero, bind_Return by lia.
    destruct (decide ("midpoint" = "left")) as [?|_]; [done|].
    destruct (decide ("midpoint" = "right")) as [?|_]; [done|].
    destruct (decide ("midpoint" = "midpoint")) as [_|?]; [|done].
    rewrite (riemann_terms_pointwise e x fq), bind_Return, try_except_Return by done.
    by rewrite py_sum_nonempty by apply Hne.
  - unfold riemann_sum. run Hs. run Hx.
    rewrite py_truediv_nonzero, bind_Return by lia.
    destruct (decide ("trapezoid" = "left")) as [?|_]; [done|].
    destruct (decide ("trapezoid" = "right")) as [?|_]; [done|].
    destruct (decide ("trapezoid" = "midpoint")) as [?|_]; [done|].
    destruct (decide ("trapezoid" = "trapezoid")) as [_|?]; [|done].
    set (dx := (b - a) / Qc_of_Z n).
    set (pt := λ i : Z, a + Qc_of_Z i * dx).
    assert (H0 : getitem (pt <$> range (n + 1)) 0 = Return (pt 0%Z)).
    { unfold getitem. rewrite range_succ_cons by lia. done. }
    assert (Hlast : getitem (pt <$> range (n + 1)) n = Return (pt n)).
    { unfold getitem. rewrite range_succ, fmap_app by lia.
      rewrite lookup_app_r by (rewrite length_fmap, length_range; lia).
      rewrite length_fmap, length_range, Nat.sub_diag. done. }
    run H0. run Hsubs. cbv zeta.
    change (drop 1 (pt <$> range (n + 1))) with (tail (pt <$> range (n + 1))).
    rewrite slice_tail_points, <- fmap_take by lia.
    rewrite take_range by lia.
    rewrite (mapM_ext_outcome _ (λ p, Return (fq p))) by done.
    rewrite mapM_Return, bind_Return. run Hlast. run Hsubs.
    rewrite try_except_Return. cbn [str_pynum]. do 2 f_equal.
    rewrite <- list_fmap_compose.
    assert (Hinner : pynum_value (py_sum ((fq ∘ (λ i, pt (i + 1)%Z)) <$> range (n - 1)))
                     = sum_upto (n - 1) (λ i, fq (pt (i + 1)%Z))).
    { destruct (decide (n = 1%Z)) as [->|Hn1]; [by apply Qc_is_canon|].
      rewrite py_sum_nonempty; [done|]. apply fmap_nonempty, range_nonempty. lia. }
    rewrite Hinner, trapezoid_riemann_sum_mean.
    unfold right_riemann_sum, left_riemann_sum. cbv zeta. fold dx.
    rewrite !sum_upto_scale.
    change (partition_point a b n) with pt.
    rewrite (sum_upto_split_first n (λ i, fq (pt i))) by done.
    rewrite (sum_upto_split_last n (λ i, fq (pt (i + 1)%Z))) by done.
    replace (n - 1 + 1)%Z with n by lia. field. done.
Qed.

(** X9.
    The core [riemann_sum] and the handler [_handle_riemann] compute the
    same four rules.  For an integrand that both evaluators compute point
    by point and [n > 0], [riemann_sum] prints the left, right, midpoint
    and trapezoid sum over the [n] subintervals; with [n = 999] these are
    the numbers [_handle_riemann] returns for the same method.  The
    trapezoid value is the mean of the left and the right one. *)
Theorem riemann_sum_rules `{CAS} (expression variable : string) (a b : Qc)
    (n : Z) (e : expr) (x : symbol) (f : list Qc → outcome ndarray)
    (fq : Qc → Qc) :
  (0 < n)%Z →
  sympify (PyStr expression) = Return e →
  symbols (PyStr variable) = Return x →
  lambdify1 e = Return f →
  (∀ v, subs e x v = Return (fq v)) →
  (∀ xs, f xs = Return (Arr (fq <$> xs))) →
  riemann_sum expression variable a b n "left"
  = Return (str_float (left_riemann_sum fq a b n))
  ∧ riemann_sum expression variable a b n "right"
    = Return (str_float (right_riemann_sum fq a b n))
  ∧ riemann_sum expression variable a b n "midpoint"
    = Return (str_float (midpoint_riemann_sum fq a b n))
  ∧ riemann_sum expression variable a b n "trapezoid"
    = Return (str_float (trapezoid_riemann_sum fq a b n))
  ∧ trapezoid_riemann_sum fq a b n
    = (left_riemann_sum fq a b n + right_riemann_sum fq a b n) / 2
  ∧ result_of (_handle_riemann expression a b "left") "result"
    = Some (VFloat (left_riemann_sum fq a b 999))
  ∧ result_of (_handle_riemann expression a b "right") "result"
    = Some (VFloat (right_riemann_sum fq a b 999))
  ∧ result_of (_handle_riemann expression a b "midpoint") "result"
    = Some (VFloat (midpoint_riemann_sum fq a b 999))
  ∧ result_of (_handle_riemann expression a b "trapezoid") "result"
    = Some (VFloat (trapezoid_riemann_sum fq a b 999)).
Proof.
  intros Hn Hs Hx Hl Hsubs Hf.
  destruct (riemann_with_points_rules expression a b 999 e f fq)
    as (Hleft & Hright & Hmid & Htrap); try done.
  destruct (riemann_sum_values expression variable a b n e x fq)
    as (Hcl & Hcr & Hcm & Hct); try done.
  split_and!; try done.
  - rewrite trapezoid_riemann_sum_mean. f_equal. ring.
  - unfold _handle_riemann. change 1000%Z with (999 + 1)%Z. by rewrite Hleft.
  - unfold _handle_riemann. change 1000%Z with (999 + 1)%Z. by rewrite Hright.
  - unfold _handle_riemann. change 1000%Z with (999 + 1)%Z. by rewrite Hmid.
  - unfold _handle_riemann. change 1000%Z with (999 + 1)%Z. by rewrite Htrap.
Qed.

(** X9 at a concrete input.
    The rules on [x**2] over [0, 1] with 100 subintervals, the input of
    the unit test. *)
Lemma riemann_sum_rules_example :
  riemann_sum (H := MiniCAS.cas) "x**2" "x" 0 1 100 "left"
  = Return (str_float (CAS := MiniCAS.cas) (left_riemann_sum (λ v, v ^ 2) 0 1 100))
  ∧ riemann_sum (H := MiniCAS.cas) "x**2" "x" 0 1 100 "right"
    = Return (str_float (CAS := MiniCAS.cas) (right_riemann_sum (λ v, v ^ 2) 0 1 100))
  ∧ riemann_sum (H := MiniCAS.cas) "x**2" "x" 0 1 100 "midpoint"
    = Return (str_float (CAS := MiniCAS.cas) (midpoint_riemann_sum (λ v, v ^ 2) 0 1 100))
  ∧ riemann_sum (H := MiniCAS.cas) "x**2" "x" 0 1 100 "trapezoid"
    = Return (str_float (CAS := MiniCAS.cas) (trapezoid_riemann_sum (λ v, v ^ 2) 0 1 100))
  ∧ trapezoid_riemann_sum (λ v, v ^ 2) 0 1 100
    = (left_riemann_sum (λ v, v ^ 2) 0 1 100
       + right_riemann_sum (λ v, v ^ 2) 0 1 100) / 2
  ∧ result_of (_handle_riemann (H := MiniCAS.cas) "x**2" 0 1 "left") "result"
    = Some (VFloat (left_riemann_sum (λ v, v ^ 2) 0 1 999))
  ∧ result_of (_handle_riemann (H := MiniCAS.cas) "x**2" 0 1 "right") "result"
    = Some (VFloat (right_riemann_sum (λ v, v ^ 2) 0 1 999))
  ∧ result_of (_handle_riemann (H := MiniCAS.cas) "x**2" 0 1 "midpoint") "result"
    = Some (VFloat (midpoint_riemann_sum (λ v, v ^ 2) 0 1 999))
  ∧ result_of (_handle_riemann (H := MiniCAS.cas) "x**2" 0 1 "trapezoid") "result"
    = Some (VFloat (trapezoid_riemann_sum (λ v, v ^ 2) 0 1 999)).
Proof.
  eapply (riemann_sum_rules (H := MiniCAS.cas) "x**2" "x" 0 1 100
            (MiniCAS.Pow (MiniCAS.Var "x") 2) "x").
  - lia.
  - reflexivity.
  - reflexivity.
  - reflexivity.
  - reflexivity.
  - intros xs. cbv beta. by apply MiniCAS_pointwise.
Defined.

Lemma darboux_terms_pointwise `{CAS} (pick : Qc → Qc → Qc) (e : expr)
    (x : symbol) (fq : Qc → Qc) (a b : Qc) (n : Z) :
  (∀ v, subs e x v = Return (fq v)) →
  darboux_terms pick e x a ((b - a) / Qc_of_Z n) n
  = Return ((λ i, pick (fq (partition_point a b n i))
                       (fq (partition_point a b n (i + 1)))
                  * ((b - a) / Qc_of_Z n)) <$> range n).
Proof.
  intros Hsubs. unfold darboux_terms.
  rewrite (mapM_ext_outcome _
    (λ iv : Qc * Qc, Return (pick (fq iv.1) (fq iv.2) * ((b - a) / Qc_of_Z n)))).
  2: { intros iv. by rewrite !Hsubs. }
  rewrite mapM_Return, <- list_fmap_compose. f_equal.
  apply list_fmap_ext. intros _ i _. simpl. unfold partition_point.
  by rewrite Z2Qc_inj_add, Z2Qc_inj_1.
Qed.

(** X10.
    A nondecreasing integrand under the core [darboux_sum].  For [a ≤ b],
    [n > 0] and an expression that is nondecreasing on the interval, the
    upper sum is what [riemann_sum] prints for [method="right"] and the
    lower sum what it prints for [method="left"]: the right and the left
    Riemann sum. *)
Theorem darboux_sum_monotone `{CAS} (expression variable : string) (a b : Qc)
    (n : Z) (e : expr) (x : symbol) (fq : Qc → Qc) :
  a ≤ b → (0 < n)%Z →
  sympify (PyStr expression) = Return e →
  symbols (PyStr variable) = Return x →
  (∀ v, subs e x v = Return (fq v)) →
  (∀ u v, a ≤ u → u ≤ v → v ≤ b → fq u ≤ fq v) →
  darboux_sum expression variable a b n "upper"
  = Return (str_float (right_riemann_sum fq a b n))
  ∧ darboux_sum expression variable a b n "upper"
    = riemann_sum expression variable a b n "right"
  ∧ darboux_sum expression variable a b n "lower"
    = Return (str_float (left_riemann_sum fq a b n))
  ∧ darboux_sum expression variable a b n "lower"
    = riemann_sum expression variable a b n "left".
Proof.
  intros Hab Hn Hs Hx Hsubs Hmono.
  destruct (riemann_sum_values expression variable a b n e x fq)
    as (Hleft & Hright & _); try done.
  rewrite Hleft, Hright.
  assert (Hupper : darboux_sum expression variable a b n "upper"
                   = Return (str_float (right_riemann_sum fq a b n))).
  { unfold darboux_sum. run Hs. run Hx.
    rewrite py_truediv_nonzero, bind_Return by lia.
    destruct (decide ("upper" = "upper")) as [_|?]; [|done].
    rewrite (darboux_terms_pointwise _ e x fq), bind_Return, try_except_Return
      by done.
    rewrite py_sum_nonempty by (by apply fmap_nonempty, range_nonempty).
    cbn [str_pynum]. do 2 f_equal. unfold right_riemann_sum, sum_upto. f_equal.
    apply list_fmap_ext. intros _ i Hi%list_elem_of_lookup_2%elem_of_range.
    destruct (partition_point_bounds a b n i Hab Hi) as (H0 & H1 & H2).
    rewrite Qc_max_r; [done|]. by apply Hmono. }
  assert (Hlower : darboux_sum expression variable a b n "lower"
                   = Return (str_float (left_riemann_sum fq a b n))).
  { unfold darboux_sum. run Hs. run Hx.
    rewrite py_truediv_nonzero, bind_Return by lia.
    destruct (decide ("lower" = "upper")) as [?|_]; [done|].
    destruct (decide ("lower" = "lower")) as [_|?]; [|done].
    rewrite (darboux_terms_pointwise _ e x fq), bind_Return, try_except_Return
      by done.
    rewrite py_sum_nonempty by (by apply fmap_nonempty, range_nonempty).
    cbn [str_pynum]. do 2 f_equal. unfold left_riemann_sum, sum_upto. f_equal.
    apply list_fmap_ext. intros _ i Hi%list_elem_of_lookup_2%elem_of_range.
    destruct (partition_point_bounds a b n i Hab Hi) as (H0 & H1 & H2).
    rewrite Qc_min_l; [done|]. by apply Hmono. }
  by rewrite Hupper, Hlower.
Qed.

(** X10 at a concrete input.
    [x**2] on [0, 1] with 100 subintervals, the input of the unit
    test. *)
Lemma darboux_sum_monotone_example :
  darboux_sum (H := MiniCAS.cas) "x**2" "x" 0 1 100 "upper"
  = Return (str_float (CAS := MiniCAS.cas) (right_riemann_sum (λ v, v ^ 2) 0 1 100))
  ∧ darboux_sum (H := MiniCAS.cas) "x**2" "x" 0 1 100 "upper"
    = riemann_sum (H := MiniCAS.cas) "x**2" "x" 0 1 100 "right"
  ∧ darboux_sum (H := MiniCAS.cas) "x**2" "x" 0 1 100 "lower"
    = Return (str_float (CAS := MiniCAS.cas) (left_riemann_sum (λ v, v ^ 2) 0 1 100))
  ∧ darboux_sum (H := MiniCAS.cas) "x**2" "x" 0 1 100 "lower"
    = riemann_sum (H := MiniCAS.cas) "x**2" "x" 0 1 100 "left".
Proof.
  eapply (darboux_sum_monotone (H := MiniCAS.cas) "x**2" "x" 0 1 100
            (MiniCAS.Pow (MiniCAS.Var "x") 2) "x").
  - done.
  - lia.
  - reflexivity.
  - reflexivity.
  - reflexivity.
  - intros u v Hu Huv _. by apply Qc_square_le.
Defined.

(** ** The core [ito_integral] *)

(** A loop that adds one term per index to a running sum that starts at
    the int [0]. *)
Lemma for_each_running_sum (body : Z → pynum → outcome pynum) (gq : Z → Qc)
    (l : list Z) (s : pynum) :
  (∀ i acc, body i acc = Return (PFloat (pynum_value acc + gq i))) →
  for_each l s body
  = Return (match l with
            | [] => s
            | _ => PFloat (pynum_value s + np_sum (gq <$> l))
            end).
Proof.
  intros Hg. revert s. induction l as [|i l IH]; intros s; [done|].
  cbn [for_each]. rewrite Hg, !bind_Return, IH.
  destruct l as [|j l]; csimpl; do 2 f_equal; ring.
Qed.

Lemma lebesgue_integral_left_value `{CAS} (expression variable : string)
    (a b : Qc) (n : Z) (e : expr) (x : symbol) (fq : Qc → Qc) :
  (0 < n)%Z →
  sympify (PyStr expression) = Return e →
  symbols (PyStr variable) = Return x →
  (∀ v, subs e x v = Return (fq v)) →
  lebesgue_integral expression variable a b n
  = Return (str_float (left_riemann_sum fq a b n)).
Proof.
  intros Hn Hs Hx Hsubs. unfold lebesgue_integral. run Hs. run Hx.
  rewrite py_truediv_nonzero, bind_Return by lia.
  rewrite (riemann_terms_pointwise e x fq), bind_Return, try_except_Return by done.
  by rewrite py_sum_nonempty by (by apply fmap_nonempty, range_nonempty).
Qed.

(** X11.
    [ito_integral] draws no increments: every step weighs the integrand
    at the left end of the step with the same number [sqrt(delta_t)].  For
    an expression evaluated point by point and [n > 0] it prints the sum
    of the integrand over the left ends times [sqrt(delta_t)], where
    [lebesgue_integral] prints the same sum times [delta_t]. *)
Theorem ito_integral_is_a_weighted_left_sum `{CAS} `{SympySqrt}
    (expression variable : string) (a b : Qc) (n : Z)
    (e : expr) (x : symbol) (fq : Qc → Qc) :
  (0 < n)%Z →
  sympify (PyStr expression) = Return e →
  symbols (PyStr variable) = Return x →
  (∀ v, subs e x v = Return (fq v)) →
  let delta_t := (b - a) / Qc_of_Z n in
  let total := sum_upto n (λ i, fq (partition_point a b n i)) in
  ito_integral expression variable a b n
  = Return (str_float (total * sym_sqrt delta_t))
  ∧ lebesgue_integral expression variable a b n
    = Return (str_float (total * delta_t)).
Proof.
  intros Hn Hs Hx Hsubs. cbv zeta. split.
  - unfold ito_integral. run Hs. run Hx.
    rewrite py_truediv_nonzero, bind_Return by lia. cbv zeta.
    rewrite (for_each_running_sum _
      (λ i, fq (partition_point a b n i) * sym_sqrt ((b - a) / Qc_of_Z n))).
    2: { intros i acc. by rewrite Hsubs. }
    rewrite bind_Return, try_except_Return.
    destruct (range n) as [|i l] eqn:E; [by apply range_nonempty in E|].
    cbn [str_pynum]. rewrite <- E. do 2 f_equal.
    change (np_sum ((λ i, fq (partition_point a b n i)
                          * sym_sqrt ((b - a) / Qc_of_Z n)) <$> range n))
      with (sum_upto n (λ i, fq (partition_point a b n i)
                             * sym_sqrt ((b - a) / Qc_of_Z n))).
    rewrite sum_upto_scale. change (pynum_value (PInt 0)) with (Qc_of_Z 0).
    rewrite Z2Qc_inj_0. ring.
  - rewrite (lebesgue_integral_left_value expression variable a b n e x fq) by done.
    unfold left_riemann_sum. cbv zeta. by rewrite sum_upto_scale.
Qed.

(** X11 at a concrete input.
    [x**2] over [0, 1] with 4 steps: the sum of the integrand over the
    left ends is 7/8, the weight [sqrt(1/4)] is 1/2. *)
Lemma ito_integral_is_a_weighted_left_sum_example :
  ito_integral (H := MiniCAS.cas) (H0 := exact_sqrt) "x**2" "x" 0 1 4
  = Return (str_float (CAS := MiniCAS.cas)
              (sum_upto 4 (λ i, partition_point 0 1 4 i ^ 2)
               * MiniCAS.sqrt_floor ((1 - 0) / Qc_of_Z 4)))
  ∧ lebesgue_integral (H := MiniCAS.cas) "x**2" "x" 0 1 4
    = Return (str_float (CAS := MiniCAS.cas)
                (sum_upto 4 (λ i, partition_point 0 1 4 i ^ 2)
                 * ((1 - 0) / Qc_of_Z 4))).
Proof.
  eapply (ito_integral_is_a_weighted_left_sum (H := MiniCAS.cas) (H0 := exact_sqrt)
            "x**2" "x" 0 1 4 (MiniCAS.Pow (MiniCAS.Var "x") 2) "x" (λ v, v ^ 2)).
  - lia.
  - reflexivity.
  - reflexivity.
  - reflexivity.
Defined.

(** ** [linear_regression] on points of a line *)

Lemma np_sum_affine (m c : Qc) (xs : list Qc) :
  np_sum ((λ v, m * v + c) <$> xs)
  = m * np_sum xs + c * Qc_of_Z (Z.of_nat (length xs)).
Proof.
  induction xs as [|x xs IH]; csimpl.
  - change (Z.of_nat 0) with 0%Z. rewrite Z2Qc_inj_0. ring.
  - rewrite IH, Nat2Z.inj_succ, <- Z.add_1_r, Z2Qc_inj_add, Z2Qc_inj_1. ring.
Qed.

Lemma np_sum_products_affine (m c : Qc) (xs : list Qc) :
  np_sum (zip_with Qcmult xs ((λ v, m * v + c) <$> xs))
  = m * np_sum ((λ v, v * v) <$> xs) + c * np_sum xs.
Proof. induction xs as [|x xs IH]; csimpl; [ring|]. rewrite IH. ring. Qed.

Lemma np_sum_squared_residuals (ys : list Qc) :
  np_sum ((λ v, v * v) <$> zip_with Qcminus ys ys) = 0.
Proof. induction ys as [|y ys IH]; csimpl; [done|]. rewrite IH. ring. Qed.

Lemma np_sum_squared_deviations (xs : list Qc) (mu : Qc) :
  np_sum ((λ v, (v - mu) * (v - mu)) <$> xs)
  = np_sum ((λ v, v * v) <$> xs) - 2 * mu * np_sum xs
    + Qc_of_Z (Z.of_nat (length xs)) * (mu * mu).
Proof.
  induction xs as [|x xs IH]; csimpl.
  - change (Z.of_nat 0) with 0%Z. rewrite Z2Qc_inj_0. ring.
  - rewrite IH, Nat2Z.inj_succ, <- Z.add_1_r, Z2Qc_inj_add, Z2Qc_inj_1. ring.
Qed.

(** X12.
    Data on a line is fitted exactly.  For abscissas that are not all
    equal (the denominator of the slope is not 0) and ordinates [m x + c]
    with [m ≠ 0], [linear_regression] returns the slope [m], the
    intercept [c] and [r_squared = 1]; the total sum of squares it divides
    by is not 0. *)
Theorem linear_regression_recovers_a_line (x_values : list Qc) (m c : Qc) :
  let n := Qc_of_Z (Z.of_nat (length x_values)) in
  let y_values := (λ v, m * v + c) <$> x_values in
  n * np_sum ((λ v, v * v) <$> x_values) - np_sum x_values * np_sum x_values ≠ 0 →
  m ≠ 0 →
  linear_regression x_values y_values
  = Return {[ "slope" := VFloat m;
              "intercept" := VFloat c;
              "r_squared" := VFloat 1 ]}
  ∧ np_sum ((λ v, (v - np_mean y_values) * (v - np_mean y_values)) <$> y_values) ≠ 0.
Proof.
  intros n y_values Hd Hm.
  assert (Hn : n ≠ 0).
  { intros Hn. apply Hd. unfold n in *.
    destruct x_values as [|x xs]; [by apply Qc_is_canon|].
    exfalso. revert Hn. apply Qc_of_Z_nonzero. simpl length. lia. }
  split.
  - unfold linear_regression.
    destruct (decide (length x_values ≠ length y_values)) as [Hne|_].
    { exfalso. apply Hne. unfold y_values. by rewrite length_fmap. }
    cbv zeta. fold n. unfold y_values.
    rewrite np_sum_products_affine, np_sum_affine. fold n.
    set (Sx := np_sum x_values) in *.
    set (Sxx := np_sum ((λ v, v * v) <$> x_values)) in *.
    assert (Hslope : (n * (m * Sxx + c * Sx) - Sx * (m * Sx + c * n))
                     / (n * Sxx - Sx * Sx) = m) by (by field).
    rewrite Hslope.
    assert (Hint : (m * Sx + c * n - m * Sx) / n = c) by (by field).
    rewrite Hint, np_sum_squared_residuals.
    match goal with |- context [1 - 0 / ?d] =>
      replace (1 - 0 / d) with 1 by (unfold Qcdiv; ring) end.
    done.
  - unfold np_mean, y_values. rewrite length_fmap. fold n.
    rewrite <- list_fmap_compose, np_sum_affine. fold n.
    set (Sx := np_sum x_values) in *.
    set (Sxx := np_sum ((λ v, v * v) <$> x_values)) in *.
    rewrite (list_fmap_ext _ (λ v, (m * m) * ((v - Sx / n) * (v - Sx / n))) x_values).
    2: { intros _ v _. simpl. field. done. }
    rewrite (list_fmap_compose (λ v, (v - Sx / n) * (v - Sx / n)) (λ v, m * m * v)).
    assert (Hscale : ∀ l k, np_sum ((λ v, k * v) <$> l) = k * np_sum l).
    { intros l k. induction l as [|a l IH]; csimpl; [ring|]. rewrite IH. ring. }
    rewrite Hscale, np_sum_squared_deviations. fold n Sx Sxx.
    intros Hz. apply Hd.
    apply Qcmult_integral in Hz as [Hz|Hz].
    { by apply Qcmult_integral in Hz as [?|?]. }
    replace (n * Sxx - Sx * Sx)
      with (n * (Sxx - 2 * (Sx / n) * Sx + n * (Sx / n * (Sx / n))))
      by (by field).
    rewrite Hz. ring.
Qed.

(** X12 at a concrete input.
    The points (0, 1), (1, 3), (2, 5) of the line [y = 2 x + 1]. *)
Lemma linear_regression_recovers_a_line_example :
  let x_values := [0; 1; Qc_of_Z 2] in
  let m := Qc_of_Z 2 in
  let y_values := (λ v, m * v + 1) <$> x_values in
  linear_regression x_values y_values
  = Return {[ "slope" := VFloat m;
              "intercept" := VFloat 1;
              "r_squared" := VFloat 1 ]}
  ∧ np_sum ((λ v, (v - np_mean y_values) * (v - np_mean y_values)) <$> y_values) ≠ 0.
Proof.
  intros x_values m y_values.
  apply (linear_regression_recovers_a_line x_values m 1); by vm_compute.
Defined.

(** ** [numeric_derivative] *)

(** X13.
    The central difference quotient is exact on polynomials of degree at
    most 2: for [f(t) = a t^2 + b t + c] and every step [h ≠ 0] the tool
    returns the derivative [2 a x + b]. *)
Theorem numeric_derivative_exact_on_quadratics `{Scipy} (function : string)
    (x h a b c : Qc) :
  h ≠ 0 →
  (∀ t, py_eval function t = Return (a * (t * t) + b * t + c)) →
  numeric_derivative function x h = Return (2 * a * x + b).
Proof.
  intros Hh Heval. unfold numeric_derivative. cbv zeta.
  rewrite !Heval, !bind_Return. unfold py_truediv.
  destruct (decide (2 * h = 0)) as [Hz|_].
  { by apply Qcmult_integral in Hz as [?|?]. }
  f_equal. field. done.
Qed.

(** X13 at a concrete input.
    [x**2] at 3 with step 1/2: the derivative 6. *)
Lemma numeric_derivative_exact_on_quadratics_example :
  numeric_derivative (H := MiniCAS.scipy) "x**2" (Qc_of_Z 3) (Q2Qc (1 # 2))
  = Return (2 * 1 * Qc_of_Z 3 + 0).
Proof.
  apply (numeric_derivative_exact_on_quadratics (H := MiniCAS.scipy)
           "x**2" (Qc_of_Z 3) (Q2Qc (1 # 2)) 1 0 0).
  - done.
  - intros t. simpl. f_equal. ring.
Defined.

(** ** Option pricing *)

Lemma py_truediv_ne (x y : Qc) : y ≠ 0 → py_truediv x y = Return (x / y).
Proof. intros Hy. unfold py_truediv. by destruct (decide (y = 0)). Qed.

(** X14.
    Put-call parity.  For positive prices [S] and [K], a volatility term
    [sigma sqrt(T) ≠ 0] (the inputs on which no quotient of the formulas
    has a zero divisor) and a distribution function with [cdf(-z) = 1 -
    cdf(z)], the prices the tool [black_scholes] returns for a call and
    for a put on the same inputs differ by [S - K exp(-r T)]. *)
Theorem black_scholes_put_call_parity `{NumpyRandom} `{ScipyStats}
    (S K T r sigma : Qc) :
  0 < S → 0 < K → sigma * np_sqrt T ≠ 0 →
  (∀ z, norm_cdf (- z) = 1 - norm_cdf z) →
  ∃ call put : Qc,
    result_of (black_scholes S K T r sigma "call") "price" = Some (VFloat call)
    ∧ result_of (black_scholes S K T r sigma "put") "price" = Some (VFloat put)
    ∧ call - put = S - K * np_exp (- r * T).
Proof.
  intros HS HK%Qclt_not_eq%not_eq_sym Hvol Hsym. unfold black_scholes.
  rewrite py_truediv_ne, !bind_Return by done. cbv zeta.
  change (lower "call") with "call". change (lower "put") with "put".
  destruct (decide ("call" = "call")) as [_|?]; [|done].
  destruct (decide ("put" = "call")) as [?|_]; [done|].
  destruct (decide ("put" = "put")) as [_|?]; [|done].
  rewrite !bind_Return. unfold result_of. rewrite !lookup_insert_eq.
  eexists _, _. split_and!; [done|done|].
  rewrite !Hsym. ring.
Qed.

(** X14 at a concrete input.
    A call and a put on S = 100, K = 100, T = 1, r = 0, sigma = 1. *)
Lemma black_scholes_put_call_parity_example :
  ∃ call put : Qc,
    result_of (black_scholes (H := MiniCAS.rng) (H0 := MiniStats.stats)
                 (Qc_of_Z 100) (Qc_of_Z 100) 1 0 1 "call") "price"
    = Some (VFloat call)
    ∧ result_of (black_scholes (H := MiniCAS.rng) (H0 := MiniStats.stats)
                   (Qc_of_Z 100) (Qc_of_Z 100) 1 0 1 "put") "price"
      = Some (VFloat put)
    ∧ call - put
      = Qc_of_Z 100 - Qc_of_Z 100 * np_exp (ScipyStats := MiniStats.stats) (- 0 * 1).
Proof.
  apply (black_scholes_put_call_parity (H := MiniCAS.rng) (H0 := MiniStats.stats)
           (Qc_of_Z 100) (Qc_of_Z 100) 1 0 1).
  - done.
  - done.
  - done.
  - intros z. simpl. field. done.
Defined.

(** X15.
    The tool [greeks] returns the five Greeks of [black_scholes] and no
    price.  On the same inputs (positive [S] and [K], [sigma sqrt(T) ≠
    0]) the call and the put have the same gamma and the same vega, and
    their deltas differ by 1. *)
Theorem greeks_of_call_and_put `{NumpyRandom} `{ScipyStats}
    (S K T r sigma : Qc) :
  0 < S → 0 < K → sigma * np_sqrt T ≠ 0 →
  ∃ call put : response,
    greeks S K T r sigma "call" = Return call
    ∧ greeks S K T r sigma "put" = Return put
    ∧ dom call = {[ "delta"; "gamma"; "theta"; "vega"; "rho" ]}
    ∧ dom put = {[ "delta"; "gamma"; "theta"; "vega"; "rho" ]}
    ∧ (∀ key, key ≠ "price" →
         call !! key = result_of (black_scholes S K T r sigma "call") key
         ∧ put !! key = result_of (black_scholes S K T r sigma "put") key)
    ∧ call !! "gamma" = put !! "gamma"
    ∧ call !! "vega" = put !! "vega"
    ∧ ∃ delta_call delta_put : Qc,
        call !! "delta" = Some (VFloat delta_call)
        ∧ put !! "delta" = Some (VFloat delta_put)
        ∧ delta_call - delta_put = 1.
Proof.
  intros HS HK%Qclt_not_eq%not_eq_sym Hvol. unfold greeks, black_scholes.
  rewrite py_truediv_ne, !bind_Return by done. cbv zeta.
  change (lower "call") with "call". change (lower "put") with "put".
  destruct (decide ("call" = "call")) as [_|?]; [|done].
  destruct (decide ("put" = "call")) as [?|_]; [done|].
  destruct (decide ("put" = "put")) as [_|?]; [|done].
  rewrite !bind_Return. unfold py_del. rewrite !lookup_insert_eq, !bind_Return.
  rewrite !delete_insert_id by done.
  eexists _, _. split_and!; [done|done| | | | | |].
  - rewrite !dom_insert_L, dom_singleton_L. set_solver.
  - rewrite !dom_insert_L, dom_singleton_L. set_solver.
  - intros key Hkey. unfold result_of. by rewrite !(lookup_insert_ne _ "price") by done.
  - by rewrite !lookup_insert_ne, !lookup_insert_eq by done.
  - by rewrite !lookup_insert_ne, !lookup_insert_eq by done.
  - eexists _, _. rewrite !lookup_insert_eq. split_and!; [done|done|]. ring.
Qed.

(** X15 at a concrete input.
    The Greeks of a call and of a put on S = 100, K = 100, T = 1,
    r = 0, sigma = 1. *)
Lemma greeks_of_call_and_put_example :
  ∃ call put : response,
    greeks (H := MiniCAS.rng) (H0 := MiniStats.stats)
      (Qc_of_Z 100) (Qc_of_Z 100) 1 0 1 "call" = Return call
    ∧ greeks (H := MiniCAS.rng) (H0 := MiniStats.stats)
        (Qc_of_Z 100) (Qc_of_Z 100) 1 0 1 "put" = Return put
    ∧ dom call = {[ "delta"; "gamma"; "theta"; "vega"; "rho" ]}
    ∧ dom put = {[ "delta"; "gamma"; "theta"; "vega"; "rho" ]}
    ∧ (∀ key, key ≠ "price" →
         call !! key
         = result_of (black_scholes (H := MiniCAS.rng) (H0 := MiniStats.stats)
                        (Qc_of_Z 100) (Qc_of_Z 100) 1 0 1 "call") key
         ∧ put !! key
           = result_of (black_scholes (H := MiniCAS.rng) (H0 := MiniStats.stats)
                          (Qc_of_Z 100) (Qc_of_Z 100) 1 0 1 "put") key)
    ∧ call !! "gamma" = put !! "gamma"
    ∧ call !! "vega" = put !! "vega"
    ∧ ∃ delta_call delta_put : Qc,
        call !! "delta" = Some (VFloat delta_call)
        ∧ put !! "delta" = Some (VFloat delta_put)
        ∧ delta_call - delta_put = 1.
Proof.
  apply (greeks_of_call_and_put (H := MiniCAS.rng) (H0 := MiniStats.stats)
           (Qc_of_Z 100) (Qc_of_Z 100) 1 0 1); done.
Defined.

(** X16.
    The option type.  The tool [black_scholes] compares the lower-cased
    type: whenever that is [call] or [put] its price is the one the core
    [financial.black_scholes] returns for the lower-cased type, and it
    raises [ValueError] otherwise.  The core function compares the type as
    given and raises on everything but the two lower-case words, so it
    rejects ["CALL"], which the tool prices ([K ≠ 0]). *)
Theorem black_scholes_option_type `{NumpyRandom} `{ScipyStats}
    (S K T r sigma : Qc) (option_type : string) :
  K ≠ 0 →
  (lower option_type = "call" ∨ lower option_type = "put" →
     ∃ price : Qc,
       financial.black_scholes S K T r sigma (lower option_type) = Return price
       ∧ result_of (black_scholes S K T r sigma option_type) "price"
         = Some (VFloat price))
  ∧ (lower option_type ≠ "call" → lower option_type ≠ "put" →
       black_scholes S K T r sigma option_type
       = Raise (Exn ValueError "Option type must be 'call' or 'put'"))
  ∧ (option_type ≠ "call" → option_type ≠ "put" →
       financial.black_scholes S K T r sigma option_type
       = Raise (Exn ValueError "Invalid option type. Must be 'call' or 'put'.")).
Proof.
  intros HK. split_and!.
  - intros Hlow. unfold black_scholes, financial.black_scholes.
    rewrite py_truediv_ne, !bind_Return by done. cbv zeta.
    destruct Hlow as [-> | ->].
    + destruct (decide ("call" = "call")) as [_|?]; [|done].
      rewrite !bind_Return. eexists. split; [done|].
      unfold result_of. by rewrite lookup_insert_eq.
    + destruct (decide ("put" = "call")) as [?|_]; [done|].
      destruct (decide ("put" = "put")) as [_|?]; [|done].
      rewrite !bind_Return. eexists. split; [done|].
      unfold result_of. by rewrite lookup_insert_eq.
  - intros Hc Hp. unfold black_scholes.
    rewrite py_truediv_ne, !bind_Return by done. cbv zeta.
    destruct (decide (lower option_type = "call")) as [?|_]; [done|].
    by destruct (decide (lower option_type = "put")) as [?|_].
  - intros Hc Hp. unfold financial.black_scholes.
    rewrite py_truediv_ne, !bind_Return by done. cbv zeta.
    destruct (decide (option_type = "call")) as [?|_]; [done|].
    by destruct (decide (option_type = "put")) as [?|_].
Qed.

(** X16 at a concrete input.
    The type ["CALL"] with S = 100, K = 100, T = 1, r = 0, sigma = 1:
    the tool prices a call, the core function raises. *)
Lemma black_scholes_option_type_example :
  ((lower "CALL" = "call" ∨ lower "CALL" = "put" →
     ∃ price : Qc,
       financial.black_scholes (H := MiniCAS.rng) (H0 := MiniStats.stats)
         (Qc_of_Z 100) (Qc_of_Z 100) 1 0 1 (lower "CALL") = Return price
       ∧ result_of (black_scholes (H := MiniCAS.rng) (H0 := MiniStats.stats)
                      (Qc_of_Z 100) (Qc_of_Z 100) 1 0 1 "CALL") "price"
         = Some (VFloat price))
   ∧ (lower "CALL" ≠ "call" → lower "CALL" ≠ "put" →
        black_scholes (H := MiniCAS.rng) (H0 := MiniStats.stats)
          (Qc_of_Z 100) (Qc_of_Z 100) 1 0 1 "CALL"
        = Raise (Exn ValueError "Option type must be 'call' or 'put'"))
   ∧ ("CALL" ≠ "call" → "CALL" ≠ "put" →
        financial.black_scholes (H := MiniCAS.rng) (H0 := MiniStats.stats)
          (Qc_of_Z 100) (Qc_of_Z 100) 1 0 1 "CALL"
        = Raise (Exn ValueError "Invalid option type. Must be 'call' or 'put'.")))
  ∧ lower "CALL" = "call".
Proof.
  split; [|reflexivity].
  by apply (black_scholes_option_type (H := MiniCAS.rng) (H0 := MiniStats.stats)
              (Qc_of_Z 100) (Qc_of_Z 100) 1 0 1 "CALL").
Defined.

(** X17.
    The route [greeks] never answers.  [financial.greeks] has no
    [return]: it evaluates to [None] (after the division [S / K], which
    raises for [K = 0]), and the route subscripts what it got.  On every
    input the route raises: [TypeError] whenever [K ≠ 0]. *)
Theorem financial_routes_greeks_never_answers `{NumpyRandom} `{ScipyStats}
    (S K T r sigma : Qc) (option_type : string) :
  financial.greeks S K T r sigma option_type
  = (if decide (K = 0)
     then Raise (Exn ZeroDivisionError "float division by zero")
     else Return None)
  ∧ ∃ e, financial_routes.greeks S K T r sigma option_type = Raise e
         ∧ (K ≠ 0 →
            e = Exn TypeError "'NoneType' object is not subscriptable").
Proof.
  unfold financial_routes.greeks, financial.greeks, py_truediv.
  destruct (decide (K = 0)) as [HK|HK].
  - split; [done|]. eexists. split; [done|]. by intros [].
  - split; [done|]. eexists. split; [done|]. done.
Qed.

(** ** Few levels in [_handle_lebesgue] *)

Lemma np_linspace_Return (start stop : Qc) (num : Z) :
  (0 ≤ num)%Z → ∃ l, np_linspace start stop num = Return l.
Proof.
  intros Hn. unfold np_linspace.
  destruct (decide (num < 0)%Z) as [?|_]; [lia|]. by eexists.
Qed.

Lemma np_linspace_negative (start stop : Qc) (num : Z) :
  (num < 0)%Z → ∃ e, np_linspace start stop num = Raise e.
Proof.
  intros Hn. unfold np_linspace.
  destruct (decide (num < 0)%Z) as [_|?]; [|lia]. by eexists.
Qed.

(** X18.
    The number of levels is not validated.  A negative number is an
    error, whatever the integrand.  With 0 levels or 1 level there is no
    band to add up: the handler answers with result 0 for every integrand
    it can evaluate. *)
Theorem _handle_lebesgue_few_levels `{CAS} (function : string)
    (start end_ : Qc) (levels : Z) (e : expr) (f : list Qc → outcome ndarray) :
  sympify (PyStr function) = Return e →
  lambdify1 e = Return f →
  (∀ xs, xs ≠ [] → ∃ y, f xs = Return y ∧ y ≠ Arr []) →
  ((levels < 0)%Z →
     ∃ msg, _handle_lebesgue function start end_ levels
            = Return (error_response msg))
  ∧ ((0 ≤ levels ≤ 1)%Z →
       _handle_lebesgue function start end_ levels
       = Return {[ "result" := VFloat 0;
                   "levels_used" := VInt levels;
                   "domain" := VList [start; end_] ]}).
Proof.
  intros Hs Hl Hf.
  assert (Hrun : ∃ y y_min y_max,
    f (partition_point start end_ 999 <$> range (999 + 1)) = Return y
    ∧ nd_min y = Return y_min ∧ nd_max y = Return y_max).
  { destruct (Hf (partition_point start end_ 999 <$> range (999 + 1)))
      as (y & Hy & Hne); [done|].
    exists y. destruct y as [c|[|v l]]; [by eexists _, _| done | by eexists _, _]. }
  destruct Hrun as (y & y_min & y_max & Hy & Hmin & Hmax).
  split; intros Hlevels; unfold _handle_lebesgue; run Hs; run Hl;
    change 1000%Z with (999 + 1)%Z;
    rewrite (np_linspace_points start end_ 999), bind_Return by done;
    run Hy; run Hmin; run Hmax.
  - destruct (np_linspace_negative y_min y_max levels Hlevels) as [e' ->].
    rewrite bind_Raise, try_except_Raise. by eexists.
  - destruct (np_linspace_Return y_min y_max levels) as [level_values ->]; [lia|].
    rewrite bind_Return, py_truediv_nonzero, bind_Return by done.
    by rewrite range_nonpos by lia.
Qed.

(** X18 at a concrete input.
    [x**2] over [0, 1] with one level. *)
Lemma _handle_lebesgue_few_levels_example :
  ((-1 < 0)%Z →
     ∃ msg, _handle_lebesgue (H := MiniCAS.cas) "x**2" 0 1 (-1)
            = Return (error_response msg))
  ∧ ((0 ≤ 1 ≤ 1)%Z →
       _handle_lebesgue (H := MiniCAS.cas) "x**2" 0 1 1
       = Return {[ "result" := VFloat 0;
                   "levels_used" := VInt 1;
                   "domain" := VList [0; 1] ]}).
Proof.
  split.
  - apply (_handle_lebesgue_few_levels (H := MiniCAS.cas) "x**2" 0 1 (-1)
             (MiniCAS.Pow (MiniCAS.Var "x") 2) _ eq_refl eq_refl).
    intros xs Hxs. eexists. split.
    + cbv beta. by apply (MiniCAS_pointwise _ (λ v, v ^ 2)).
    + by destruct xs.
  - apply (_handle_lebesgue_few_levels (H := MiniCAS.cas) "x**2" 0 1 1
             (MiniCAS.Pow (MiniCAS.Var "x") 2) _ eq_refl eq_refl).
    intros xs Hxs. eexists. split.
    + cbv beta. by apply (MiniCAS_pointwise _ (λ v, v ^ 2)).
    + by destruct xs.
Defined.

(** ** The grid rules of [numerical_integration_methods] *)







(** ** Closed forms of the Ito sums *)

(** The mean [_handle_ito] returns, for an integrand evaluated point by
    point. *)
Lemma _handle_ito_mean `{CAS} `{NumpyRandom}
    (function : string) (start_time end_time : Qc) (paths steps : Z)
    (e : expr) (f : list Qc → list Qc → outcome ndarray)
    (fq : Qc → Qc → Qc) (dW : list (list Qc)) :
  (0 < steps)%Z → (0 < paths)%Z →
  sympify (PyStr function) = Return e →
  lambdify2 e = Return f →
  (∀ ts ws, length ts = length ws →
     ∃ y, f ts ws = Return y ∧ nd_values y (length ts) = zip_with fq ts ws) →
  random_normal 0 (np_sqrt ((end_time - start_time) / Qc_of_Z steps)) paths steps
  = Return dW →
  length dW = Z.to_nat paths →
  Forall (λ row, length row = Z.to_nat steps) dW →
  result_of (_handle_ito function start_time end_time paths steps) "mean"
  = Some (VFloat (np_sum (ito_path_sum fq start_time end_time steps <$> dW)
                  / Qc_of_Z paths)).
Proof.
  intros Hsteps Hpaths Hs Hl Hf Hrand Hrows Hcols.
  unfold _handle_ito. rewrite py_truediv_nonzero, bind_Return by lia.
  rewrite np_linspace_points, bind_Return by done.
  run Hrand. run Hs. run Hl. unfold np_zeros.
  destruct (decide (paths < 0)%Z) as [?|_]; [lia|]. rewrite bind_Return.
  pose (val := λ k : nat,
    ito_path_sum fq start_time end_time steps (nth k dW [])).
  change (range paths) with (Z.of_nat <$> seq 0 (Z.to_nat paths)).
  rewrite (for_each_fill val _ 0 (Z.to_nat paths) [] (replicate (Z.to_nat paths) 0));
    [| |done|by rewrite length_replicate].
  - rewrite bind_Return, try_except_Return. simpl.
    rewrite <- Hrows, (fmap_seq_lookup val
                        (ito_path_sum fq start_time end_time steps) dW).
    2: { intros k r Hk. unfold val. f_equal. by apply nth_lookup_Some. }
    unfold np_mean. rewrite !length_fmap, Hrows, Z2Nat.id by lia.
    by rewrite lookup_insert_eq.
  - intros k acc Hk.
    destruct (lookup_lt_is_Some_2 dW k) as [row Hrow]; [lia|].
    assert (Hlen : length row = Z.to_nat steps).
    { rewrite Forall_forall in Hcols. apply Hcols.
      by eapply list_elem_of_lookup_2. }
    unfold getrow. rewrite Nat2Z.id, !list_lookup_fmap, Hrow.
    cbn [fmap option_fmap option_map]. rewrite bind_Return.
    destruct (Hf (slice_init (partition_point start_time end_time steps
                                <$> range (steps + 1)))
                 (slice_init (0 :: np_cumsum row))) as (y & Hy & Hvalues).
    { unfold np_cumsum. rewrite slice_init_cumsum. unfold slice_init.
      rewrite slice_init_points by lia.
      by rewrite !length_fmap, length_range, length_seq. }
    run Hy. rewrite bind_Return.
    rewrite (nd_broadcast_values y
      (zip_with fq
         (slice_init (partition_point start_time end_time steps
                        <$> range (steps + 1)))
         (slice_init (0 :: np_cumsum row))) row).
    + rewrite bind_Return. do 2 f_equal. unfold val.
      rewrite (nth_lookup_Some _ _ _ _ Hrow).
      apply path_products_sum; [lia|done].
    + rewrite <- Hvalues. f_equal. unfold slice_init.
      rewrite slice_init_points by lia.
      by rewrite length_fmap, length_range.
    + rewrite length_zip_with. unfold np_cumsum.
      rewrite slice_init_cumsum. unfold slice_init.
      rewrite slice_init_points by lia.
      rewrite !length_fmap, length_range, length_seq. lia.
Qed.

Lemma wiener_app (row : list Qc) (d : Qc) (i : Z) :
  (0 ≤ i ≤ Z.of_nat (length row))%Z → wiener (row ++ [d]) i = wiener row i.
Proof.
  intros Hi. unfold wiener. by rewrite take_app_le by lia.
Qed.

Lemma increment_app (row : list Qc) (d : Qc) (i : Z) :
  (0 ≤ i < Z.of_nat (length row))%Z → increment (row ++ [d]) i = increment row i.
Proof.
  intros Hi. unfold increment. rewrite app_nth1; [done|lia].
Qed.

Lemma wiener_all (row : list Qc) : wiener row (Z.of_nat (length row)) = np_sum row.
Proof. unfold wiener. by rewrite Nat2Z.id, firstn_all. Qed.

Lemma increment_last (row : list Qc) (d : Qc) :
  increment (row ++ [d]) (Z.of_nat (length row)) = d.
Proof.
  unfold increment. rewrite Nat2Z.id, app_nth2, Nat.sub_diag; [done|lia].
Qed.

(** With the integrand 1 the Ito sum of a path is its last value
    [W_T]. *)
Lemma ito_path_sum_one (start_time end_time : Qc) (row : list Qc) :
  ito_path_sum (λ _ _, 1) start_time end_time (Z.of_nat (length row)) row
  = np_sum row.
Proof.
  unfold ito_path_sum. induction row as [|d row IH] using rev_ind; [done|].
  rewrite length_app, Nat2Z.inj_add. simpl length.
  change (Z.of_nat 1) with 1%Z.
  rewrite sum_upto_succ by lia.
  rewrite (sum_upto_ext _ _ (λ i, 1 * increment row i)).
  - rewrite IH, increment_last, np_sum_app. simpl. ring.
  - intros i Hi. by rewrite increment_app.
Qed.

(** The discrete Ito formula: with the integrand [w] the Ito sum of a
    path is [(W_T^2 - sum of the squared increments) / 2]. *)
Lemma ito_path_sum_w (start_time end_time : Qc) (row : list Qc) :
  ito_path_sum (λ _ w, w) start_time end_time (Z.of_nat (length row)) row
  = (np_sum row * np_sum row - np_sum ((λ d, d * d) <$> row)) / 2.
Proof.
  unfold ito_path_sum. induction row as [|d row IH] using rev_ind.
  { by apply Qc_is_canon. }
  rewrite length_app, Nat2Z.inj_add. simpl length.
  change (Z.of_nat 1) with 1%Z.
  rewrite sum_upto_succ by lia.
  rewrite (sum_upto_ext _ _ (λ i, wiener row i * increment row i)).
  - rewrite IH, increment_last, wiener_app, wiener_all by lia.
    rewrite fmap_app, !np_sum_app. simpl. field. done.
  - intros i Hi. by rewrite increment_app, wiener_app by lia.
Qed.

(** X20.
    Two integrands for which the Ito sums have a closed form, whatever
    the increments drawn ([steps > 0], [paths > 0]).  For the constant
    integrand [1] the mean [_handle_ito] returns is the mean of the last
    values [W_T] of the paths; for the integrand [w] it is the mean of
    [(W_T^2 - sum of the squared increments) / 2], the discrete Ito
    formula. *)
Theorem _handle_ito_closed_forms `{CAS} `{NumpyRandom}
    (one w : string) (start_time end_time : Qc) (paths steps : Z)
    (e_one e_w : expr) (f_one f_w : list Qc → list Qc → outcome ndarray)
    (dW : list (list Qc)) :
  (0 < steps)%Z → (0 < paths)%Z →
  sympify (PyStr one) = Return e_one →
  lambdify2 e_one = Return f_one →
  (∀ ts ws, f_one ts ws = Return (Scalar 1)) →
  sympify (PyStr w) = Return e_w →
  lambdify2 e_w = Return f_w →
  (∀ ts ws, length ts = length ws → f_w ts ws = Return (Arr ws)) →
  random_normal 0 (np_sqrt ((end_time - start_time) / Qc_of_Z steps)) paths steps
  = Return dW →
  length dW = Z.to_nat paths →
  Forall (λ row, length row = Z.to_nat steps) dW →
  result_of (_handle_ito one start_time end_time paths steps) "mean"
  = Some (VFloat (np_sum (np_sum <$> dW) / Qc_of_Z paths))
  ∧ result_of (_handle_ito w start_time end_time paths steps) "mean"
    = Some (VFloat
        (np_sum ((λ row, (np_sum row * np_sum row
                          - np_sum ((λ d, d * d) <$> row)) / 2) <$> dW)
         / Qc_of_Z paths)).
Proof.
  intros Hsteps Hpaths Hs1 Hl1 Hf1 Hsw Hlw Hfw Hrand Hrows Hcols.
  assert (Hsteps' : ∀ row, row ∈ dW → steps = Z.of_nat (length row)).
  { intros row Hrow. rewrite Forall_forall in Hcols.
    rewrite (Hcols row Hrow). lia. }
  split.
  - rewrite (_handle_ito_mean one _ _ _ _ e_one f_one (λ _ _, 1) dW); try done.
    + do 4 f_equal. apply list_fmap_ext.
      intros _ row Hrow%list_elem_of_lookup_2.
      rewrite (Hsteps' row Hrow). apply ito_path_sum_one.
    + intros ts ws Hlen. eexists. split; [apply Hf1|]. simpl.
      clear -Hlen. revert ws Hlen.
      induction ts as [|t ts IH]; intros [|v ws] Hlen; simpl in *; try done.
      f_equal. apply IH. lia.
  - rewrite (_handle_ito_mean w _ _ _ _ e_w f_w (λ _ v, v) dW); try done.
    + do 4 f_equal. apply list_fmap_ext.
      intros _ row Hrow%list_elem_of_lookup_2.
      rewrite (Hsteps' row Hrow). apply ito_path_sum_w.
    + intros ts ws Hlen. eexists. split; [by apply Hfw|]. simpl.
      clear -Hlen. revert ws Hlen.
      induction ts as [|t ts IH]; intros [|v ws] Hlen; simpl in *; try done.
      f_equal. apply IH. lia.
Qed.

Lemma zip_with_second (ts ws : list Qc) :
  length ts = length ws → zip_with (λ _ w : Qc, w) ts ws = ws.
Proof.
  revert ws. induction ts as [|t ts IH]; intros [|v ws] Hlen; simpl in *; try done.
  f_equal. apply IH. lia.
Qed.

(** X20 at a concrete input.
    The integrands [1] and [w] over [0, 1] with 2 paths of 4 steps, the
    increments being [1/2, -1/2, 1/2, -1/2] along both paths: [W_T = 0]
    and the Ito sum of [w] is [-1/2]. *)
Lemma _handle_ito_closed_forms_example :
  let h := Q2Qc (1 # 2) in
  let dW := [[h; - h; h; - h]; [h; - h; h; - h]] in
  result_of (_handle_ito (H := MiniCAS.cas) (H0 := MiniCAS.rng) "1" 0 1 2 4) "mean"
  = Some (VFloat (np_sum (np_sum <$> dW) / Qc_of_Z 2))
  ∧ result_of (_handle_ito (H := MiniCAS.cas) (H0 := MiniCAS.rng) "w" 0 1 2 4) "mean"
    = Some (VFloat
        (np_sum ((λ row, (np_sum row * np_sum row
                          - np_sum ((λ d, d * d) <$> row)) / 2) <$> dW)
         / Qc_of_Z 2)).
Proof.
  intros h dW.
  eapply (_handle_ito_closed_forms (H := MiniCAS.cas) (H0 := MiniCAS.rng)
            "1" "w" 0 1 2 4 (MiniCAS.Num 1) (MiniCAS.Var "w") _ _ dW).
  - lia.
  - lia.
  - reflexivity.
  - reflexivity.
  - reflexivity.
  - reflexivity.
  - reflexivity.
  - intros ts ws Hlen. cbv beta. rewrite MiniCAS_pointwise2.
    by rewrite zip_with_second.
  - vm_compute. reflexivity.
  - reflexivity.
  - repeat constructor.
Defined.

(** ** The core [riemann_stieltjes_sum] and the Riemann sum of a product *)

Lemma stieltjes_terms_pointwise `{CAS} (e g : expr) (x : symbol)
    (fq gq : Qc → Qc) (delta_x : Qc) (point : Z → Qc) (l : list Z) :
  (∀ v, subs e x v = Return (fq v)) →
  (∀ v, subs g x v = Return (gq v)) →
  stieltjes_terms e g x delta_x (point <$> l)
  = Return ((λ i, fq (point i) * gq (point i) * delta_x) <$> l).
Proof.
  intros Hf Hg. unfold stieltjes_terms.
  rewrite (mapM_ext_outcome _ (λ p, Return (fq p * gq p * delta_x))).
  - by rewrite mapM_Return, <- list_fmap_compose.
  - intros p. by rewrite Hf, Hg.
Qed.

(** X21.
    [riemann_stieltjes_sum] multiplies the integrand by the value of the
    integrator, not by its increment: for each of its three methods and
    [n > 0] it prints what [riemann_sum] prints, with the same method, for
    the product of the two expressions. *)
Theorem riemann_stieltjes_sum_is_riemann_sum_of_product `{CAS}
    (expression variable integrator product : string) (a b : Qc) (n : Z)
    (e g p : expr) (x : symbol) (fq gq : Qc → Qc) (method : string) :
  (0 < n)%Z →
  sympify (PyStr expression) = Return e →
  sympify (PyStr integrator) = Return g →
  sympify (PyStr product) = Return p →
  symbols (PyStr variable) = Return x →
  (∀ v, subs e x v = Return (fq v)) →
  (∀ v, subs g x v = Return (gq v)) →
  (∀ v, subs p x v = Return (fq v * gq v)) →
  method = "left" ∨ method = "right" ∨ method = "midpoint" →
  riemann_stieltjes_sum expression variable integrator a b n method
  = riemann_sum product variable a b n method.
Proof.
  intros Hn He Hg Hp Hx Hfq Hgq Hpq Hm.
  destruct (riemann_sum_values product variable a b n p x (λ v, fq v * gq v))
    as (Hleft & Hright & Hmid & _); try done.
  assert (Hne : ∀ h : Z → Qc, h <$> range n ≠ []).
  { intros h. by apply fmap_nonempty, range_nonempty. }
  unfold riemann_stieltjes_sum. run He. run Hx. run Hg.
  rewrite py_truediv_nonzero, bind_Return by lia.
  destruct Hm as [->| [->| ->]].
  - rewrite Hleft. destruct (decide ("left" = "left")) as [_|?]; [|done].
    rewrite (stieltjes_terms_pointwise e g x fq gq), bind_Return, try_except_Return
      by done.
    by rewrite py_sum_nonempty by apply Hne.
  - rewrite Hright. destruct (decide ("right" = "left")) as [?|_]; [done|].
    destruct (decide ("right" = "right")) as [_|?]; [|done].
    rewrite (stieltjes_terms_pointwise e g x fq gq), bind_Return, try_except_Return
      by done.
    rewrite py_sum_nonempty.
    2: { rewrite range2_shift. apply fmap_nonempty, fmap_nonempty.
         by apply range_nonempty. }
    by rewrite range2_shift, <- list_fmap_compose.
  - rewrite Hmid. destruct (decide ("midpoint" = "left")) as [?|_]; [done|].
    destruct (decide ("midpoint" = "right")) as [?|_]; [done|].
    destruct (decide ("midpoint" = "midpoint")) as [_|?]; [|done].
    rewrite (stieltjes_terms_pointwise e g x fq gq), bind_Return, try_except_Return
      by done.
    by rewrite py_sum_nonempty by apply Hne.
Qed.

(** X21 at a concrete input.
    The integrand [x**2] with the integrator [x] is the Riemann sum of
    [x**3]. *)
Lemma riemann_stieltjes_sum_is_riemann_sum_of_product_example :
  riemann_stieltjes_sum (H := MiniCAS.cas) "x**2" "x" "x" 0 1 100 "left"
  = riemann_sum (H := MiniCAS.cas) "x**3" "x" 0 1 100 "left".
Proof.
  apply (riemann_stieltjes_sum_is_riemann_sum_of_product (H := MiniCAS.cas)
           "x**2" "x" "x" "x**3" 0 1 100
           (MiniCAS.Pow (MiniCAS.Var "x") 2) (MiniCAS.Var "x")
           (MiniCAS.Pow (MiniCAS.Var "x") 3) "x" (λ v, v ^ 2) (λ v, v)).
  - lia.
  - reflexivity.
  - reflexivity.
  - reflexivity.
  - reflexivity.
  - reflexivity.
  - reflexivity.
  - intros v. simpl. f_equal. ring.
  - by left.
Defined.

(** ** Negative counts in the core functions *)

(** X22.
    A negative [n] is not rejected.  When the expression and the variable
    parse, the sums over [range(n)] are empty and the functions print
    ["0"]: [riemann_sum] for [left], [right] and [midpoint],
    [darboux_sum], [riemann_stieltjes_sum], [lebesgue_integral] and
    [ito_integral]; the trapezoid rule of [riemann_sum] indexes its empty
    list of points and prints an error. *)
Theorem negative_count_prints_zero `{CAS} `{SympySqrt}
    (expression variable integrator : string) (a b : Qc) (n : Z)
    (e g : expr) (x : symbol) :
  (n < 0)%Z →
  sympify (PyStr expression) = Return e →
  sympify (PyStr integrator) = Return g →
  symbols (PyStr variable) = Return x →
  (∀ method, method = "left" ∨ method = "right" ∨ method = "midpoint" →
     riemann_sum expression variable a b n method = Return "0"
     ∧ riemann_stieltjes_sum expression variable integrator a b n method
       = Return "0")
  ∧ (∀ type, type = "upper" ∨ type = "lower" →
       darboux_sum expression variable a b n type = Return "0")
  ∧ lebesgue_integral expression variable a b n = Return "0"
  ∧ ito_integral expression variable a b n = Return "0"
  ∧ ∃ msg, riemann_sum expression variable a b n "trapezoid"
           = Return ("Error: " +:+ msg).
Proof.
  intros Hn He Hg Hx.
  assert (Hr : range n = []) by (apply range_nonpos; lia).
  assert (Hr2 : range2 1 (n + 1) = []).
  { unfold range2. by replace (Z.to_nat (n + 1 - 1)) with 0%nat by lia. }
  assert (Hr1 : range (n + 1) = []) by (apply range_nonpos; lia).
  split_and!.
  - intros method Hm. split.
    + unfold riemann_sum. run He. run Hx.
      rewrite py_truediv_nonzero, bind_Return by lia. rewrite Hr, Hr2.
      by destruct Hm as [->| [->| ->]].
    + unfold riemann_stieltjes_sum. run He. run Hx. run Hg.
      rewrite py_truediv_nonzero, bind_Return by lia. rewrite Hr, Hr2.
      by destruct Hm as [->| [->| ->]].
  - intros type Ht. unfold darboux_sum, darboux_terms. run He. run Hx.
    rewrite py_truediv_nonzero, bind_Return by lia. rewrite Hr.
    by destruct Ht as [->| ->].
  - unfold lebesgue_integral. run He. run Hx.
    rewrite py_truediv_nonzero, bind_Return by lia. by rewrite Hr.
  - unfold ito_integral. run He. run Hx.
    rewrite py_truediv_nonzero, bind_Return by lia. by rewrite Hr.
  - unfold riemann_sum. run He. run Hx.
    rewrite py_truediv_nonzero, bind_Return by lia. rewrite Hr1.
    destruct (decide ("trapezoid" = "left")) as [?|_]; [done|].
    destruct (decide ("trapezoid" = "right")) as [?|_]; [done|].
    destruct (decide ("trapezoid" = "midpoint")) as [?|_]; [done|].
    destruct (decide ("trapezoid" = "trapezoid")) as [_|?]; [|done].
    by eexists.
Qed.

(** X22 at a concrete input.
    [x**2] over [0, 1] with [n = -3]. *)
Lemma negative_count_prints_zero_example :
  (∀ method, method = "left" ∨ method = "right" ∨ method = "midpoint" →
     riemann_sum (H := MiniCAS.cas) "x**2" "x" 0 1 (-3) method = Return "0"
     ∧ riemann_stieltjes_sum (H := MiniCAS.cas) "x**2" "x" "x" 0 1 (-3) method
       = Return "0")
  ∧ (∀ type, type = "upper" ∨ type = "lower" →
       darboux_sum (H := MiniCAS.cas) "x**2" "x" 0 1 (-3) type = Return "0")
  ∧ lebesgue_integral (H := MiniCAS.cas) "x**2" "x" 0 1 (-3) = Return "0"
  ∧ ito_integral (H := MiniCAS.cas) (H0 := exact_sqrt) "x**2" "x" 0 1 (-3)
    = Return "0"
  ∧ ∃ msg, riemann_sum (H := MiniCAS.cas) "x**2" "x" 0 1 (-3) "trapezoid"
           = Return ("Error: " +:+ msg).
Proof.
  apply (negative_count_prints_zero (H := MiniCAS.cas) (H0 := exact_sqrt)
           "x**2" "x" "x" 0 1 (-3)
           (MiniCAS.Pow (MiniCAS.Var "x") 2) (MiniCAS.Var "x") "x").
  - lia.
  - reflexivity.
  - reflexivity.
  - reflexivity.
Defined.

(** ** The order of [symbolic_derivative] *)

(** The loop of [symbolic_derivative] differentiates [order] times. *)
Lemma for_each_diff `{SympyDiff} (x : symbol) (l : list Z) (e : expr) :
  for_each l e (λ _ result, diff result x)
  = derivative_of_order x (length l) e.
Proof.
  revert e. induction l as [|i l IH]; intros e; [done|].
  cbn [for_each length derivative_of_order].
  destruct (diff e x) as [d|?]; [|done]. by rewrite !bind_Return.
Qed.

Lemma derivative_of_order_add `{SympyDiff} (x : symbol) (m n : nat) (e : expr) :
  derivative_of_order x (m + n) e
  = derivative_of_order x m e ≫= derivative_of_order x n.
Proof.
  revert e. induction m as [|m IH]; intros e; [done|].
  cbn [Nat.add derivative_of_order].
  destruct (diff e x) as [d|?]; [|done]. rewrite !bind_Return. apply IH.
Qed.

(** X23.
    The order is not validated, and orders add up.  With an order that
    is 0 or negative the tool differentiates nothing and returns the
    parsed expression, printed.  And when the derivative of order [m]
    prints to a string that parses back to it, the derivative of order
    [n] of that string is what the tool returns for the order [m + n]. *)
Theorem symbolic_derivative_orders `{SympyDiff} (expression variable : string)
    (x : symbol) (e : expr) :
  Symbol variable = Return x →
  sympify (PyStr expression) = Return e →
  (∀ order, (order ≤ 0)%Z →
     symbolic_derivative expression variable order = Return (str_expr e))
  ∧ (∀ m n d, (0 ≤ m)%Z → (0 ≤ n)%Z →
       derivative_of_order x (Z.to_nat m) e = Return d →
       sympify (PyStr (str_expr d)) = Return d →
       symbolic_derivative expression variable m = Return (str_expr d)
       ∧ symbolic_derivative (str_expr d) variable n
         = symbolic_derivative expression variable (m + n)).
Proof.
  intros Hx He. split.
  - intros order Horder. unfold symbolic_derivative. run Hx. run He.
    by rewrite range_nonpos by done.
  - intros m n d Hm Hn Hd Hround. unfold symbolic_derivative.
    rewrite Hx, He, Hround, !bind_Return. cbv zeta.
    rewrite !for_each_diff, !length_range.
    replace (Z.to_nat (m + n)) with (Z.to_nat m + Z.to_nat n)%nat by lia.
    rewrite derivative_of_order_add, Hd, !bind_Return. done.
Qed.

(** X23 at a concrete input.
    The expression [t*w] differentiated in [t]: the first derivative is
    [w], and the derivative of [w] is the second derivative of [t*w]. *)
Lemma symbolic_derivative_orders_example :
  (∀ order, (order ≤ 0)%Z →
     symbolic_derivative (H0 := MiniDiff.sympy_diff) "t*w" "t" order
     = Return "t*w")
  ∧ symbolic_derivative (H0 := MiniDiff.sympy_diff) "t*w" "t" 1 = Return "w"
  ∧ symbolic_derivative (H0 := MiniDiff.sympy_diff) "w" "t" 1
    = symbolic_derivative (H0 := MiniDiff.sympy_diff) "t*w" "t" (1 + 1).
Proof.
  destruct (symbolic_derivative_orders (H0 := MiniDiff.sympy_diff) "t*w" "t" "t"
              (MiniCAS.Mul (MiniCAS.Var "t") (MiniCAS.Var "w")) eq_refl eq_refl)
    as [Hzero Hadd].
  split; [exact Hzero|].
  apply (Hadd 1%Z 1%Z (MiniCAS.Var "w")); [lia|lia|reflexivity|reflexivity].
Defined.

(** ** The fitted line of [linear_regression] *)

Lemma Qc_square_nonneg (v : Qc) : 0 ≤ v * v.
Proof.
  destruct (decide (0 ≤ v)) as [Hv|Hv].
  - by apply Qcmult_nonneg_nonneg.
  - assert (Hneg : 0 ≤ - v).
    { apply Qclt_nge, Qclt_le_weak in Hv.
      apply (proj1 (Qcle_minus_iff v 0)) in Hv.
      by rewrite Qcplus_0_l in Hv. }
    replace (v * v) with (- v * - v) by ring.
    by apply Qcmult_nonneg_nonneg.
Qed.

Lemma np_sum_nonneg (g : Qc → Qc) (l : list Qc) :
  (∀ v, 0 ≤ g v) → 0 ≤ np_sum (g <$> l).
Proof.
  intros Hg. induction l as [|x l IH]; csimpl; [done|].
  by apply Qcplus_nonneg_nonneg.
Qed.

(** X24.
    The fitted line passes through the centroid of the data, and the
    coefficient of determination is at most 1.  For arrays of the same
    length with abscissas that are not all equal and ordinates that are
    not all equal (the two denominators are not 0), the slope [s] and the
    intercept [i] returned satisfy [s mean(x) + i = mean(y)], and
    [r_squared ≤ 1]. *)
Theorem linear_regression_centroid (x_values y_values : list Qc) :
  let n := Qc_of_Z (Z.of_nat (length x_values)) in
  length x_values = length y_values →
  n * np_sum ((λ v, v * v) <$> x_values) - np_sum x_values * np_sum x_values ≠ 0 →
  np_sum ((λ v, (v - np_mean y_values) * (v - np_mean y_values)) <$> y_values) ≠ 0 →
  ∃ slope intercept r_squared : Qc,
    linear_regression x_values y_values
    = Return {[ "slope" := VFloat slope;
                "intercept" := VFloat intercept;
                "r_squared" := VFloat r_squared ]}
    ∧ slope * np_mean x_values + intercept = np_mean y_values
    ∧ r_squared ≤ 1.
Proof.
  intros n Hlen Hd Htot.
  assert (Hn : n ≠ 0).
  { intros Hn. apply Hd. unfold n in *.
    destruct x_values as [|x xs]; [by apply Qc_is_canon|].
    exfalso. revert Hn. apply Qc_of_Z_nonzero. simpl length. lia. }
  unfold linear_regression.
  destruct (decide (length x_values ≠ length y_values)) as [?|_]; [done|].
  cbv zeta. fold n. eexists _, _, _. split_and!; [done| |].
  - unfold np_mean. rewrite <- Hlen. fold n. field. done.
  - match goal with |- 1 - ?a / ?b ≤ 1 =>
      assert (Hq : 0 ≤ a / b); [|generalize dependent (a / b)] end.
    + apply Qcdiv_nonneg.
      * apply np_sum_nonneg. intros v. apply Qc_square_nonneg.
      * assert (Hnn : 0 ≤ np_sum ((λ v, (v - np_mean y_values) * (v - np_mean y_values))
                                    <$> y_values)).
        { apply np_sum_nonneg. intros v. apply Qc_square_nonneg. }
        apply Qcle_lt_or_eq in Hnn as [?|Heq]; [done|].
        by rewrite <- Heq in Htot.
    + intros q Hq. apply (proj2 (Qcle_minus_iff _ _)).
      replace (1 + - (1 - q)) with q by ring. done.
Qed.

(** X24 at a concrete input.
    The points (0, 0), (1, 1), (2, 0): the fitted line is [y = 1/3]. *)
Lemma linear_regression_centroid_example :
  let x_values := [0; 1; Qc_of_Z 2] in
  let y_values := [0; 1; 0] in
  ∃ slope intercept r_squared : Qc,
    linear_regression x_values y_values
    = Return {[ "slope" := VFloat slope;
                "intercept" := VFloat intercept;
                "r_squared" := VFloat r_squared ]}
    ∧ slope * np_mean x_values + intercept = np_mean y_values
    ∧ r_squared ≤ 1.
Proof.
  intros x_values y_values.
  apply (linear_regression_centroid x_values y_values); by vm_compute.
Defined.

(** ** Interest *)

(** X25.
    Discounting undoes compounding.  With one compounding period per
    year, and whenever the power [(1 + rate) ** time] is a number other
    than 0, [present_value] of the future value [compound_interest]
    returns is the principal. *)
Theorem present_value_of_compound_interest `{PyPow}
    (principal rate time growth : Qc) :
  py_pow (1 + rate) time = Return growth →
  growth ≠ 0 →
  compound_interest principal rate time 1 = Return (principal * growth)
  ∧ present_value (principal * growth) rate time = Return principal.
Proof.
  intros Hpow Hg. unfold compound_interest, present_value.
  rewrite py_truediv_nonzero, bind_Return by done.
  rewrite Z2Qc_inj_1.
  replace (1 + rate / 1) with (1 + rate) by (by field).
  rewrite Qcmult_1_l, Hpow, !bind_Return. split; [done|].
  rewrite py_truediv_ne by done. f_equal. by field.
Qed.

(** X25 at a concrete input.
    100 at the rate 1/10 over 2 years: the future value is 121. *)
Lemma present_value_of_compound_interest_example :
  let rate := Q2Qc (1 # 10) in
  let growth := Q2Qc (121 # 100) in
  compound_interest (H := natural_pow) (Qc_of_Z 100) rate (Qc_of_Z 2) 1
  = Return (Qc_of_Z 100 * growth)
  ∧ present_value (H := natural_pow) (Qc_of_Z 100 * growth) rate (Qc_of_Z 2)
    = Return (Qc_of_Z 100).
Proof.
  intros rate growth.
  apply (present_value_of_compound_interest (H := natural_pow)
           (Qc_of_Z 100) rate (Qc_of_Z 2) growth).
  - vm_compute. first [reflexivity | f_equal; apply Qc_is_canon; reflexivity].
  - done.
Defined.

(** ** [definite_integral] and the method [quad] *)

(** X26.
    [definite_integral] and [numerical_integration_methods] with
    [method="quad"] run the same quadrature on the same evaluator: the
    value the first returns is the [result] of the second, whatever
    [points]; and where the first raises, the second answers with the
    error of that exception. *)
Theorem definite_integral_is_the_quad_method `{Scipy} (function : string)
    (lower_bound upper_bound : Qc) (points : Z) :
  (∀ value, definite_integral function lower_bound upper_bound = Return value →
     result_of
       (numerical_integration_methods function lower_bound upper_bound "quad" points)
       "result" = Some (VFloat value))
  ∧ (∀ e, definite_integral function lower_bound upper_bound = Raise e →
       numerical_integration_methods function lower_bound upper_bound "quad" points
       = Return (error_response ("Error during integration: " +:+ str_exn e))).
Proof.
  unfold definite_integral, numerical_integration_methods. cbv zeta.
  destruct (decide ("quad" = "quad")) as [_|?]; [|done].
  destruct (quad _ _ _) as [[result error]|e'].
  - split; [|done]. by intros value [= <-].
  - split; [done|]. by intros e [= <-].
Qed.

(** ** Reversed intervals *)

Lemma sum_upto_reverse (n : Z) (g : Z → Qc) :
  (0 ≤ n)%Z → sum_upto n g = sum_upto n (λ i, g (n - 1 - i)%Z).
Proof.
  intros Hn. revert g. pattern n. apply natlike_ind; [| |done].
  - intros g. by rewrite !sum_upto_nonpos.
  - intros k Hk IH g. change (Z.succ k) with (k + 1)%Z.
    rewrite sum_upto_succ by done.
    rewrite (sum_upto_split_first (k + 1)) by lia.
    replace (k + 1 - 1)%Z with k by lia.
    rewrite (IH g), Z.sub_0_r.
    rewrite (sum_upto_ext k (λ i, g (k - (i + 1))%Z) (λ i, g (k - 1 - i)%Z)).
    + ring.
    + intros i _. f_equal. lia.
Qed.

Lemma partition_point_reverse (start end_ : Qc) (n i : Z) :
  n ≠ 0%Z →
  partition_point end_ start n i = partition_point start end_ n (n - i).
Proof.
  intros Hn. unfold partition_point. rewrite Z2Qc_inj_sub. field.
  by apply Qc_of_Z_nonzero.
Qed.

(** The rules on the reversed interval. *)
Lemma riemann_sums_reversed (f : Qc → Qc) (start end_ : Qc) (n : Z) :
  (0 < n)%Z →
  left_riemann_sum f end_ start n = - right_riemann_sum f start end_ n
  ∧ right_riemann_sum f end_ start n = - left_riemann_sum f start end_ n
  ∧ midpoint_riemann_sum f end_ start n = - midpoint_riemann_sum f start end_ n
  ∧ trapezoid_riemann_sum f end_ start n = - trapezoid_riemann_sum f start end_ n.
Proof.
  intros Hn.
  assert (Hnz : Qc_of_Z n ≠ 0) by (apply Qc_of_Z_nonzero; lia).
  assert (Hdx : (start - end_) / Qc_of_Z n = - ((end_ - start) / Qc_of_Z n))
    by (by field).
  assert (Hneg : ∀ g : Z → Qc,
    sum_upto n (λ i, g i * - ((end_ - start) / Qc_of_Z n))
    = - sum_upto n (λ i, g i * ((end_ - start) / Qc_of_Z n))).
  { intros g. rewrite !sum_upto_scale. ring. }
  split_and!.
  - unfold left_riemann_sum, right_riemann_sum. cbv zeta.
    rewrite Hdx, Hneg. f_equal.
    rewrite (sum_upto_reverse n (λ i, f (partition_point start end_ n (i + 1))
                                      * ((end_ - start) / Qc_of_Z n))) by lia.
    apply sum_upto_ext. intros i _.
    rewrite partition_point_reverse by lia. do 3 f_equal. lia.
  - unfold left_riemann_sum, right_riemann_sum. cbv zeta.
    rewrite Hdx, Hneg. f_equal.
    rewrite (sum_upto_reverse n (λ i, f (partition_point start end_ n i)
                                      * ((end_ - start) / Qc_of_Z n))) by lia.
    apply sum_upto_ext. intros i _.
    rewrite partition_point_reverse by lia. do 3 f_equal. lia.
  - unfold midpoint_riemann_sum. cbv zeta.
    rewrite Hdx, Hneg. f_equal.
    rewrite (sum_upto_reverse n
      (λ i, f (start + (Qc_of_Z i + Q2Qc (1 # 2)) * ((end_ - start) / Qc_of_Z n))
            * ((end_ - start) / Qc_of_Z n))) by lia.
    apply sum_upto_ext. intros i _. do 2 f_equal.
    rewrite !Z2Qc_inj_sub, Z2Qc_inj_1.
    replace (Q2Qc (1 # 2)) with (1 / 2) by (by apply Qc_is_canon).
    field. done.
  - rewrite !trapezoid_riemann_sum_mean.
    unfold left_riemann_sum, right_riemann_sum. cbv zeta.
    rewrite Hdx, !Hneg.
    rewrite (sum_upto_reverse n (λ i, f (partition_point start end_ n (i + 1))
                                      * ((end_ - start) / Qc_of_Z n))) by lia.
    rewrite (sum_upto_reverse n (λ i, f (partition_point start end_ n i)
                                      * ((end_ - start) / Qc_of_Z n))) by lia.
    rewrite (sum_upto_ext n
      (λ i, f (partition_point end_ start n (i + 1)) * ((end_ - start) / Qc_of_Z n))
      (λ i, f (partition_point start end_ n (n - 1 - i))
            * ((end_ - start) / Qc_of_Z n))).
    2: { intros i _. rewrite partition_point_reverse by lia. do 3 f_equal. lia. }
    rewrite (sum_upto_ext n
      (λ i, f (partition_point end_ start n i) * ((end_ - start) / Qc_of_Z n))
      (λ i, f (partition_point start end_ n (n - 1 - i + 1))
            * ((end_ - start) / Qc_of_Z n))).
    2: { intros i _. rewrite partition_point_reverse by lia. do 3 f_equal. lia. }
    field. done.
Qed.

(** X27.
    Integrating backwards.  For an integrand that the evaluator computes
    point by point, [_handle_riemann] on the reversed interval [end,
    start] returns the negated value of the forward interval for the
    rules [midpoint] and [trapezoid]; the rules [left] and [right] change
    places: [left] backwards is the negated [right] forwards, and
    conversely. *)
Theorem _handle_riemann_reversed_interval `{CAS} (function : string)
    (start end_ : Qc) (e : expr) (f : list Qc → outcome ndarray) (fq : Qc → Qc) :
  sympify (PyStr function) = Return e →
  lambdify1 e = Return f →
  (∀ xs, f xs = Return (Arr (fq <$> xs))) →
  ∃ left right midpoint trapezoid : Qc,
    result_of (_handle_riemann function start end_ "left") "result"
    = Some (VFloat left)
    ∧ result_of (_handle_riemann function start end_ "right") "result"
      = Some (VFloat right)
    ∧ result_of (_handle_riemann function start end_ "midpoint") "result"
      = Some (VFloat midpoint)
    ∧ result_of (_handle_riemann function start end_ "trapezoid") "result"
      = Some (VFloat trapezoid)
    ∧ result_of (_handle_riemann function end_ start "left") "result"
      = Some (VFloat (- right))
    ∧ result_of (_handle_riemann function end_ start "right") "result"
      = Some (VFloat (- left))
    ∧ result_of (_handle_riemann function end_ start "midpoint") "result"
      = Some (VFloat (- midpoint))
    ∧ result_of (_handle_riemann function end_ start "trapezoid") "result"
      = Some (VFloat (- trapezoid)).
Proof.
  intros Hs Hl Hf.
  destruct (riemann_with_points_rules function start end_ 999 e f fq)
    as (Hleft & Hright & Hmid & Htrap); try done.
  destruct (riemann_with_points_rules function end_ start 999 e f fq)
    as (Hleft' & Hright' & Hmid' & Htrap'); try done.
  destruct (riemann_sums_reversed fq start end_ 999)
    as (Rleft & Rright & Rmid & Rtrap); [done|].
  unfold _handle_riemann. change 1000%Z with (999 + 1)%Z.
  rewrite Hleft, Hright, Hmid, Htrap, Hleft', Hright', Hmid', Htrap'.
  rewrite Rleft, Rright, Rmid, Rtrap.
  eexists _, _, _, _. unfold result_of. rewrite !lookup_insert_eq.
  by split_and!.
Qed.

(** X27 at a concrete input.
    [x**2] over [0, 1] and over [1, 0]. *)
Lemma _handle_riemann_reversed_interval_example :
  ∃ left right midpoint trapezoid : Qc,
    result_of (_handle_riemann (H := MiniCAS.cas) "x**2" 0 1 "left") "result"
    = Some (VFloat left)
    ∧ result_of (_handle_riemann (H := MiniCAS.cas) "x**2" 0 1 "right") "result"
      = Some (VFloat right)
    ∧ result_of (_handle_riemann (H := MiniCAS.cas) "x**2" 0 1 "midpoint") "result"
      = Some (VFloat midpoint)
    ∧ result_of (_handle_riemann (H := MiniCAS.cas) "x**2" 0 1 "trapezoid") "result"
      = Some (VFloat trapezoid)
    ∧ result_of (_handle_riemann (H := MiniCAS.cas) "x**2" 1 0 "left") "result"
      = Some (VFloat (- right))
    ∧ result_of (_handle_riemann (H := MiniCAS.cas) "x**2" 1 0 "right") "result"
      = Some (VFloat (- left))
    ∧ result_of (_handle_riemann (H := MiniCAS.cas) "x**2" 1 0 "midpoint") "result"
      = Some (VFloat (- midpoint))
    ∧ result_of (_handle_riemann (H := MiniCAS.cas) "x**2" 1 0 "trapezoid") "result"
      = Some (VFloat (- trapezoid)).
Proof.
  eapply (_handle_riemann_reversed_interval (H := MiniCAS.cas) "x**2" 0 1
            (MiniCAS.Pow (MiniCAS.Var "x") 2)).
  - reflexivity.
  - reflexivity.
  - intros xs. cbv beta. by apply MiniCAS_pointwise.
Defined.
